(** * A shallow embedding of the distributed vector-search coordination layer

    The development models the orchestration classes of
    [docs/course/examples/distributed_examples.cpp] and
    [docs/course/examples/advanced_distributed.cpp]:

    - [RangeSharding], [HashSharding], [RoundRobinSharding] (write/read routing),
    - [ShardNode] and [DistributedIndex] (batched writes, fan-out reads, merge),
    - [FailureDetector] (heartbeat time-out state machine),
    - [CheckpointManager] (snapshot creation and FIFO retention),
    - [AdaptiveLoadBalancer] (weighted least-connections selection, latency EMA).
    - saving and loading the shards ([Persistence]), the background loop of
      the checkpoint manager ([CheckpointLoop]) and [Tracer::start_span].

    Conventions.
    - [std::size_t], [std::uint64_t] and [vector_key_t] values are integers in
      [Z]; every arithmetic operation of the source that can leave the 64-bit
      range is wrapped with [wrap64].  Container sizes and indices are [nat].
    - [double] is the kernel's binary64 type ([PrimFloat.float]); [float]
      distances are binary64 values too (every binary32 value is one, and the
      comparison is the same).
    - An operation whose behaviour the C++ standard leaves undefined (indexing
      past the end of a vector, [back()] of an empty vector, an iterator range
      that is not valid) returns [None].
    - Operations guarded by a mutex or done with atomics are modelled as single
      atomic steps; the tasks of one fan-out touch pairwise different shards
      and are run in shard order.
    - A variable captured by reference and read after its lifetime has ended
      is undefined like any other such read; when a task reads is a parameter
      of the model (see [DistributedIndex.fan_out]).
    - A floating expression of the form [a * b + c * d] may be contracted to
      a fused multiply-add, as the C++ standard allows and as the build the
      sources name ([g++ -O3 -march=native]) does; which evaluation a call
      gets is a parameter of the model (see [AdaptiveLoadBalancer.evaluation]).

    The first part of the file holds the model, the second part the proofs. *)

From Stdlib Require Import ZArith Lia Bool List Permutation Sorted.
From Stdlib Require Import Floats.
From stdpp Require Import gmap strings list fin_maps pretty sorting.

Local Open Scope Z_scope.

(* ===================================================================== *)
(** * Part I: the model                                                   *)
(* ===================================================================== *)

(** ** Machine integers *)

Definition wrap64 (z : Z) : Z := z mod 2 ^ 64.

(** ** RangeSharding *)

Module RangeSharding.

(** [struct Range { vector_key_t min_key; vector_key_t max_key;
    std::size_t shard_id; }]. The field [shard_id] is spelled
    [range_shard_id], the name [shard_id] being the method's. *)
Record Range : Type := mkRange {
  min_key : Z;
  max_key : Z;
  range_shard_id : nat
}.

(** The body of the constructor's loop for index [i]. *)
Definition make_range (num_shards : nat) (total_keys : Z) (i : nat) : Range :=
  let keys_per_shard := total_keys / Z.of_nat num_shards in
  {| min_key := wrap64 (Z.of_nat i * keys_per_shard);
     max_key := if Nat.eqb i (num_shards - 1)
                then total_keys
                else wrap64 ((Z.of_nat i + 1) * keys_per_shard);
     range_shard_id := i |}.

(** [RangeSharding(num_shards, total_keys)]: the vector [ranges_].
    With [num_shards = 0] the division [total_keys / num_shards] is
    undefined. *)
Definition new (num_shards : nat) (total_keys : Z) : option (list Range) :=
  match num_shards with
  | O => None
  | S _ => Some (map (make_range num_shards total_keys) (seq 0 num_shards))
  end.

Definition in_range (key : Z) (r : Range) : bool :=
  (min_key r <=? key) && (key <? max_key r).

(** The [for] loop of [shard_id]: the first range that holds the key. *)
Fixpoint scan (key : Z) (ranges_ : list Range) : option nat :=
  match ranges_ with
  | [] => None
  | range :: rest =>
      if in_range key range then Some (range_shard_id range)
      else scan key rest
  end.

(** [shard_id(key)]: the scan, then the fallback [ranges_.back().shard_id]
    (undefined on an empty vector). *)
Definition shard_id (ranges_ : list Range) (key : Z) : option nat :=
  match scan key ranges_ with
  | Some s => Some s
  | None => range_shard_id <$> last ranges_
  end.

(** [target_shards(query, n_probe)]: indices [0 .. min(n_probe, size) - 1]. *)
Definition target_shards (ranges_ : list Range) (n_probe : nat) : list nat :=
  seq 0 (Nat.min n_probe (length ranges_)).

(** The statement of the range-completeness property for an instance built
    with [N] shards over [M] keys: one range per shard, in index order,
    contiguous from [0] to [M], and [shard_id] sends a key below [M] to
    the one range that holds it and any other key to the last shard. *)
Record partitions (N : nat) (M : Z) (ranges_ : list Range) : Prop := {
  part_length : length ranges_ = N;
  part_ids : forall i r, ranges_ !! i = Some r ->
      range_shard_id r = i /\ min_key r <= max_key r;
  part_first : min_key <$> head ranges_ = Some 0;
  part_contiguous : forall i r r',
      ranges_ !! i = Some r -> ranges_ !! S i = Some r' ->
      max_key r = min_key r';
  part_last : max_key <$> last ranges_ = Some M;
  part_inside : forall key, 0 <= key < M ->
      exists i, shard_id ranges_ key = Some i /\ (i < N)%nat /\
        forall j r, ranges_ !! j = Some r ->
          (in_range key r = true <-> j = i);
  part_outside : forall key, M <= key ->
      shard_id ranges_ key = Some (N - 1)%nat
}.

End RangeSharding.

(** ** The Vector Index Engine *)

(** [result_t]: a key with its distance to the query. *)
Record result_t : Type := mkResult {
  key : Z;
  distance : float
}.

(** Modelled from the spec: the single-node index ([index_dense_gt] of
    [usearch/index_dense.hpp]) is outside the sources. Section 6 of the spec
    gives the interface the shards use: [add] of one vector and of a batch,
    each of which may fail ("engine full / invalid vector", a batch failing
    as a whole), [search] returning at most [k] results in ascending
    distance, and [size]. The flag returned with the new state tells whether
    the engine's result carries no error. *)
Class VectorIndexEngine (E : Type) : Type := {
  engine_add : Z -> list float -> E -> E * bool;
  engine_add_batch : list Z -> list float -> nat -> E -> E * bool;
  engine_search : list float -> nat -> E -> list result_t;
  engine_size : E -> nat
}.

(** ** ShardNode *)

Module ShardNode.

(** The members of the class but the mutex. *)
Record t (E : Type) : Type := mk {
  index_ : E;
  shard_id_ : nat;
  dimensions_ : nat;
  query_count_ : Z
}.
Arguments mk {E} _ _ _ _.
Arguments index_ {E} _.
Arguments shard_id_ {E} _.
Arguments dimensions_ {E} _.
Arguments query_count_ {E} _.

Section Methods.
Context {E : Type} `{VectorIndexEngine E}.

Definition with_index (node : t E) (index : E) : t E :=
  {| index_ := index; shard_id_ := shard_id_ node;
     dimensions_ := dimensions_ node; query_count_ := query_count_ node |}.

(** [add(key, vector)]: [index_.add(key, vector); return true;]. *)
Definition add (k : Z) (vector : list float) (node : t E) : t E * bool :=
  (with_index node (engine_add k vector (index_ node)).1, true).

(** [add_batch(keys, vectors, count)]:
    [index_.add(keys, vectors, count); return true;]. *)
Definition add_batch (keys : list Z) (vectors : list float) (count : nat)
    (node : t E) : t E * bool :=
  (with_index node (engine_add_batch keys vectors count (index_ node)).1, true).

(** [search(query, k)]: counts the query, then asks the engine. *)
Definition search (query : list float) (k : nat) (node : t E) : t E * list result_t :=
  ({| index_ := index_ node; shard_id_ := shard_id_ node;
      dimensions_ := dimensions_ node;
      query_count_ := wrap64 (query_count_ node + 1) |},
   engine_search query k (index_ node)).

Definition size (node : t E) : nat := engine_size (index_ node).

End Methods.

End ShardNode.

(** ** ShardingStrategy *)

Module ShardingStrategy.

(** The three classes derived from [ShardingStrategy], each with its
    members. *)
Inductive t : Type :=
| HashSharding (num_shards_ : nat)
| RoundRobinSharding (num_shards_ : nat) (counter_ : Z)
| RangeSharding (ranges_ : list RangeSharding.Range).

(** [shard_id(key)], with the strategy after the call ([RoundRobinSharding]
    advances its counter). [std_hash] is [std::hash<vector_key_t>], which
    the implementation of the standard library defines; a remainder by
    [num_shards_ = 0] is undefined. *)
Definition shard_id (std_hash : Z -> Z) (strategy : t) (k : Z) : option (t * nat) :=
  match strategy with
  | HashSharding n =>
      if decide (n = 0%nat) then None
      else Some (strategy, Z.to_nat (std_hash k mod Z.of_nat n))
  | RoundRobinSharding n counter =>
      if decide (n = 0%nat) then None
      else Some (RoundRobinSharding n (wrap64 (counter + 1)),
                 Z.to_nat (counter mod Z.of_nat n))
  | RangeSharding ranges_ =>
      (fun i => (strategy, i)) <$> RangeSharding.shard_id ranges_ k
  end.

(** [target_shards(query, n_probe)]. *)
Definition target_shards (strategy : t) (n_probe : nat) : list nat :=
  match strategy with
  | HashSharding n | RoundRobinSharding n _ => seq 0 (Nat.min n_probe n)
  | RangeSharding ranges_ => RangeSharding.target_shards ranges_ n_probe
  end.

End ShardingStrategy.

(** ** The algorithms of the standard library used by the merge *)

(** [x] may stand before [y] in a range sorted with [comp]:
    [comp(y, x)] is false. *)
Definition not_after {A : Type} (comp : A -> A -> bool) : relation A :=
  fun x y => comp y x = false.

#[export] Instance not_after_dec {A : Type} (comp : A -> A -> bool) (x y : A) :
  Decision (not_after comp x y) := decide (comp y x = false).

(** [std::is_sorted(first, last, comp)]. *)
Definition ascending {A : Type} (comp : A -> A -> bool) (l : list A) : Prop :=
  StronglySorted (not_after comp) l.

(** [std::sort(first, last, comp)] takes [l] to [l']: the standard fixes the
    result up to the order of equivalent elements. *)
Definition std_sort {A : Type} (comp : A -> A -> bool) (l l' : list A) : Prop :=
  l ≡ₚ l' /\ ascending comp l'.

(** [std::unique(first, last, pred)] followed by [erase] to the end: of
    every run of consecutive elements equivalent to the last one kept, the
    first stays. *)
Fixpoint unique_after {A : Type} (pred : A -> A -> bool) (kept : A) (l : list A) : list A :=
  match l with
  | [] => []
  | x :: rest =>
      if pred kept x then unique_after pred kept rest
      else x :: unique_after pred x rest
  end.

Definition std_unique {A : Type} (pred : A -> A -> bool) (l : list A) : list A :=
  match l with
  | [] => []
  | x :: rest => x :: unique_after pred x rest
  end.

(** [std::partial_sort(first, first + middle, last, comp)] takes [l] to
    [l']. The call is defined only if [[first, first + middle)] and
    [[first + middle, last)] are valid ranges, that is if [middle] is at most
    the length. Then the first [middle] places hold the [middle] least
    elements in ascending order; the order of the rest is unspecified. *)
Definition std_partial_sort {A : Type} (comp : A -> A -> bool) (middle : nat)
    (l l' : list A) : Prop :=
  (middle <= length l)%nat
  /\ l ≡ₚ l'
  /\ ascending comp (take middle l')
  /\ (forall x y, x ∈ take middle l' -> y ∈ drop middle l' -> comp y x = false).

(** ** DistributedIndex *)

Module DistributedIndex.

Record t (E : Type) : Type := mk {
  shards_ : list (ShardNode.t E);
  strategy_ : ShardingStrategy.t;
  dimensions_ : nat;
  total_queries_ : Z
}.
Arguments mk {E} _ _ _ _.
Arguments shards_ {E} _.
Arguments strategy_ {E} _.
Arguments dimensions_ {E} _.
Arguments total_queries_ {E} _.

(** The three comparison lambdas of [search]. *)
Definition by_key (a b : result_t) : bool := key a <? key b.
Definition same_key (a b : result_t) : bool := key a =? key b.
Definition by_distance (a b : result_t) : bool := (distance a <? distance b)%float.

(** [<] on distances is a strict weak ordering, as [std::partial_sort]
    requires of its comparison, only among numbers. *)
Definition no_nan (l : list result_t) : Prop :=
  Forall (fun r => is_nan (distance r) = false) l.

(** [all_results.resize(k)] under [if (all_results.size() > k)]. *)
Definition truncate (k : nat) (l : list result_t) : list result_t :=
  if decide (k < length l)%nat then take k l else l.

(** The merge of [search] on the gathered results (the same lines end
    [ProductionCluster::parallel_search]): sort by key, drop the duplicates
    of a key, partially sort by distance up to [begin() + k], truncate.
    [out] is a possible result on [all_results]. *)
Definition merge_top_k (all_results : list result_t) (k : nat)
    (out : list result_t) : Prop :=
  exists sorted partial,
    std_sort by_key all_results sorted
    /\ no_nan (std_unique same_key sorted)
    /\ std_partial_sort by_distance k (std_unique same_key sorted) partial
    /\ out = truncate k partial.


(** How many entries the deduplicated union of the results has: the number
    of different keys. *)
Definition distinct_keys (all_results : list result_t) : nat :=
  length (remove_dups (key <$> all_results)).

(** One run of the merge, both sorts done by a merge sort (one of the orders
    the standard allows); [None] where the partial sort is undefined. *)
Definition merge_top_k_run (all_results : list result_t) (k : nat)
    : option (list result_t) :=
  let sorted := merge_sort (not_after by_key) all_results in
  let deduped := std_unique same_key sorted in
  if decide (no_nan deduped /\ (k <= length deduped)%nat)
  then Some (truncate k (merge_sort (not_after by_distance) deduped))
  else None.

Section Methods.
Context {E : Type} `{VectorIndexEngine E}.

(** [DistributedIndex(strategy, num_shards, dimensions)], the engines of the
    shards given. *)
Definition new (strategy : ShardingStrategy.t) (engines : list E) (dimensions : nat) : t E :=
  {| shards_ := imap (fun i e => ShardNode.mk e i dimensions 0) engines;
     strategy_ := strategy; dimensions_ := dimensions; total_queries_ := 0 |}.

(** [add(key, vector)]. *)
Definition add (std_hash : Z -> Z) (k : Z) (vector : list float) (idx : t E)
    : option (t E * bool) :=
  '(strategy', shard_id) ← ShardingStrategy.shard_id std_hash (strategy_ idx) k;
  node ← shards_ idx !! shard_id;
  let '(node', ok) := ShardNode.add k vector node in
  Some ({| shards_ := <[shard_id := node']> (shards_ idx); strategy_ := strategy';
           dimensions_ := dimensions_ idx; total_queries_ := total_queries_ idx |}, ok).

(** The grouping loop of [add_batch]. An item is a key with its vector, the
    [dimensions_] floats at [vectors + i * dimensions_]. *)
Fixpoint group_by_shard (std_hash : Z -> Z) (strategy : ShardingStrategy.t)
    (items : list (Z * list float)) (groups : list (list (Z * list float)))
    : option (ShardingStrategy.t * list (list (Z * list float))) :=
  match items with
  | [] => Some (strategy, groups)
  | (k, vector) :: rest =>
      '(strategy', shard_id) ← ShardingStrategy.shard_id std_hash strategy k;
      group ← groups !! shard_id;
      group_by_shard std_hash strategy' rest (<[shard_id := group ++ [(k, vector)]]> groups)
  end.

(** The task started for one shard: nothing for an empty group, else the
    shard after [add_batch] and the value of the future. *)
Definition dispatch (node : ShardNode.t E) (group : list (Z * list float))
    : ShardNode.t E * option bool :=
  match group with
  | [] => (node, None)
  | _ :: _ =>
      let shard_keys := group.*1 in
      let shard_vectors := concat group.*2 in
      let '(node', ok) :=
        ShardNode.add_batch shard_keys shard_vectors (length shard_keys) node in
      (node', Some ok)
  end.

(** [add_batch] up to the loop of [future.get()]: the index after the tasks
    and the values the futures hold, in shard order. *)
Definition add_batch_tasks (std_hash : Z -> Z) (items : list (Z * list float))
    (idx : t E) : option (t E * list bool) :=
  '(strategy', groups) ←
    group_by_shard std_hash (strategy_ idx) items (replicate (length (shards_ idx)) []);
  let done := zip_with dispatch (shards_ idx) groups in
  Some ({| shards_ := done.*1; strategy_ := strategy';
           dimensions_ := dimensions_ idx; total_queries_ := total_queries_ idx |},
        omap snd done).

(** [add_batch(keys, vectors, count)]: every [future.get()] is called and
    its value dropped; [return true;]. *)
Definition add_batch (std_hash : Z -> Z) (items : list (Z * list float))
    (idx : t E) : option (t E * bool) :=
  '(idx', _) ← add_batch_tasks std_hash items idx;
  Some (idx', true).

(** [n_probe] as [search] adjusts it. *)
Definition clamp_probe (n_probe size : nat) : nat :=
  if decide (n_probe = 0 \/ size < n_probe)%nat then size else n_probe.

(** When the task that one iteration of the loop over [target_shards]
    launches reads the loop variable [shard_id]. The lambda of the task
    captures the variable by reference ([[&]]), the variable lives for that
    iteration only, and nothing makes the task read it before the iteration
    ends: the task reads it while the iteration lasts, or after it. *)
Inductive capture_read : Type :=
| InTime
| TooLate.

(** The tasks of the target shards; [reads i] is the read of the task of
    target number [i]. A task that reads [shard_id] in time calls [search]
    on that shard, which counts the query. A task that reads it too late
    reads a variable whose lifetime has ended, which is undefined (the code
    as compiled finds the id of a later target in its place, or what the
    stack holds after the loop). The results are in the order of the
    targets, as the futures are. *)
Fixpoint fan_out (reads : nat -> capture_read) (query : list float) (k : nat)
    (targets : list nat) (shards : list (ShardNode.t E))
    : option (list (ShardNode.t E) * list (list result_t)) :=
  match targets with
  | [] => Some (shards, [])
  | shard_id :: rest =>
      match reads 0%nat with
      | TooLate => None
      | InTime =>
          node ← shards !! shard_id;
          let '(node', results) := ShardNode.search query k node in
          '(shards', others) ←
            fan_out (fun i => reads (S i)) query k rest (<[shard_id := node']> shards);
          Some (shards', results :: others)
      end
  end.

(** The loop over the futures: the result of each task is appended to
    [all_results]. *)
Definition gather (results : list (list result_t)) : list result_t :=
  fold_left (fun all_results task_results => all_results ++ task_results) results [].

(** [search(query, k, n_probe)]: [idx'] and [out] are a possible outcome,
    for some reads of the tasks. *)
Definition search (query : list float) (k n_probe : nat) (idx : t E)
    (idx' : t E) (out : list result_t) : Prop :=
  exists reads shards' results,
    fan_out reads query k
      (ShardingStrategy.target_shards (strategy_ idx)
         (clamp_probe n_probe (length (shards_ idx))))
      (shards_ idx) = Some (shards', results)
    /\ idx' = {| shards_ := shards'; strategy_ := strategy_ idx;
                 dimensions_ := dimensions_ idx;
                 total_queries_ := wrap64 (total_queries_ idx + 1) |}
    /\ merge_top_k (gather results) k out.

(** One run of [search]: every task reads its shard in time, and the merge
    is done by [merge_top_k_run]. *)
Definition search_run (query : list float) (k n_probe : nat) (idx : t E)
    : option (t E * list result_t) :=
  '(shards', results) ←
    fan_out (fun _ => InTime) query k
      (ShardingStrategy.target_shards (strategy_ idx)
         (clamp_probe n_probe (length (shards_ idx))))
      (shards_ idx);
  out ← merge_top_k_run (gather results) k;
  Some ({| shards_ := shards'; strategy_ := strategy_ idx;
           dimensions_ := dimensions_ idx;
           total_queries_ := wrap64 (total_queries_ idx + 1) |}, out).

End Methods.

End DistributedIndex.

(** ** An engine for the examples *)

Module FlatEngine.

(** Modelled from the spec: the engine is outside the sources; this one
    follows the contract of section 6 of the spec in the plainest way. It
    keeps its vectors in insertion order, refuses an insertion that would
    exceed its capacity ("engine full", a batch refused as a whole), and
    answers a search with the [k] stored keys nearest to the query, in
    ascending distance (here the squared Euclidean distance). *)
Record t : Type := mk {
  capacity : nat;
  dimensions : nat;
  rows : list (Z * list float)
}.

Definition l2sq (a b : list float) : float :=
  fold_left (fun acc xy => (acc + (xy.1 - xy.2) * (xy.1 - xy.2))%float) (zip a b) 0%float.

(** The [count] vectors of [dim] floats each stored one after the other. *)
Fixpoint slices (dim count : nat) (vectors : list float) : list (list float) :=
  match count with
  | O => []
  | S c => take dim vectors :: slices dim c (drop dim vectors)
  end.

Definition add (k : Z) (vector : list float) (e : t) : t * bool :=
  if decide (length (rows e) < capacity e)%nat
  then ({| capacity := capacity e; dimensions := dimensions e;
           rows := rows e ++ [(k, vector)] |}, true)
  else (e, false).

Definition add_batch (keys : list Z) (vectors : list float) (count : nat) (e : t) : t * bool :=
  if decide (length (rows e) + count <= capacity e)%nat
  then ({| capacity := capacity e; dimensions := dimensions e;
           rows := rows e ++ zip (take count keys) (slices (dimensions e) count vectors) |},
        true)
  else (e, false).

Definition search (query : list float) (k : nat) (e : t) : list result_t :=
  take k (merge_sort (not_after DistributedIndex.by_distance)
            (map (fun row => mkResult row.1 (l2sq query row.2)) (rows e))).

Definition size (e : t) : nat := length (rows e).

End FlatEngine.

#[export] Instance flat_engine : VectorIndexEngine FlatEngine.t := {|
  engine_add := FlatEngine.add;
  engine_add_batch := FlatEngine.add_batch;
  engine_search := FlatEngine.search;
  engine_size := FlatEngine.size
|}.

(** ** FailureDetector *)

Module FailureDetector.

(** [struct NodeStatus]. [last_heartbeat] is a [steady_clock::time_point],
    a count of clock ticks. *)
Record NodeStatus : Type := mkNodeStatus {
  address : string;
  last_heartbeat : Z;
  is_alive : bool;
  failure_count : Z
}.

(** The detector: the node table, the time-out in milliseconds, and whether
    a callback is installed ([on_failure_] is an empty [std::function]
    until [set_failure_callback]). A call of the callback is recorded by
    the address it is given. *)
Record t : Type := mk {
  nodes_ : gmap string NodeStatus;
  heartbeat_timeout_ : Z;
  on_failure_ : bool
}.

Definition new (timeout : Z) : t :=
  {| nodes_ := ∅; heartbeat_timeout_ := timeout; on_failure_ := false |}.

(** [add_node(address)], the clock reading [now]. *)
Definition add_node (addr : string) (now : Z) (d : t) : t :=
  {| nodes_ := <[addr := {| address := addr; last_heartbeat := now;
                            is_alive := true; failure_count := 0 |}]> (nodes_ d);
     heartbeat_timeout_ := heartbeat_timeout_ d;
     on_failure_ := on_failure_ d |}.

(** [heartbeat(address)]. *)
Definition heartbeat (addr : string) (now : Z) (d : t) : t :=
  match nodes_ d !! addr with
  | Some status =>
      {| nodes_ := <[addr := {| address := address status; last_heartbeat := now;
                                is_alive := true; failure_count := 0 |}]> (nodes_ d);
         heartbeat_timeout_ := heartbeat_timeout_ d;
         on_failure_ := on_failure_ d |}
  | None => d
  end.

Definition set_failure_callback (d : t) : t :=
  {| nodes_ := nodes_ d; heartbeat_timeout_ := heartbeat_timeout_ d;
     on_failure_ := true |}.

(** [duration_cast<milliseconds>] of a [steady_clock] duration: the clock
    counts nanoseconds, the cast truncates towards zero. *)
Definition duration_cast_ms (ticks : Z) : Z := Z.quot ticks 1000000.

(** The body of the loop of [detect_loop] for one node: the new status and
    whether [on_failure_(address)] is called. *)
Definition detect_node (d : t) (now : Z) (status : NodeStatus) : NodeStatus * bool :=
  let elapsed := duration_cast_ms (now - last_heartbeat status) in
  if heartbeat_timeout_ d <? elapsed then
    if is_alive status then
      let count := wrap64 (failure_count status + 1) in
      ({| address := address status; last_heartbeat := last_heartbeat status;
          is_alive := false; failure_count := count |},
       (3 <=? count) && on_failure_ d)
    else (status, false)
  else (status, false).

(** One pass of [detect_loop] over the table. [clock a] is what
    [steady_clock::now()] returns in the iteration for node [a]. The second
    component lists the addresses the callback is called with (the source
    visits the nodes in key order; the list follows the table's own
    enumeration, every node being visited once in either). *)
Definition detect_tick (clock : string -> Z) (d : t) : t * list string :=
  ({| nodes_ := map_imap (fun a status => Some (detect_node d (clock a) status).1)
                         (nodes_ d);
      heartbeat_timeout_ := heartbeat_timeout_ d;
      on_failure_ := on_failure_ d |},
   omap (fun '(a, status) =>
           if (detect_node d (clock a) status).2 then Some a else None)
        (map_to_list (nodes_ d))).

(** What happens to a detector: calls of its public methods and passes of
    the background loop. *)
Inductive event : Type :=
| EvAddNode (addr : string) (now : Z)
| EvHeartbeat (addr : string) (now : Z)
| EvSetCallback
| EvTick (clock : string -> Z).

(** A detector with the log of the callback's calls, oldest first. *)
Definition step (s : t * list string) (e : event) : t * list string :=
  match e with
  | EvAddNode addr now => (add_node addr now s.1, s.2)
  | EvHeartbeat addr now => (heartbeat addr now s.1, s.2)
  | EvSetCallback => (set_failure_callback s.1, s.2)
  | EvTick clock =>
      let '(d', fired) := detect_tick clock s.1 in (d', s.2 ++ fired)
  end.

Definition run (events : list event) (d : t) : t * list string :=
  fold_left step events (d, []).

(** How often the callback was called for [addr]. *)
Definition fired_for (addr : string) (log : list string) : nat :=
  length (filter (fun a => a = addr) log).

(** A node is either alive with no failure counted, or not alive with
    exactly one. *)
Definition episode_inv (status : NodeStatus) : Prop :=
  (is_alive status = true /\ failure_count status = 0) \/
  (is_alive status = false /\ failure_count status = 1).

Definition table_inv (d : t) : Prop :=
  forall a status, nodes_ d !! a = Some status -> episode_inv status.

End FailureDetector.

(** ** CheckpointManager *)

Module CheckpointManager.

(** [struct Checkpoint]. [timestamp] is a [system_clock::time_point]. *)
Record Checkpoint : Type := mkCheckpoint {
  id : Z;
  path : string;
  timestamp : Z;
  num_vectors : Z
}.

(** The manager, and with it the persistence medium it writes to: [disk] is
    the set of paths at which a file exists. The shard behind [shard_] is
    external; each call is told whether its [save] succeeds and what its
    [size()] is. *)
Record t : Type := mk {
  checkpoint_dir_ : string;
  max_checkpoints_ : nat;
  checkpoints_ : list Checkpoint;
  disk : gset string
}.

(** What a call yields: a value, or a C++ exception. *)
Inductive outcome (A : Type) : Type :=
| Returned (a : A)
| Thrown (what : string).
Arguments Returned {A} a.
Arguments Thrown {A} what.

Definition new (dir : string) (max_checkpoints : nat) (disk0 : gset string) : t :=
  {| checkpoint_dir_ := dir; max_checkpoints_ := max_checkpoints;
     checkpoints_ := []; disk := disk0 |}.

(** [checkpoints_.empty() ? 1 : checkpoints_.back().id + 1]. *)
Definition next_id (cps : list Checkpoint) : Z :=
  match last cps with
  | None => 1
  | Some back => wrap64 (id back + 1)
  end.

(** [checkpoint_dir_ + "/checkpoint_" + std::to_string(id) + ".usearch"]. *)
Definition checkpoint_path (dir : string) (i : Z) : string :=
  dir +:+ "/checkpoint_" +:+ pretty i +:+ ".usearch".

(** [cleanup_old()]: while the list is longer than the limit, remove the
    file of the front record and erase the record. *)
Fixpoint cleanup_old (max_checkpoints : nat) (cps : list Checkpoint)
    (files : gset string) : list Checkpoint * gset string :=
  match cps with
  | [] => ([], files)
  | oldest :: rest =>
      if decide (max_checkpoints < length cps)%nat
      then cleanup_old max_checkpoints rest (files ∖ {[path oldest]})
      else (cps, files)
  end.

(** [create_checkpoint()]. [save_ok] is the result of [shard_->save(path)]
    (a successful save leaves a file at [path]), [now] the reading of the
    system clock and [size] the result of [shard_->size()]. *)
Definition create_checkpoint (save_ok : bool) (now size : Z) (m : t)
    : t * outcome Checkpoint :=
  let i := next_id (checkpoints_ m) in
  let p := checkpoint_path (checkpoint_dir_ m) i in
  if save_ok then
    let cp := {| id := i; path := p; timestamp := now; num_vectors := size |} in
    let '(cps, files) :=
      cleanup_old (max_checkpoints_ m) (checkpoints_ m ++ [cp]) (disk m ∪ {[p]}) in
    ({| checkpoint_dir_ := checkpoint_dir_ m; max_checkpoints_ := max_checkpoints_ m;
        checkpoints_ := cps; disk := files |},
     Returned cp)
  else (m, Thrown "Failed to create checkpoint").

(** [restore_latest()]; [load_ok p] is the result of [shard_->load(p)]. *)
Definition restore_latest (load_ok : string -> bool) (m : t) : bool :=
  match last (checkpoints_ m) with
  | None => false
  | Some latest => load_ok (path latest)
  end.

(** A sequence of calls of [create_checkpoint] whose saves all succeed, one
    call per pair of a clock reading and a shard size; the result is the
    final manager and the checkpoints returned, oldest first. *)
Fixpoint create_all (inputs : list (Z * Z)) (m : t) : t * list Checkpoint :=
  match inputs with
  | [] => (m, [])
  | (now, size) :: rest =>
      match create_checkpoint true now size m with
      | (m', Returned cp) =>
          let '(m'', cps) := create_all rest m' in (m'', cp :: cps)
      | (m', Thrown _) => create_all rest m'
      end
  end.

(** What holds of a manager [m] after the calls that returned [created]. *)
Record history_inv (m : t) (created : list Checkpoint) : Prop := {
  hi_retained :
    checkpoints_ m = drop (length created - max_checkpoints_ m) created;
  hi_path : forall cp, cp ∈ created ->
    path cp = checkpoint_path (checkpoint_dir_ m) (id cp);
  hi_present : forall cp, cp ∈ checkpoints_ m -> path cp ∈ disk m;
  hi_evicted : forall cp,
    cp ∈ take (length created - max_checkpoints_ m) created -> path cp ∉ disk m;
  hi_numbered : (1 <= max_checkpoints_ m)%nat ->
    forall i cp, created !! i = Some cp -> id cp = Z.of_nat i + 1
}.

End CheckpointManager.

(** ** The fused multiply-add *)

Module FusedMultiplyAdd.

(** [x * y + z] with one rounding, to nearest, ties to even (IEEE 754
    fusedMultiplyAdd, [std::fma]): the exact product is added to [z] and the
    sum is rounded; the special values follow the rules of the product and
    of the sum. *)
Definition SFfma (x y z : spec_float) : spec_float :=
  match x, y with
  | S754_nan, _ | _, S754_nan => S754_nan
  | S754_infinity _, S754_zero _ | S754_zero _, S754_infinity _ => S754_nan
  | S754_infinity sx, S754_infinity sy
  | S754_infinity sx, S754_finite sy _ _
  | S754_finite sx _ _, S754_infinity sy =>
      match z with
      | S754_nan => S754_nan
      | S754_infinity sz => if Bool.eqb (xorb sx sy) sz then z else S754_nan
      | _ => S754_infinity (xorb sx sy)
      end
  | S754_zero sx, S754_zero sy
  | S754_zero sx, S754_finite sy _ _
  | S754_finite sx _ _, S754_zero sy =>
      match z with
      | S754_zero sz => if Bool.eqb (xorb sx sy) sz then z else S754_zero false
      | _ => z
      end
  | S754_finite sx mx ex, S754_finite sy my ey =>
      match z with
      | S754_nan => S754_nan
      | S754_infinity _ => z
      | S754_zero _ =>
          binary_normalize prec emax
            (cond_Zopp (xorb sx sy) (Zpos (mx * my))) (ex + ey) false
      | S754_finite sz mz ez =>
          let e := Z.min (ex + ey) ez in
          binary_normalize prec emax
            (cond_Zopp (xorb sx sy) (Zpos (fst (shl_align (mx * my) (ex + ey) e)))
             + cond_Zopp sz (Zpos (fst (shl_align mz ez e))))
            e false
      end
  end.

Definition fma (x y z : float) : float :=
  SF2Prim (SFfma (Prim2SF x) (Prim2SF y) (Prim2SF z)).

End FusedMultiplyAdd.

(** ** AdaptiveLoadBalancer *)

Module AdaptiveLoadBalancer.

(** [struct ShardStats]; the atomics are read and written in single steps. *)
Record ShardStats : Type := mkShardStats {
  shard_id : nat;
  active_requests : Z;
  total_requests : Z;
  avg_latency_ms : float;
  error_count : Z
}.

(** [AdaptiveLoadBalancer(num_shards)]: one zeroed record per shard. *)
Definition new (num_shards : nat) : list ShardStats :=
  map (fun i => {| shard_id := i; active_requests := 0; total_requests := 0;
                   avg_latency_ms := 0%float; error_count := 0 |})
      (seq 0 num_shards).

(** The conversion of a [std::uint64_t] to [double] (round to nearest, ties
    to even), as in [active + latency / 10.0]. *)
Definition double_of_uint64 (n : Z) : float :=
  SF2Prim (binary_normalize prec emax n 0 false).

(** [std::numeric_limits<double>::max()]. *)
Definition DBL_MAX : float := 0x1.fffffffffffffp+1023%float.

(** [double score = active + latency / 10.0]. *)
Definition score (shard : ShardStats) : float :=
  (double_of_uint64 (active_requests shard) + avg_latency_ms shard / 10)%float.

(** The body of the loop of [select_shard] on the pair
    [(best_shard, best_score)]. *)
Definition select_step (best : nat * float) (shard : ShardStats) : nat * float :=
  if (score shard <? best.2)%float then (shard_id shard, score shard) else best.

Definition select_shard (shards_ : list ShardStats) : nat :=
  (fold_left select_step shards_ (0%nat, DBL_MAX)).1.

(** [record_request_start(shard_id)]; [shards_[shard_id]] past the end of the
    vector is undefined. *)
Definition record_request_start (i : nat) (shards_ : list ShardStats)
    : option (list ShardStats) :=
  match shards_ !! i with
  | None => None
  | Some s =>
      Some (<[i := {| shard_id := shard_id s;
                      active_requests := wrap64 (active_requests s + 1);
                      total_requests := wrap64 (total_requests s + 1);
                      avg_latency_ms := avg_latency_ms s;
                      error_count := error_count s |}]> shards_)
  end.

(** How the code compiled for one call evaluates
    [old_avg * 0.9 + latency_ms * 0.1]: each operation rounded to a double,
    or one of the two products fused into the addition, unrounded. *)
Inductive evaluation : Type :=
| EachRounded
| FusedOldAvg
| FusedLatency.

(** [old_avg * 0.9 + latency_ms * 0.1]. The literals are the doubles nearest
    to 0.9 and 0.1. *)
Definition moving_average (e : evaluation) (old_avg latency_ms : float) : float :=
  match e with
  | EachRounded =>
      (old_avg * 0x1.ccccccccccccdp-1 + latency_ms * 0x1.999999999999ap-4)%float
  | FusedOldAvg =>
      FusedMultiplyAdd.fma old_avg 0x1.ccccccccccccdp-1
        (latency_ms * 0x1.999999999999ap-4)%float
  | FusedLatency =>
      FusedMultiplyAdd.fma latency_ms 0x1.999999999999ap-4
        (old_avg * 0x1.ccccccccccccdp-1)%float
  end.

(** [record_request_end(shard_id, latency_ms, success)], evaluated as [e]
    says. *)
Definition record_request_end (e : evaluation) (i : nat) (latency_ms : float)
    (success : bool) (shards_ : list ShardStats) : option (list ShardStats) :=
  match shards_ !! i with
  | None => None
  | Some s =>
      let old_avg := avg_latency_ms s in
      let new_avg := moving_average e old_avg latency_ms in
      Some (<[i := {| shard_id := shard_id s;
                      active_requests := wrap64 (active_requests s - 1);
                      total_requests := total_requests s;
                      avg_latency_ms := new_avg;
                      error_count := if success then error_count s
                                     else wrap64 (error_count s + 1) |}]> shards_)
  end.

(** Calls of the two recording methods, a call of [record_request_end] with
    the evaluation of the code compiled for it, and their effect in
    sequence. *)
Inductive call : Type :=
| RequestStart (i : nat)
| RequestEnd (i : nat) (latency_ms : float) (success : bool) (e : evaluation).

Definition apply_call (c : call) (shards_ : list ShardStats) : option (list ShardStats) :=
  match c with
  | RequestStart i => record_request_start i shards_
  | RequestEnd i latency_ms success e =>
      record_request_end e i latency_ms success shards_
  end.

Fixpoint run (calls : list call) (shards_ : list ShardStats) : option (list ShardStats) :=
  match calls with
  | [] => Some shards_
  | c :: rest =>
      match apply_call c shards_ with
      | Some shards' => run rest shards'
      | None => None
      end
  end.

(** Shard [k] has an ordinary score (below the initial [best_score]) that is
    strictly below the score of every other shard. *)
Definition strictly_least (shards_ : list ShardStats) (k : nat) : Prop :=
  exists s, shards_ !! k = Some s
    /\ (score s <? DBL_MAX)%float = true
    /\ forall j y, shards_ !! j = Some y -> j <> k -> (score s <? score y)%float = true.

(** The class invariant: the record at index [i] is the one of shard [i]. *)
Definition well_indexed (shards_ : list ShardStats) : Prop :=
  forall i s, shards_ !! i = Some s -> shard_id s = i.

End AdaptiveLoadBalancer.

(** ** Routing: strategies that fit an index, sequences of calls *)

Module Routing.

(** The number of shards a strategy was built for: [num_shards_], or
    [ranges_.size()]. *)
Definition shard_count (strategy : ShardingStrategy.t) : nat :=
  match strategy with
  | ShardingStrategy.HashSharding n => n
  | ShardingStrategy.RoundRobinSharding n _ => n
  | ShardingStrategy.RangeSharding ranges_ => length ranges_
  end.

(** The strategy is as its constructor leaves it: the ranges of a
    [RangeSharding] are those built for some number of shards and keys. *)
Definition constructed (strategy : ShardingStrategy.t) : Prop :=
  match strategy with
  | ShardingStrategy.RangeSharding ranges_ =>
      exists (N : nat) (M : Z),
        (1 <= N)%nat /\ Z.of_nat N < 2 ^ 64 /\ 0 <= M < 2 ^ 64
        /\ RangeSharding.new N M = Some ranges_
  | _ => True
  end.

(** The shards that successive calls of [shard_id] name, one call per key,
    with the strategy after the last call. *)
Fixpoint shard_ids (std_hash : Z -> Z) (strategy : ShardingStrategy.t)
    (keys : list Z) : option (ShardingStrategy.t * list nat) :=
  match keys with
  | [] => Some (strategy, [])
  | k :: rest =>
      '(strategy', i) ← ShardingStrategy.shard_id std_hash strategy k;
      '(strategy'', others) ← shard_ids std_hash strategy' rest;
      Some (strategy'', i :: others)
  end.

(** An index whose strategy was built for as many shards as it has, as in
    every construction in the examples. *)
Definition fits {E : Type} (idx : DistributedIndex.t E) : Prop :=
  constructed (DistributedIndex.strategy_ idx)
  /\ shard_count (DistributedIndex.strategy_ idx) = length (DistributedIndex.shards_ idx)
  /\ (1 <= length (DistributedIndex.shards_ idx))%nat.

(** The keys of a batch are [vector_key_t] values. *)
Definition u64_keys (items : list (Z * list float)) : Prop :=
  Forall (fun item => 0 <= item.1 < 2 ^ 64) items.

End Routing.

(** ** Saving and loading the shards *)

(** The two file operations of the engine, [index_.save(path)] and
    [index_.load(path)], each with its [error == success_k]. The files are
    a state of type [store]: a save may change it, a load reads it and
    replaces the engine, and what a failed load leaves in the engine is the
    engine's matter. *)
Class EngineFiles (E store : Type) := {
  engine_save : string -> E -> store -> store * bool;
  engine_load : string -> store -> E -> E * bool
}.

Module Persistence.

Section Methods.
Context {E store : Type} `{EngineFiles E store}.

(** [ShardNode::save(path)]. *)
Definition save (path : string) (node : ShardNode.t E) (files : store) : store * bool :=
  engine_save path (ShardNode.index_ node) files.

(** [ShardNode::load(path)]. *)
Definition load (path : string) (files : store) (node : ShardNode.t E)
    : ShardNode.t E * bool :=
  let '(index, ok) := engine_load path files (ShardNode.index_ node) in
  (ShardNode.with_index node index, ok).

(** [base_path + "_shard_" + std::to_string(shard->shard_id()) + ".usearch"]. *)
Definition shard_path (base_path : string) (node : ShardNode.t E) : string :=
  base_path +:+ "_shard_" +:+ pretty (ShardNode.shard_id_ node) +:+ ".usearch".

(** The loop of [save_all]: [return false] at the first shard whose save
    fails, [return true] after the last. *)
Fixpoint save_shards (base_path : string) (shards : list (ShardNode.t E))
    (files : store) : store * bool :=
  match shards with
  | [] => (files, true)
  | node :: rest =>
      let '(files', ok) := save (shard_path base_path node) node files in
      if ok then save_shards base_path rest files' else (files', false)
  end.

(** [save_all(base_path)]. *)
Definition save_all (base_path : string) (idx : DistributedIndex.t E)
    (files : store) : store * bool :=
  save_shards base_path (DistributedIndex.shards_ idx) files.

(** The loop of [load_all]. *)
Fixpoint load_shards (base_path : string) (files : store)
    (shards : list (ShardNode.t E)) : list (ShardNode.t E) * bool :=
  match shards with
  | [] => ([], true)
  | node :: rest =>
      let '(node', ok) := load (shard_path base_path node) files node in
      if ok
      then let '(rest', ok') := load_shards base_path files rest in (node' :: rest', ok')
      else (node' :: rest, false)
  end.

(** [load_all(base_path)]. *)
Definition load_all (base_path : string) (files : store) (idx : DistributedIndex.t E)
    : DistributedIndex.t E * bool :=
  let '(shards', ok) := load_shards base_path files (DistributedIndex.shards_ idx) in
  ({| DistributedIndex.shards_ := shards';
      DistributedIndex.strategy_ := DistributedIndex.strategy_ idx;
      DistributedIndex.dimensions_ := DistributedIndex.dimensions_ idx;
      DistributedIndex.total_queries_ := DistributedIndex.total_queries_ idx |}, ok).

(** What a user expects of the files of an engine: a load after a
    successful save to the same path succeeds and yields the engine saved,
    and a save leaves what a load finds at any other path. *)
Definition save_then_load : Prop :=
  forall path e files files',
    engine_save path e files = (files', true) ->
    forall e0, engine_load path files' e0 = (e, true).

Definition save_elsewhere : Prop :=
  forall path other e files files' ok,
    engine_save path e files = (files', ok) -> other <> path ->
    forall e0, engine_load other files' e0 = engine_load other files e0.

(** Shard [i] carries the id [i], as the constructor numbers the shards. *)
Definition numbered (shards : list (ShardNode.t E)) : Prop :=
  forall i node, shards !! i = Some node -> ShardNode.shard_id_ node = i.

End Methods.

(** The indexes that the constructor and the methods of [DistributedIndex]
    produce. *)
Inductive reachable {E store : Type} `{VectorIndexEngine E} `{EngineFiles E store}
    (std_hash : Z -> Z) : DistributedIndex.t E -> Prop :=
| reach_new strategy engines dimensions :
    reachable std_hash (DistributedIndex.new strategy engines dimensions)
| reach_add idx k vector idx' ok :
    reachable std_hash idx ->
    DistributedIndex.add std_hash k vector idx = Some (idx', ok) ->
    reachable std_hash idx'
| reach_add_batch idx items idx' ok :
    reachable std_hash idx ->
    DistributedIndex.add_batch std_hash items idx = Some (idx', ok) ->
    reachable std_hash idx'
| reach_search idx query k n_probe idx' out :
    reachable std_hash idx ->
    DistributedIndex.search query k n_probe idx idx' out ->
    reachable std_hash idx'
| reach_load_all idx base_path files idx' ok :
    reachable std_hash idx ->
    load_all base_path files idx = (idx', ok) ->
    reachable std_hash idx'.

End Persistence.

(** ** Files for the examples *)

Module FlatFiles.

(** Modelled from the spec: the files of the engine are outside the sources.
    Here a file holds the engine saved to it, a save fails when no space is
    left ("I/O failure") and a load fails when the file is missing. *)
Record t : Type := mk {
  files : gmap string FlatEngine.t;
  space : nat
}.

Definition save (path : string) (e : FlatEngine.t) (st : t) : t * bool :=
  match space st with
  | O => (st, false)
  | S rest => ({| files := <[path := e]> (files st); space := rest |}, true)
  end.

Definition load (path : string) (st : t) (e0 : FlatEngine.t) : FlatEngine.t * bool :=
  match files st !! path with
  | Some e => (e, true)
  | None => (e0, false)
  end.

End FlatFiles.

#[export] Instance flat_files : EngineFiles FlatEngine.t FlatFiles.t := {|
  engine_save := FlatFiles.save;
  engine_load := FlatFiles.load
|}.

(** ** The background loop of the checkpoint manager *)

Module CheckpointLoop.

(** One pass of [while (running_)]: after the sleep [running_] is found
    false ([Stopped]), or [create_checkpoint] is called, with the result of
    the shard's [save], the reading of the clock and the shard's size. *)
Inductive round : Type :=
| Stopped
| Due (save_ok : bool) (now size : Z).

(** [checkpoint_loop()] over what its passes find; the loop ends when the
    test of [while (running_)] fails (the list is at its end) or after a
    pass that found [running_] false, the flag being false still at the
    test that follows. The result is the manager at the end and the lines
    that the [catch] wrote to [std::cerr]. *)
Fixpoint checkpoint_loop (rounds : list round) (m : CheckpointManager.t)
    : CheckpointManager.t * list string :=
  match rounds with
  | [] => (m, [])
  | Stopped :: _ => (m, [])
  | Due save_ok now size :: rest =>
      match CheckpointManager.create_checkpoint save_ok now size m with
      | (m', CheckpointManager.Returned _) => checkpoint_loop rest m'
      | (m', CheckpointManager.Thrown what) =>
          let '(m'', cerr) := checkpoint_loop rest m' in
          (m'', ("[Checkpoint] Error: " +:+ what) :: cerr)
      end
  end.

(** The clock readings and sizes of the passes the loop makes whose save
    succeeds. *)
Fixpoint saved (rounds : list round) : list (Z * Z) :=
  match rounds with
  | [] => []
  | Stopped :: _ => []
  | Due true now size :: rest => (now, size) :: saved rest
  | Due false _ _ :: rest => saved rest
  end.

(** The passes the loop makes whose save fails. *)
Fixpoint failed (rounds : list round) : list (Z * Z) :=
  match rounds with
  | [] => []
  | Stopped :: _ => []
  | Due true _ _ :: rest => failed rest
  | Due false now size :: rest => (now, size) :: failed rest
  end.

End CheckpointLoop.

(** ** The history of a failure detector *)

Module Membership.

(** The addresses that the calls of [add_node] among the events name. *)
Definition added (events : list FailureDetector.event) : gset string :=
  list_to_set (omap (fun e => match e with
                              | FailureDetector.EvAddNode addr _ => Some addr
                              | _ => None
                              end) events).

(** No pass with one of the clocks sees the node [addr], last heard of at
    [last], past the time-out: the test [elapsed > heartbeat_timeout_] of
    [detect_loop] fails in each. *)
Definition within_timeout (timeout last : Z) (addr : string)
    (clocks : list (string -> Z)) : bool :=
  forallb (fun clock : string -> Z =>
             negb (timeout <? FailureDetector.duration_cast_ms (clock addr - last)))
          clocks.

End Membership.

(** ** The counters of the load balancer over a history of calls *)

Module Accounting.

(** How many of the calls satisfy [p]. *)
Fixpoint count (p : AdaptiveLoadBalancer.call -> bool)
    (calls : list AdaptiveLoadBalancer.call) : Z :=
  match calls with
  | [] => 0
  | c :: rest => (if p c then 1 else 0) + count p rest
  end.

(** The calls of [record_request_start], of [record_request_end] and of
    [record_request_end] with [success = false] for the shard [i]. *)
Definition started (i : nat) (c : AdaptiveLoadBalancer.call) : bool :=
  match c with
  | AdaptiveLoadBalancer.RequestStart j => bool_decide (j = i)
  | AdaptiveLoadBalancer.RequestEnd _ _ _ _ => false
  end.

Definition ended (i : nat) (c : AdaptiveLoadBalancer.call) : bool :=
  match c with
  | AdaptiveLoadBalancer.RequestStart _ => false
  | AdaptiveLoadBalancer.RequestEnd j _ _ _ => bool_decide (j = i)
  end.

Definition errored (i : nat) (c : AdaptiveLoadBalancer.call) : bool :=
  match c with
  | AdaptiveLoadBalancer.RequestStart _ => false
  | AdaptiveLoadBalancer.RequestEnd j _ success _ => bool_decide (j = i) && negb success
  end.

(** The shard a call names. *)
Definition shard_of (c : AdaptiveLoadBalancer.call) : nat :=
  match c with
  | AdaptiveLoadBalancer.RequestStart i => i
  | AdaptiveLoadBalancer.RequestEnd i _ _ _ => i
  end.

(** The counters of a record are [uint64] values. *)
Definition in_range (s : AdaptiveLoadBalancer.ShardStats) : Prop :=
  0 <= AdaptiveLoadBalancer.active_requests s < 2 ^ 64
  /\ 0 <= AdaptiveLoadBalancer.total_requests s < 2 ^ 64
  /\ 0 <= AdaptiveLoadBalancer.error_count s < 2 ^ 64.

End Accounting.

(** ** Tracer: starting spans *)

Module Tracer.

(** [struct Span]. [start_span] leaves [duration] as the default
    initialisation of [Span span;] leaves it, without a value ([None]);
    [start] is a reading of the system clock. *)
Record Span : Type := mkSpan {
  name : string;
  duration : option Z;
  start : Z;
  parent_id : string;
  tags : gmap string string
}.

Record t : Type := mk {
  spans_ : list Span;
  id_counter_ : Z
}.

Definition new : t := {| spans_ := []; id_counter_ := 0 |}.

(** [start_span(name, parent_id)], the clock reading [now]: the tracer after
    the call and the id returned. *)
Definition start_span (name_ parent : string) (now : Z) (tr : t) : t * string :=
  let span_id := "span_" +:+ pretty (id_counter_ tr) in
  ({| spans_ := spans_ tr ++ [{| name := name_; duration := None; start := now;
                                 parent_id := parent; tags := ∅ |}];
      id_counter_ := wrap64 (id_counter_ tr + 1) |},
   span_id).

(** Calls of [start_span] one after the other, each given as name, parent
    and clock reading; the ids returned, in call order. *)
Fixpoint start_spans (calls : list (string * string * Z)) (tr : t) : t * list string :=
  match calls with
  | [] => (tr, [])
  | (name_, parent, now) :: rest =>
      let '(tr', span_id) := start_span name_ parent now tr in
      let '(tr'', ids) := start_spans rest tr' in
      (tr'', span_id :: ids)
  end.

End Tracer.

(* ===================================================================== *)
(** * Part II: the proofs                                                 *)
(* ===================================================================== *)

(** ** RangeSharding: the intervals partition the key space *)

Section RangeShardingFacts.
Import RangeSharding.

Variable N : nat.
Variable M : Z.
Hypothesis N_pos : (1 <= N)%nat.
Hypothesis N_u64 : Z.of_nat N < 2 ^ 64.
Hypothesis M_u64 : 0 <= M < 2 ^ 64.

Let kps : Z := M / Z.of_nat N.

Lemma kps_bounds : 0 <= kps /\ Z.of_nat N * kps <= M.
Proof.
  unfold kps. split.
  - apply Z.div_pos; lia.
  - apply Z.mul_div_le. lia.
Qed.

Lemma no_wrap (i : nat) : (i <= N)%nat -> wrap64 (Z.of_nat i * kps) = Z.of_nat i * kps.
Proof.
  intros Hi. unfold wrap64. apply Z.mod_small.
  pose proof kps_bounds. nia.
Qed.

Lemma min_key_make (i : nat) :
  (i < N)%nat -> min_key (make_range N M i) = Z.of_nat i * kps.
Proof. intros Hi. cbn. apply no_wrap. lia. Qed.

Lemma max_key_make (i : nat) :
  (i < N)%nat ->
  max_key (make_range N M i) =
    if decide (i = (N - 1)%nat) then M else (Z.of_nat i + 1) * kps.
Proof.
  intros Hi. cbn. destruct (Nat.eqb_spec i (N - 1)) as [->|Hne].
  - by rewrite decide_True.
  - rewrite decide_False by done.
    replace (Z.of_nat i + 1) with (Z.of_nat (S i)) by lia.
    apply no_wrap. lia.
Qed.

Lemma lookup_ranges (i : nat) (r : Range) :
  map (make_range N M) (seq 0 N) !! i = Some r <->
  (i < N)%nat /\ r = make_range N M i.
Proof.
  change (map (make_range N M) (seq 0 N)) with (make_range N M <$> seq 0 N).
  rewrite list_lookup_fmap. split.
  - intros H. destruct (seq 0 N !! i) as [j|] eqn:Hj; [|done].
    apply lookup_seq in Hj as [-> ?]. cbn in H. by simplify_eq.
  - intros [Hi ->]. by rewrite lookup_seq_lt.
Qed.

(** Membership of a key in the [i]-th interval, in closed form. *)
Lemma in_range_make (key : Z) (i : nat) :
  (i < N)%nat ->
  in_range key (make_range N M i) = true <->
  Z.of_nat i * kps <= key /\
  key < (if decide (i = (N - 1)%nat) then M else (Z.of_nat i + 1) * kps).
Proof.
  intros Hi. unfold in_range.
  rewrite andb_true_iff, Z.leb_le, Z.ltb_lt, min_key_make, max_key_make by done.
  reflexivity.
Qed.

(** No two intervals overlap. *)
Lemma in_range_unique (key : Z) (i j : nat) :
  (i < N)%nat -> (j < N)%nat ->
  in_range key (make_range N M i) = true ->
  in_range key (make_range N M j) = true ->
  i = j.
Proof.
  intros Hi Hj. rewrite !in_range_make by done.
  pose proof kps_bounds as [Hk _].
  intros [Ha Hb] [Hc Hd].
  destruct (decide (i = j)) as [|Hne]; [done|exfalso].
  destruct (decide (i < j)%nat).
  - rewrite decide_False in Hb by lia. nia.
  - rewrite decide_False in Hd by lia. nia.
Qed.

(** Every key below [M] lies in some interval. *)
Lemma in_range_cover (key : Z) :
  0 <= key < M -> exists i, (i < N)%nat /\ in_range key (make_range N M i) = true.
Proof.
  intros Hkey. pose proof kps_bounds as [Hk HNk].
  destruct (decide (Z.of_nat (N - 1) * kps <= key)) as [Hlast|Hlow].
  - exists (N - 1)%nat. split; [lia|].
    apply in_range_make; [lia|]. rewrite decide_True by done. lia.
  - assert (0 < kps) as Hkpos by nia.
    exists (Z.to_nat (key / kps)).
    assert (0 <= key / kps) by (apply Z.div_pos; lia).
    assert (key / kps < Z.of_nat (N - 1)).
    { apply Z.div_lt_upper_bound; lia. }
    split; [lia|]. apply in_range_make; [lia|].
    rewrite decide_False by lia. rewrite Z2Nat.id by done.
    pose proof (Z.mul_div_le key kps Hkpos).
    pose proof (Z.mul_succ_div_gt key kps Hkpos). lia.
Qed.

(** What the scan of [shard_id] finds. *)
Lemma scan_found (key : Z) (rs : list Range) (s : nat) :
  scan key rs = Some s ->
  exists i r, rs !! i = Some r /\ in_range key r = true /\ range_shard_id r = s.
Proof.
  induction rs as [|r rs IH]; cbn; [done|].
  destruct (in_range key r) eqn:Hin.
  - intros [= <-]. by exists 0%nat, r.
  - intros H. destruct (IH H) as (i & r' & ? & ? & ?). by exists (S i), r'.
Qed.

Lemma scan_none (key : Z) (rs : list Range) :
  scan key rs = None <-> forall i r, rs !! i = Some r -> in_range key r = false.
Proof.
  induction rs as [|r rs IH]; cbn.
  - split; [intros _ i r' H; by destruct i|done].
  - destruct (in_range key r) eqn:Hin.
    + split; [done|]. intros H. specialize (H 0%nat r eq_refl). congruence.
    + rewrite IH. split.
      * intros H [|i] r' Hl; cbn in Hl; [by simplify_eq|by eapply H].
      * intros H i r' Hl. by apply (H (S i)).
Qed.

Lemma last_ranges :
  last (map (make_range N M) (seq 0 N)) = Some (make_range N M (N - 1)).
Proof.
  rewrite last_lookup, length_map, length_seq.
  apply lookup_ranges. split; [lia|]. f_equal. lia.
Qed.

(** The facts of the partition, for the instance the constructor builds. *)
Lemma range_partition_main :
  exists ranges_,
    new N M = Some ranges_
    /\ length ranges_ = N
    /\ (forall i r, ranges_ !! i = Some r ->
          range_shard_id r = i /\ min_key r <= max_key r)
    /\ min_key <$> head ranges_ = Some 0
    /\ (forall i r r', ranges_ !! i = Some r -> ranges_ !! S i = Some r' ->
          max_key r = min_key r')
    /\ max_key <$> last ranges_ = Some M
    /\ (forall key, 0 <= key < M ->
          exists i, shard_id ranges_ key = Some i /\ (i < N)%nat /\
            forall j r, ranges_ !! j = Some r ->
              (in_range key r = true <-> j = i))
    /\ (forall key, M <= key -> shard_id ranges_ key = Some (N - 1)%nat).
Proof.
  exists (map (make_range N M) (seq 0 N)).
  pose proof kps_bounds as [Hk HNk].
  split. { unfold new. destruct N; [lia|done]. }
  split. { by rewrite length_map, length_seq. }
  split.
  { intros i r [Hi ->]%lookup_ranges. split; [done|].
    rewrite min_key_make, max_key_make by done. case_decide; nia. }
  split.
  { rewrite head_lookup.
    assert (map (make_range N M) (seq 0 N) !! 0%nat = Some (make_range N M 0)) as ->
      by (apply lookup_ranges; split; [lia|done]).
    cbn [fmap option_fmap option_map]. rewrite min_key_make by lia. done. }
  split.
  { intros i r r' [Hi ->]%lookup_ranges [Hi' ->]%lookup_ranges.
    rewrite min_key_make, max_key_make by done.
    rewrite decide_False by lia. lia. }
  split.
  { rewrite last_ranges. cbn [fmap option_fmap option_map].
    rewrite max_key_make by lia. by rewrite decide_True. }
  split.
  - intros key Hkey.
    destruct (in_range_cover key Hkey) as (i0 & Hi0 & Hin0).
    unfold shard_id.
    destruct (scan key (map (make_range N M) (seq 0 N))) as [s|] eqn:Hscan.
    + apply scan_found in Hscan as (i & r & [Hi ->]%lookup_ranges & Hin & Hs).
      cbn in Hs. subst s. exists i. split; [done|]. split; [done|].
      intros j r [Hj ->]%lookup_ranges. split.
      * intros Hinj. by apply (in_range_unique key).
      * by intros ->.
    + exfalso. rewrite scan_none in Hscan.
      specialize (Hscan i0 (make_range N M i0)).
      rewrite Hscan in Hin0; [done|]. by apply lookup_ranges.
  - intros key Hkey. unfold shard_id.
    destruct (scan key (map (make_range N M) (seq 0 N))) as [s|] eqn:Hscan.
    + exfalso.
      apply scan_found in Hscan as (i & r & [Hi ->]%lookup_ranges & Hin & _).
      apply in_range_make in Hin as [Ha Hb]; [|done].
      case_decide; nia.
    + by rewrite last_ranges.
Qed.

End RangeShardingFacts.

(** The four ranges built over 5000 keys, as in the second example of the
    course, and where some keys go. *)
Example range_sharding_example :
  exists ranges_,
    RangeSharding.new 4 5000 = Some ranges_
    /\ RangeSharding.shard_id ranges_ <$> [0; 1249; 1250; 3749; 3750; 4999; 5000; 1000000]
       = Some <$> [0; 0; 1; 2; 3; 3; 3; 3]%nat.
Proof. eexists. split; by vm_compute. Qed.

(** C5. For every RangeSharding instance built with [N >= 1] shards over [M]
    keys (both 64-bit values), construction succeeds and the ranges partition
    the key space: there is one range per shard, shard [i] at index [i]; the
    first starts at [0], each ends where the next starts, the last ends at
    [M]; [shard_id] maps every key of [[0, M)] to a shard whose range holds
    it and no other range does; and every key [>= M] is mapped to the last
    shard, [N - 1]. *)
Theorem range_sharding_partition (N : nat) (M : Z) :
  (1 <= N)%nat -> Z.of_nat N < 2 ^ 64 -> 0 <= M < 2 ^ 64 ->
  exists ranges_,
    RangeSharding.new N M = Some ranges_ /\ RangeSharding.partitions N M ranges_.
Proof.
  intros HN HN64 HM.
  destruct (range_partition_main N M HN HN64 HM)
    as (rs & Hnew & H1 & H2 & H3 & H4 & H5 & H6 & H7).
  exists rs. split; [done|]. by constructor.
Qed.

(** Four shards over 5000 keys. *)
Lemma range_sharding_partition_witness :
  exists ranges_,
    RangeSharding.new 4 5000 = Some ranges_ /\
    RangeSharding.partitions 4 5000 ranges_.
Proof.
  apply (range_sharding_partition 4 5000); [lia | reflexivity | split; [lia | reflexivity]].
Defined.

(** ** FailureDetector: one failure episode counts one failure *)

Section FailureDetectorFacts.
Import FailureDetector.

Lemma detect_node_inv (d : t) (now : Z) (status : NodeStatus) :
  episode_inv status ->
  episode_inv (detect_node d now status).1 /\ (detect_node d now status).2 = false.
Proof.
  intros Hinv. unfold detect_node.
  destruct (heartbeat_timeout_ d <? _); [|done].
  destruct Hinv as [[Ha Hc]|[Ha Hc]]; rewrite Ha; [|split; [by right|done]].
  rewrite Hc. split; [by right|done].
Qed.

(** The count moves only when the node goes from alive to not alive. *)
Lemma detect_node_count (d : t) (now : Z) (status : NodeStatus) :
  failure_count (detect_node d now status).1 <> failure_count status ->
  is_alive status = true /\ is_alive (detect_node d now status).1 = false /\
  failure_count (detect_node d now status).1 = wrap64 (failure_count status + 1).
Proof.
  unfold detect_node.
  destruct (heartbeat_timeout_ d <? _); [|done].
  destruct (is_alive status); [done|done].
Qed.

Lemma add_node_lookup (addr a : string) (now : Z) (d : t) (status : NodeStatus) :
  nodes_ (add_node addr now d) !! a = Some status ->
  (a = addr /\ is_alive status = true /\ failure_count status = 0) \/
  (a <> addr /\ nodes_ d !! a = Some status).
Proof.
  cbn. destruct (decide (addr = a)) as [->|Hne].
  - rewrite lookup_insert_eq. intros [= <-]. by left.
  - rewrite lookup_insert_ne by done. right. by split.
Qed.

Lemma heartbeat_lookup (addr a : string) (now : Z) (d : t) (status : NodeStatus) :
  nodes_ (heartbeat addr now d) !! a = Some status ->
  (a = addr /\ is_Some (nodes_ d !! addr) /\
     is_alive status = true /\ failure_count status = 0) \/
  ((a <> addr \/ nodes_ d !! addr = None) /\ nodes_ d !! a = Some status).
Proof.
  unfold heartbeat. destruct (nodes_ d !! addr) as [old|] eqn:Hold; cbn.
  - destruct (decide (addr = a)) as [->|Hne].
    + rewrite lookup_insert_eq. intros [= <-]. left. by eauto.
    + rewrite lookup_insert_ne by done. right. split; [left; congruence|done].
  - intros H. right. split; [by right|done].
Qed.

Lemma detect_tick_lookup (clock : string -> Z) (d : t) (a : string) :
  nodes_ (detect_tick clock d).1 !! a =
  (fun status => (detect_node d (clock a) status).1) <$> nodes_ d !! a.
Proof.
  cbn. rewrite map_lookup_imap. by destruct (nodes_ d !! a).
Qed.

Lemma detect_tick_quiet (clock : string -> Z) (d : t) :
  table_inv d -> (detect_tick clock d).2 = [].
Proof.
  intros Hinv. cbn.
  assert (forall l : list (string * NodeStatus),
    (forall a status, (a, status) ∈ l -> nodes_ d !! a = Some status) ->
    omap (fun '(a, status) =>
            if (detect_node d (clock a) status).2 then Some a else None) l = [])
    as Hall.
  { induction l as [|[a status] l IH]; intros Hl; [done|].
    cbn. destruct (detect_node_inv d (clock a) status) as [_ ->].
    - apply (Hinv a). apply Hl. by left.
    - apply IH. intros a' s' Hin. apply Hl. by right. }
  apply Hall. intros a status Hin. by apply elem_of_map_to_list.
Qed.

Lemma step_inv (s : t * list string) (e : event) :
  table_inv s.1 /\ s.2 = [] -> table_inv (step s e).1 /\ (step s e).2 = [].
Proof.
  destruct s as [d log]. cbn [fst snd]. intros [Hinv ->].
  destruct e as [addr now|addr now| |clock]; cbn [step fst snd].
  - split; [|done]. intros a status [(_ & ? & ?)|[_ Hl]]%add_node_lookup.
    + by left.
    + by apply (Hinv a).
  - split; [|done]. intros a status [(_ & _ & ? & ?)|[_ Hl]]%heartbeat_lookup.
    + by left.
    + by apply (Hinv a).
  - done.
  - pose proof (detect_tick_quiet clock d Hinv) as Hq.
    pose proof (detect_tick_lookup clock d) as Hl.
    destruct (detect_tick clock d) as [d' fired]. cbn [fst snd] in *.
    subst fired. split; [|done].
    intros a status. rewrite Hl.
    destruct (nodes_ d !! a) as [old|] eqn:Hold; [|done].
    cbn. intros [= <-]. apply detect_node_inv. by apply (Hinv a).
Qed.

Lemma run_inv (events : list event) (s : t * list string) :
  table_inv s.1 /\ s.2 = [] ->
  table_inv (fold_left step events s).1 /\ (fold_left step events s).2 = [].
Proof.
  revert s. induction events as [|e events IH]; intros s Hs; [done|].
  cbn. apply IH. by apply step_inv.
Qed.

Lemma new_inv (timeout : Z) : table_inv (new timeout).
Proof. intros a status. cbn. by rewrite lookup_empty. Qed.

Lemma reachable_inv (timeout : Z) (events : list event) :
  table_inv (run events (new timeout)).1 /\ (run events (new timeout)).2 = [].
Proof. apply run_inv. split; [apply new_inv|done]. Qed.

End FailureDetectorFacts.

(** C10. In every state the detector reaches from construction by calls of
    [add_node], [heartbeat], [set_failure_callback] and passes of the
    detection loop, every registered node that is alive has
    [failure_count = 0], and no node has a [failure_count] above [1]; the
    detection pass changes a node's count only when it takes the node from
    alive to not alive (adding one), and [heartbeat] and [add_node] leave the
    node alive with a count of [0]. *)
Theorem failure_count_at_most_one (timeout : Z) (events : list FailureDetector.event) :
  (forall a status,
     FailureDetector.nodes_
       (FailureDetector.run events (FailureDetector.new timeout)).1 !! a = Some status ->
     (FailureDetector.is_alive status = true -> FailureDetector.failure_count status = 0) /\
     0 <= FailureDetector.failure_count status <= 1)
  /\ (forall d now old,
        FailureDetector.failure_count (FailureDetector.detect_node d now old).1
          <> FailureDetector.failure_count old ->
        FailureDetector.is_alive old = true /\
        FailureDetector.is_alive (FailureDetector.detect_node d now old).1 = false /\
        FailureDetector.failure_count (FailureDetector.detect_node d now old).1
          = wrap64 (FailureDetector.failure_count old + 1))
  /\ (forall d addr now status,
        FailureDetector.nodes_ (FailureDetector.heartbeat addr now d) !! addr = Some status ->
        FailureDetector.is_alive status = true /\ FailureDetector.failure_count status = 0)
  /\ (forall d addr now status,
        FailureDetector.nodes_ (FailureDetector.add_node addr now d) !! addr = Some status ->
        FailureDetector.is_alive status = true /\ FailureDetector.failure_count status = 0).
Proof.
  split; [|split; [|split]].
  - intros a status Hl.
    destruct (reachable_inv timeout events) as [Hinv _].
    destruct (Hinv a status Hl) as [[Ha Hc]|[Ha Hc]]; rewrite Ha, Hc; split; (done || lia).
  - intros d now old. apply detect_node_count.
  - intros d addr now status Hl.
    apply heartbeat_lookup in Hl as [(_ & _ & ? & ?)|[[Hne|Hnone] Hl]]; [done|done|].
    unfold FailureDetector.heartbeat in Hl. congruence.
  - intros d addr now status Hl.
    apply add_node_lookup in Hl as [(_ & ? & ?)|[Hne _]]; done.
Qed.

(** A node registered at time [0] and seen once past a one-second time-out. *)
Lemma failure_count_at_most_one_witness :
  let events := [FailureDetector.EvAddNode "node2:5000" 0;
                 FailureDetector.EvTick (fun _ => 2000000000)] in
  let status := {| FailureDetector.address := "node2:5000";
                   FailureDetector.last_heartbeat := 0;
                   FailureDetector.is_alive := false;
                   FailureDetector.failure_count := 1 |} in
  FailureDetector.nodes_
    (FailureDetector.run events (FailureDetector.new 1000)).1 !! "node2:5000" = Some status
  /\ 0 <= FailureDetector.failure_count status <= 1.
Proof.
  intros events status.
  assert (FailureDetector.nodes_
            (FailureDetector.run events (FailureDetector.new 1000)).1 !! "node2:5000"
          = Some status) as Hl by (vm_compute; reflexivity).
  split; [exact Hl|].
  exact (proj2 (proj1 (failure_count_at_most_one 1000 events) "node2:5000" status Hl)).
Defined.

(** C1 (the code departs from the claim). The claim wants the
    confirmed-failure callback called once for a node seen past the time-out
    on three consecutive passes. In the code the callback is never called,
    whatever the history: the count is raised only while the node is alive,
    the same pass marks it not alive, and only a heartbeat, which resets the
    count, makes it alive again; so the test [failure_count >= 3] never
    holds. The second part runs the scenario of the claim: a node registered
    at time [0], a callback installed, a time-out of 1000 ms and passes at
    2 s, 3 s and 4 s with no heartbeat leave the node not alive with
    [failure_count = 1] and an empty call log. *)
Theorem confirmed_failure_callback_never_fires :
  (forall timeout events addr,
     FailureDetector.fired_for addr
       (FailureDetector.run events (FailureDetector.new timeout)).2 = 0%nat)
  /\ (let events := [FailureDetector.EvAddNode "node2:5000" 0;
                     FailureDetector.EvSetCallback;
                     FailureDetector.EvTick (fun _ => 2000000000);
                     FailureDetector.EvTick (fun _ => 3000000000);
                     FailureDetector.EvTick (fun _ => 4000000000)] in
      let final := FailureDetector.run events (FailureDetector.new 1000) in
      FailureDetector.nodes_ final.1 !! "node2:5000" =
        Some {| FailureDetector.address := "node2:5000";
                FailureDetector.last_heartbeat := 0;
                FailureDetector.is_alive := false;
                FailureDetector.failure_count := 1 |}
      /\ FailureDetector.on_failure_ final.1 = true
      /\ final.2 = []).
Proof.
  split.
  - intros timeout events addr.
    destruct (reachable_inv timeout events) as [_ ->]. reflexivity.
  - vm_compute. done.
Qed.

(** ** CheckpointManager: numbering, retention and eviction *)

Section CheckpointManagerFacts.
Import CheckpointManager.

Lemma string_length_app (s1 s2 : string) :
  String.length (s1 +:+ s2) = (String.length s1 + String.length s2)%nat.
Proof. induction s1 as [|c s1 IH]; simpl; [done|by f_equal]. Qed.

Lemma string_app_inj_r (t s1 s2 : string) : s1 +:+ t = s2 +:+ t -> s1 = s2.
Proof.
  revert s2. induction s1 as [|c s1 IH]; intros [|c2 s2] H; cbn in H.
  - done.
  - apply (f_equal String.length) in H. simpl in H. rewrite !string_length_app in H. simpl in H. lia.
  - apply (f_equal String.length) in H. simpl in H. rewrite !string_length_app in H. simpl in H. lia.
  - injection H as -> H. f_equal. by apply IH.
Qed.

Lemma checkpoint_path_inj (dir : string) (i j : Z) :
  checkpoint_path dir i = checkpoint_path dir j -> i = j.
Proof.
  unfold checkpoint_path. intros H.
  apply String.app_inj in H. apply String.app_inj in H.
  apply string_app_inj_r in H. by apply pretty_Z_inj in H.
Qed.

(** The loop of [cleanup_old] in closed form: it drops the surplus from the
    front and removes the files of what it drops. *)
Lemma cleanup_old_spec (max_checkpoints : nat) (cps : list Checkpoint) (files : gset string) :
  cleanup_old max_checkpoints cps files =
  (drop (length cps - max_checkpoints) cps,
   files ∖ list_to_set (path <$> take (length cps - max_checkpoints) cps)).
Proof.
  revert files. induction cps as [|oldest rest IH]; intros files.
  - cbn. rewrite drop_nil, take_nil. cbn. by rewrite difference_empty_L.
  - cbn [cleanup_old]. case_decide as Hlen.
    + rewrite IH. cbn [length] in *.
      replace (S (length rest) - max_checkpoints)%nat
        with (S (length rest - max_checkpoints)) by lia.
      cbn. by rewrite difference_difference_l_L.
    + cbn [length] in *.
      replace (S (length rest) - max_checkpoints)%nat with 0%nat by lia.
      cbn. by rewrite difference_empty_L.
Qed.

Lemma create_checkpoint_ok (now size : Z) (m : t) :
  create_checkpoint true now size m =
  let cp := {| id := next_id (checkpoints_ m);
               path := checkpoint_path (checkpoint_dir_ m) (next_id (checkpoints_ m));
               timestamp := now; num_vectors := size |} in
  let all := checkpoints_ m ++ [cp] in
  let surplus := (length all - max_checkpoints_ m)%nat in
  ({| checkpoint_dir_ := checkpoint_dir_ m; max_checkpoints_ := max_checkpoints_ m;
      checkpoints_ := drop surplus all;
      disk := (disk m ∪ {[path cp]}) ∖ list_to_set (path <$> take surplus all) |},
   Returned cp).
Proof. unfold create_checkpoint. by rewrite cleanup_old_spec. Qed.

Lemma new_history_inv (dir : string) (max_checkpoints : nat) (disk0 : gset string) :
  history_inv (new dir max_checkpoints disk0) [].
Proof.
  constructor; cbn.
  - done.
  - intros cp Hin. by apply elem_of_nil in Hin.
  - intros cp Hin. by apply elem_of_nil in Hin.
  - intros cp Hin. by apply elem_of_nil in Hin.
  - intros _ i cp Hl. by destruct i.
Qed.

(** The id the next call takes, from the history. *)
Lemma next_id_history (m : t) (created : list Checkpoint) :
  history_inv m created ->
  Z.of_nat (length created) + 1 < 2 ^ 64 ->
  next_id (checkpoints_ m) =
    if decide (1 <= max_checkpoints_ m)%nat then Z.of_nat (length created) + 1 else 1.
Proof.
  intros Hinv Hlen. unfold next_id. rewrite (hi_retained _ _ Hinv).
  case_decide as Hmax.
  - destruct created as [|c0 created0] eqn:Hc using rev_ind; [done|].
    clear IHcreated0. rewrite length_app in *. cbn [length] in *.
    rewrite drop_app_le by lia. rewrite last_snoc.
    rewrite (hi_numbered _ _ Hinv Hmax (length created0) c0).
    + unfold wrap64. rewrite Z.mod_small; lia.
    + by rewrite lookup_app_r, Nat.sub_diag.
  - rewrite drop_ge by lia. done.
Qed.

Lemma window_snoc (created : list Checkpoint) (cp : Checkpoint) (mx : nat) :
  let a := (length created - mx)%nat in
  let surplus := (length (drop a created ++ [cp]) - mx)%nat in
  drop a created ++ [cp] = drop a (created ++ [cp]) /\
  (a + surplus = length (created ++ [cp]) - mx)%nat.
Proof.
  intros a surplus. subst a surplus.
  rewrite !length_app, length_drop. cbn [length].
  split; [|lia]. rewrite drop_app_le by lia. done.
Qed.

(** One successful call, from a state with the invariant. *)
Lemma create_checkpoint_step (now size : Z) (m : t) (created : list Checkpoint) :
  history_inv m created ->
  Z.of_nat (length created) + 1 < 2 ^ 64 ->
  exists m' cp,
    create_checkpoint true now size m = (m', Returned cp)
    /\ checkpoint_dir_ m' = checkpoint_dir_ m
    /\ max_checkpoints_ m' = max_checkpoints_ m
    /\ id cp = next_id (checkpoints_ m)
    /\ timestamp cp = now /\ num_vectors cp = size
    /\ history_inv m' (created ++ [cp]).
Proof.
  intros Hinv Hlen. rewrite create_checkpoint_ok. cbv zeta.
  set (cp := {| id := next_id (checkpoints_ m); path := _; timestamp := now;
                num_vectors := size |}).
  eexists _, cp. split; [reflexivity|]. do 5 (split; [done|]).
  pose proof (next_id_history m created Hinv Hlen) as Hid.
  destruct (window_snoc created cp (max_checkpoints_ m)) as [Hwin Hsum].
  rewrite <- (hi_retained _ _ Hinv) in Hwin, Hsum.
  set (a := (length created - max_checkpoints_ m)%nat) in *.
  set (surplus := (length (checkpoints_ m ++ [cp]) - max_checkpoints_ m)%nat) in *.
  assert (a <= length created)%nat as Ha by lia.
  (* the new record is numbered like the others *)
  assert ((1 <= max_checkpoints_ m)%nat ->
          forall i c, (created ++ [cp]) !! i = Some c -> id c = Z.of_nat i + 1) as Hnum.
  { intros Hmax i c [Hl|[Hi Hl]]%lookup_app_Some.
    - by apply (hi_numbered _ _ Hinv).
    - destruct (i - length created)%nat eqn:Hd; [|done].
      cbn in Hl. injection Hl as <-. cbn. rewrite Hid, decide_True by done. lia. }
  assert (forall c, c ∈ created ++ [cp] ->
          path c = checkpoint_path (checkpoint_dir_ m) (id c)) as Hpath.
  { intros c [Hin|Hin]%elem_of_app; [by apply (hi_path _ _ Hinv)|].
    apply list_elem_of_singleton in Hin as ->. done. }
  (* two records at different positions have different paths *)
  assert ((1 <= max_checkpoints_ m)%nat ->
          forall i j c1 c2, (created ++ [cp]) !! i = Some c1 ->
            (created ++ [cp]) !! j = Some c2 -> path c1 = path c2 -> i = j) as Hdistinct.
  { intros Hmax i j c1 c2 H1 H2 Hp.
    rewrite (Hpath c1), (Hpath c2) in Hp by (by eapply list_elem_of_lookup_2).
    apply checkpoint_path_inj in Hp.
    rewrite (Hnum Hmax i c1 H1), (Hnum Hmax j c2 H2) in Hp. lia. }
  constructor; cbn [checkpoint_dir_ max_checkpoints_ checkpoints_ disk].
  - rewrite Hwin, drop_drop. by rewrite Hsum.
  - done.
  - (* what stays is on disk *)
    intros c Hin. rewrite Hwin, drop_drop, Hsum in Hin.
    apply list_elem_of_lookup in Hin as [i Hi]. rewrite lookup_drop in Hi.
    destruct (decide (1 <= max_checkpoints_ m)%nat) as [Hmax|Hmax].
    2:{ apply lookup_lt_Some in Hi. lia. }
    apply elem_of_difference. split.
    + assert (c ∈ checkpoints_ m ++ [cp]) as Hc.
      { rewrite Hwin. apply list_elem_of_lookup. exists (surplus + i)%nat.
        rewrite lookup_drop. rewrite <- Hi. f_equal. lia. }
      apply elem_of_app in Hc as [Hc|Hc].
      * apply elem_of_union_l. by apply (hi_present _ _ Hinv).
      * apply list_elem_of_singleton in Hc as ->. apply elem_of_union_r.
        by apply elem_of_singleton.
    + rewrite elem_of_list_to_set, list_elem_of_fmap.
      intros (e & Hp & He). rewrite Hwin in He.
      apply elem_of_take in He as (j & Hj & Hlt). rewrite lookup_drop in Hj.
      pose proof (Hdistinct Hmax _ _ _ _ Hi Hj Hp). lia.
  - (* what was dropped, now or earlier, is not on disk *)
    intros e He. rewrite <- Hsum in He.
    apply elem_of_take in He as (i & Hi & Hlt).
    rewrite elem_of_difference, elem_of_list_to_set, list_elem_of_fmap.
    intros [Hon Hoff]. apply Hoff. clear Hoff.
    destruct (decide (a <= i)%nat) as [Hai|Hai].
    { exists e. split; [done|]. rewrite Hwin. apply elem_of_take.
      exists (i - a)%nat. rewrite lookup_drop. split; [|lia].
      rewrite <- Hi. f_equal. lia. }
    assert (created !! i = Some e) as Hie.
    { rewrite lookup_app_l in Hi by lia. done. }
    apply elem_of_union in Hon as [Hon|Hon].
    { exfalso. apply (hi_evicted _ _ Hinv e); [|done].
      apply elem_of_take. exists i. split; [done|lia]. }
    apply elem_of_singleton in Hon.
    exists cp. split; [done|].
    destruct (decide (1 <= max_checkpoints_ m)%nat) as [Hmax|Hmax].
    + exfalso.
      assert ((created ++ [cp]) !! length created = Some cp) as Hcp
        by (by rewrite lookup_app_r, Nat.sub_diag).
      pose proof (Hdistinct Hmax _ _ _ _ Hi Hcp Hon). lia.
    + rewrite Hwin. apply elem_of_take. exists (length created - a)%nat.
      rewrite lookup_drop. split.
      * replace (a + (length created - a))%nat with (length created) by lia.
        by rewrite lookup_app_r, Nat.sub_diag.
      * rewrite length_app in Hsum. cbn [length] in Hsum. lia.
  - done.
Qed.

(** Any number of successful calls, from a state with the invariant. *)
Lemma create_all_history (inputs : list (Z * Z)) (m : t) (created : list Checkpoint) :
  history_inv m created ->
  Z.of_nat (length created + length inputs) < 2 ^ 64 ->
  exists m' fresh,
    create_all inputs m = (m', fresh)
    /\ length fresh = length inputs
    /\ checkpoint_dir_ m' = checkpoint_dir_ m
    /\ max_checkpoints_ m' = max_checkpoints_ m
    /\ history_inv m' (created ++ fresh).
Proof.
  revert m created. induction inputs as [|[now size] inputs IH]; intros m created Hinv Hlen.
  - exists m, []. cbn. rewrite app_nil_r. done.
  - cbn [length] in Hlen.
    destruct (create_checkpoint_step now size m created Hinv ltac:(lia))
      as (m1 & cp & Hcall & Hdir & Hmax & _ & _ & _ & Hinv1).
    destruct (IH m1 (created ++ [cp]) Hinv1) as (m2 & fresh & Hall & Hlen2 & Hdir2 & Hmax2 & Hinv2).
    { rewrite length_app. cbn [length]. lia. }
    exists m2, (cp :: fresh). cbn [create_all]. rewrite Hcall, Hall.
    split; [done|]. split; [cbn; lia|]. split; [congruence|]. split; [congruence|].
    by rewrite <- app_assoc in Hinv2.
Qed.

(** Every call takes its id from the list it finds. *)
Lemma create_all_lookup (inputs : list (Z * Z)) (m : t) (i : nat) (cp : Checkpoint) :
  (create_all inputs m).2 !! i = Some cp ->
  id cp = next_id (checkpoints_ (create_all (take i inputs) m).1).
Proof.
  revert m i. induction inputs as [|[now size] inputs IH]; intros m i; [by destruct i|].
  cbn [create_all]. rewrite create_checkpoint_ok. cbv zeta.
  set (m1 := mk _ _ _ _).
  destruct i as [|i].
  - destruct (create_all inputs m1) as [m2 cps]. cbn. by intros [= <-].
  - cbn [take create_all]. rewrite create_checkpoint_ok. cbv zeta. fold m1.
    specialize (IH m1 i).
    destruct (create_all inputs m1) as [m2 cps].
    destruct (create_all (take i inputs) m1) as [m3 cps3]. cbn in *. exact IH.
Qed.

(** With nothing retained the list stays empty and every id is [1]. *)
Lemma create_all_nothing_retained (inputs : list (Z * Z)) (m : t) :
  max_checkpoints_ m = 0%nat -> checkpoints_ m = [] ->
  checkpoints_ (create_all inputs m).1 = []
  /\ forall cp, cp ∈ (create_all inputs m).2 -> id cp = 1.
Proof.
  revert m. induction inputs as [|[now size] inputs IH]; intros m Hmax Hempty.
  - cbn. split; [done|]. intros cp Hin. by apply elem_of_nil in Hin.
  - cbn [create_all]. rewrite create_checkpoint_ok. cbv zeta.
    rewrite Hmax, Hempty. cbn [app length Nat.sub drop take].
    set (m1 := mk _ _ _ _).
    destruct (IH m1 eq_refl eq_refl) as [Hlist Hids].
    destruct (create_all inputs m1) as [m2 cps]. cbn in *.
    split; [done|]. intros cp [->|Hin]%elem_of_cons; [done|by apply Hids].
Qed.

(** The retained records carry strictly increasing ids. *)
Lemma history_sorted (m : t) (created : list Checkpoint) :
  history_inv m created ->
  forall i j a b, checkpoints_ m !! i = Some a -> checkpoints_ m !! j = Some b ->
    (i < j)%nat -> id a < id b.
Proof.
  intros Hinv i j a b. rewrite (hi_retained _ _ Hinv), !lookup_drop. intros Ha Hb Hij.
  destruct (decide (1 <= max_checkpoints_ m)%nat) as [Hmax|Hmax].
  - rewrite (hi_numbered _ _ Hinv Hmax _ _ Ha), (hi_numbered _ _ Hinv Hmax _ _ Hb). lia.
  - apply lookup_lt_Some in Ha. lia.
Qed.

End CheckpointManagerFacts.

(** C8 (amended). A fresh manager, fewer than [2^64] calls of
    [create_checkpoint], every save successful. The retained list is the
    newest [max_checkpoints] of the checkpoints created (the older ones are
    dropped from the front), it never holds more than [max_checkpoints]
    records, its ids increase strictly, the file of every retained record is
    on disk and the file of every dropped record is not. If
    [max_checkpoints >= 1], the call number [i] returns id [i]: the ids are
    1, 2, 3, ... In particular with [max_checkpoints = 2], three calls leave
    the records 2 and 3 and remove the file of checkpoint 1. Every call
    returns the id of the last record retained before it, plus one, or [1]
    when no record is retained; and with [max_checkpoints = 0] the list is
    empty after the calls and every call returns id [1]. *)
Theorem checkpoint_retention (dir : string) (max_checkpoints : nat)
    (disk0 : gset string) (inputs : list (Z * Z)) :
  Z.of_nat (length inputs) < 2 ^ 64 ->
  let m := (CheckpointManager.create_all inputs
              (CheckpointManager.new dir max_checkpoints disk0)).1 in
  let created := (CheckpointManager.create_all inputs
              (CheckpointManager.new dir max_checkpoints disk0)).2 in
  length created = length inputs
  /\ ((1 <= max_checkpoints)%nat ->
      forall i cp, created !! i = Some cp -> CheckpointManager.id cp = Z.of_nat i + 1)
  /\ (forall cp, cp ∈ created ->
      CheckpointManager.path cp =
        CheckpointManager.checkpoint_path dir (CheckpointManager.id cp))
  /\ CheckpointManager.checkpoints_ m = drop (length created - max_checkpoints) created
  /\ (length (CheckpointManager.checkpoints_ m) <= max_checkpoints)%nat
  /\ (forall i j a b,
        CheckpointManager.checkpoints_ m !! i = Some a ->
        CheckpointManager.checkpoints_ m !! j = Some b ->
        (i < j)%nat -> CheckpointManager.id a < CheckpointManager.id b)
  /\ (forall cp, cp ∈ CheckpointManager.checkpoints_ m ->
        CheckpointManager.path cp ∈ CheckpointManager.disk m)
  /\ (forall cp, cp ∈ take (length created - max_checkpoints) created ->
        CheckpointManager.path cp ∉ CheckpointManager.disk m)
  /\ (max_checkpoints = 2%nat -> length inputs = 3%nat ->
        (CheckpointManager.id <$> CheckpointManager.checkpoints_ m) = [2; 3]
        /\ (CheckpointManager.checkpoint_path dir 1 ∉ CheckpointManager.disk m)
        /\ CheckpointManager.checkpoint_path dir 2 ∈ CheckpointManager.disk m
        /\ CheckpointManager.checkpoint_path dir 3 ∈ CheckpointManager.disk m)
  /\ (forall i cp, created !! i = Some cp ->
        CheckpointManager.id cp =
        match last (CheckpointManager.checkpoints_
                      (CheckpointManager.create_all (take i inputs)
                         (CheckpointManager.new dir max_checkpoints disk0)).1) with
        | Some back => CheckpointManager.id back + 1
        | None => 1
        end)
  /\ (max_checkpoints = 0%nat ->
        CheckpointManager.checkpoints_ m = []
        /\ forall cp, cp ∈ created -> CheckpointManager.id cp = 1).
Proof.
  intros Hlen m created.
  destruct (create_all_history inputs (CheckpointManager.new dir max_checkpoints disk0) []
              (new_history_inv dir max_checkpoints disk0) Hlen)
    as (m' & fresh & Hall & Hlen' & Hdir & Hmax & Hinv).
  subst m created. rewrite Hall. cbn [fst snd]. cbn in Hdir, Hmax, Hinv.
  destruct Hinv as [Hret Hpath Hpres Hev Hnum]. rewrite Hdir in Hpath. rewrite Hmax in *.
  split; [done|]. split; [done|]. split; [done|]. split; [done|].
  split. { rewrite Hret, length_drop. lia. }
  split. { eapply history_sorted. constructor; rewrite ?Hmax, ?Hdir; eauto. }
  split; [done|]. split; [done|].
  split; [|split].
  - intros -> Hthree. rewrite Hthree in Hlen'.
    destruct fresh as [|c1 [|c2 [|c3 [|? ?]]]]; try done.
    assert (CheckpointManager.id c1 = 1) as H1 by apply (Hnum ltac:(lia) 0%nat c1 eq_refl).
    assert (CheckpointManager.id c2 = 2) as H2 by apply (Hnum ltac:(lia) 1%nat c2 eq_refl).
    assert (CheckpointManager.id c3 = 3) as H3 by apply (Hnum ltac:(lia) 2%nat c3 eq_refl).
    pose proof (Hpath c1 ltac:(left)) as P1.
    pose proof (Hpath c2 ltac:(right; left)) as P2.
    pose proof (Hpath c3 ltac:(do 2 right; left)) as P3.
    rewrite H1 in P1. rewrite H2 in P2. rewrite H3 in P3.
    cbn in Hret, Hev. rewrite Hret in *. cbn. rewrite H2, H3, <- P1, <- P2, <- P3.
    split; [done|].
    split. { apply Hev. by left. }
    split; apply Hpres; [by left|right; by left].
  - intros i cp Hcp.
    assert (i < length inputs)%nat as Hi by (rewrite <- Hlen'; by eapply lookup_lt_Some).
    pose proof (create_all_lookup inputs (CheckpointManager.new dir max_checkpoints disk0) i cp)
      as Hid.
    rewrite Hall in Hid. specialize (Hid Hcp). rewrite Hid.
    destruct (create_all_history (take i inputs)
                (CheckpointManager.new dir max_checkpoints disk0) []
                (new_history_inv dir max_checkpoints disk0))
      as (mi & before & Hbefore & Hleni & _ & Hmaxi & Hinvi).
    { rewrite length_take. cbn. lia. }
    rewrite Hbefore. cbn [fst]. cbn in Hmaxi, Hinvi.
    rewrite length_take in Hleni.
    unfold CheckpointManager.next_id.
    destruct (last (CheckpointManager.checkpoints_ mi)) as [back|] eqn:Hlast; [|done].
    rewrite last_lookup in Hlast.
    rewrite (CheckpointManager.hi_retained _ _ Hinvi), lookup_drop in Hlast.
    pose proof (lookup_lt_Some _ _ _ Hlast) as Hj.
    destruct (decide (1 <= max_checkpoints)%nat) as [Hpos|Hzero].
    + rewrite (CheckpointManager.hi_numbered _ _ Hinvi ltac:(rewrite Hmaxi; exact Hpos)
                 _ _ Hlast).
      unfold wrap64. rewrite Z.mod_small; lia.
    + rewrite length_drop, Hmaxi in Hj. lia.
  - intros ->.
    destruct (create_all_nothing_retained inputs (CheckpointManager.new dir 0 disk0)
                eq_refl eq_refl) as [Hempty Hones].
    rewrite Hall in Hempty, Hones. done.
Qed.

(** Three checkpoints with a limit of two, as in the example of the course. *)
Lemma checkpoint_retention_witness :
  let m := (CheckpointManager.create_all [(10, 1000); (20, 2000); (30, 2000)]
              (CheckpointManager.new "/tmp/checkpoints" 2 ∅)).1 in
  (CheckpointManager.id <$> CheckpointManager.checkpoints_ m) = [2; 3]
  /\ CheckpointManager.checkpoint_path "/tmp/checkpoints" 1 ∉ CheckpointManager.disk m.
Proof.
  pose proof (checkpoint_retention "/tmp/checkpoints" 2 ∅
                [(10, 1000); (20, 2000); (30, 2000)] ltac:(reflexivity)) as H.
  cbv zeta in H.
  destruct H as (_ & _ & _ & _ & _ & _ & _ & _ & H & _).
  destruct (H eq_refl eq_refl) as (H1 & H2 & _). split; [exact H1|exact H2].
Defined.

(** C8 as stated fails when nothing is retained: with [max_checkpoints = 0]
    the record is dropped in the call that made it, the list is empty again
    and the next call takes id 1 once more. *)
Lemma checkpoint_ids_repeat_when_nothing_is_retained :
  let created := (CheckpointManager.create_all [(10, 1000); (20, 2000)]
                    (CheckpointManager.new "/tmp/checkpoints" 0 ∅)).2 in
  (CheckpointManager.id <$> created) = [1; 1]
  /\ ~ (forall i j a b, created !! i = Some a -> created !! j = Some b ->
          (i < j)%nat -> CheckpointManager.id a < CheckpointManager.id b).
Proof.
  split; [by vm_compute|].
  intros H.
  specialize (H 0%nat 1%nat _ _ eq_refl eq_refl ltac:(lia)).
  vm_compute in H. done.
Qed.

(** ** Order facts about binary64 comparison *)

Section FloatOrder.

Ltac compare_cases :=
  repeat match goal with
  | H : context [Z.compare ?a ?b] |- _ => destruct (Z.compare_spec a b)
  | |- context [Z.compare ?a ?b] => destruct (Z.compare_spec a b)
  | H : context [Pos.compare_cont Eq ?a ?b] |- _ =>
      change (Pos.compare_cont Eq a b) with (Pos.compare a b) in H
  | |- context [Pos.compare_cont Eq ?a ?b] =>
      change (Pos.compare_cont Eq a b) with (Pos.compare a b)
  | H : context [Pos.compare ?a ?b] |- _ => destruct (Pos.compare_spec a b)
  | |- context [Pos.compare ?a ?b] => destruct (Pos.compare_spec a b)
  end;
  cbn in *; try discriminate; try reflexivity; try lia.

Lemma SFleb_ltb_trans (a b c : spec_float) :
  SFleb a b = true -> SFltb b c = true -> SFltb a c = true.
Proof.
  unfold SFleb, SFltb.
  destruct a as [sa|sa| |sa ma ea], b as [sb|sb| |sb mb eb], c as [sc|sc| |sc mc ec];
    cbn; try discriminate; try reflexivity;
    repeat match goal with s : bool |- _ => destruct s end;
    cbn; try discriminate; try reflexivity; intros; compare_cases.
Qed.

Lemma SFltb_leb (a b : spec_float) : SFltb a b = true -> SFleb a b = true.
Proof.
  unfold SFleb, SFltb. destruct (SFcompare a b) as [[| |]|]; done.
Qed.

Lemma SFltb_irrefl (a : spec_float) : SFltb a a = false.
Proof.
  unfold SFltb. destruct a as [sa|sa| |sa ma ea]; cbn; try reflexivity.
  - by destruct sa.
  - destruct sa; rewrite Z.compare_refl;
      change (Pos.compare_cont Eq ma ma) with (Pos.compare ma ma);
      by rewrite Pos.compare_refl.
Qed.

(** Two numbers that are not NaN are comparable. *)
Lemma SFltb_total (a b : spec_float) :
  SFeqb a a = true -> SFeqb b b = true -> SFltb a b = false -> SFleb b a = true.
Proof.
  unfold SFeqb, SFleb, SFltb.
  destruct a as [sa|sa| |sa ma ea], b as [sb|sb| |sb mb eb];
    cbn; try discriminate; try reflexivity;
    repeat match goal with s : bool |- _ => destruct s end;
    cbn; try discriminate; try reflexivity; intros; compare_cases.
Qed.

(** Only a number is below anything. *)
Lemma SFltb_not_nan (a b : spec_float) : SFltb a b = true -> SFeqb a a = true.
Proof.
  unfold SFltb, SFeqb. destruct a as [sa|sa| |sa ma ea]; cbn.
  - done.
  - by destruct sa.
  - by destruct b.
  - intros _. destruct sa; rewrite Z.compare_refl;
      change (Pos.compare_cont Eq ma ma) with (Pos.compare ma ma);
      by rewrite Pos.compare_refl.
Qed.

Local Open Scope float_scope.

Lemma float_ltb_not_nan (x y : float) : (x <? y) = true -> is_nan x = false.
Proof.
  unfold is_nan. rewrite FloatAxioms.ltb_spec, FloatAxioms.eqb_spec.
  intros H. apply negb_false_iff. by eapply SFltb_not_nan.
Qed.

Lemma float_leb_ltb_trans (x y z : float) :
  (x <=? y) = true -> (y <? z) = true -> (x <? z) = true.
Proof.
  rewrite FloatAxioms.leb_spec, !FloatAxioms.ltb_spec. apply SFleb_ltb_trans.
Qed.

Lemma float_ltb_leb (x y : float) : (x <? y) = true -> (x <=? y) = true.
Proof. rewrite FloatAxioms.leb_spec, FloatAxioms.ltb_spec. apply SFltb_leb. Qed.

Lemma float_ltb_trans (x y z : float) :
  (x <? y) = true -> (y <? z) = true -> (x <? z) = true.
Proof. intros Hxy. apply float_leb_ltb_trans. by apply float_ltb_leb. Qed.

Lemma float_ltb_irrefl (x : float) : (x <? x) = false.
Proof. rewrite FloatAxioms.ltb_spec. apply SFltb_irrefl. Qed.

Lemma float_ltb_total (x y : float) :
  is_nan x = false -> is_nan y = false -> (x <? y) = false -> (y <=? x) = true.
Proof.
  unfold is_nan. intros Hx%negb_false_iff Hy%negb_false_iff.
  rewrite FloatAxioms.eqb_spec in Hx, Hy.
  rewrite FloatAxioms.ltb_spec, FloatAxioms.leb_spec.
  by apply SFltb_total.
Qed.

Lemma SFmul_comm (a b : spec_float) : SF64mul a b = SF64mul b a.
Proof.
  unfold SF64mul, SFmul.
  destruct a as [sa|sa| |sa ma ea], b as [sb|sb| |sb mb eb];
    try reflexivity; try (by rewrite xorb_comm).
  by rewrite xorb_comm, Pos.mul_comm, Z.add_comm.
Qed.

(** The product of two doubles does not depend on the order of the factors. *)
Lemma float_mul_comm (x y : float) : x * y = y * x.
Proof. apply Prim2SF_inj. rewrite !FloatAxioms.mul_spec. apply SFmul_comm. Qed.

End FloatOrder.

(** ** AdaptiveLoadBalancer: selection and bookkeeping *)

Section AdaptiveLoadBalancerFacts.
Import AdaptiveLoadBalancer.
Local Open Scope float_scope.

Lemma new_well_indexed (n : nat) : length (new n) = n /\ well_indexed (new n).
Proof.
  unfold new. split; [by rewrite length_map, length_seq|].
  intros i s.
  change (map ?f ?l) with (f <$> l). rewrite list_lookup_fmap.
  destruct (seq 0 n !! i) as [j|] eqn:Hj; [|done].
  apply lookup_seq in Hj as [-> _]. by intros [= <-].
Qed.

Lemma insert_well_indexed (i : nat) (s s' : ShardStats) (shards_ : list ShardStats) :
  well_indexed shards_ -> shards_ !! i = Some s -> shard_id s' = shard_id s ->
  well_indexed (<[i := s']> shards_).
Proof.
  intros Hwi Hi Hid j x Hj.
  destruct (decide (i = j)) as [->|Hne].
  - rewrite list_lookup_insert_eq in Hj by (by eapply lookup_lt_Some).
    injection Hj as <-. rewrite Hid. by apply Hwi.
  - rewrite list_lookup_insert_ne in Hj by done. by apply Hwi.
Qed.

Lemma apply_call_well_indexed (c : call) (shards_ shards' : list ShardStats) :
  well_indexed shards_ -> apply_call c shards_ = Some shards' ->
  length shards' = length shards_ /\ well_indexed shards'.
Proof.
  intros Hwi.
  destruct c as [i|i latency_ms success e]; cbn;
    [unfold record_request_start|unfold record_request_end];
    destruct (shards_ !! i) as [s|] eqn:Hi; try done; intros [= <-];
    (split; [by rewrite length_insert|by eapply insert_well_indexed]).
Qed.

Lemma run_well_indexed (calls : list call) (shards_ shards' : list ShardStats) :
  well_indexed shards_ -> run calls shards_ = Some shards' ->
  length shards' = length shards_ /\ well_indexed shards'.
Proof.
  revert shards_. induction calls as [|c calls IH]; intros shards_ Hwi; cbn.
  - by intros [= <-].
  - destruct (apply_call c shards_) as [mid|] eqn:Hc; [|done].
    destruct (apply_call_well_indexed c shards_ mid Hwi Hc) as [Hlen Hmid].
    intros Hrun. destruct (IH mid Hmid Hrun) as [Hlen' ?]. split; [congruence|done].
Qed.

(** What the scan leaves in [(best_shard, best_score)]: either no record
    scored below the initial [best_score] and the pair is unchanged, or the
    pair is that of the first record with the least score. *)
Lemma scan_first_minimum (l : list ShardStats) (b0 : nat) (s0 : float) :
  (fold_left select_step l (b0, s0) = (b0, s0)
   /\ forall j y, l !! j = Some y -> (score y <? s0) = false)
  \/ (exists i x,
        l !! i = Some x
        /\ fold_left select_step l (b0, s0) = (shard_id x, score x)
        /\ (score x <? s0) = true
        /\ (forall j y, l !! j = Some y -> (score y <? score x) = false)
        /\ (forall j y, l !! j = Some y -> (j < i)%nat -> (score y <=? score x) = false)).
Proof.
  induction l as [|x l IH] using rev_ind.
  - left. split; [done|]. intros j y Hl. by destruct j.
  - rewrite fold_left_app. cbn [fold_left].
    destruct IH as [[Hfold Hall]|(i & x0 & Hi & Hfold & Hlt & Hmin & Hfirst)];
      rewrite Hfold; unfold select_step; cbn [snd].
    + destruct (score x <? s0) eqn:Hx.
      * right. exists (length l), x. split; [by rewrite lookup_app_r, Nat.sub_diag|].
        split; [done|]. split; [done|]. split.
        -- intros j y [Hj|[_ Hj]]%lookup_app_Some.
           ++ destruct (score y <? score x) eqn:Hyx; [|done].
              rewrite <- (Hall j y Hj). symmetry. by eapply float_ltb_trans.
           ++ destruct (j - length l)%nat; [|done]. injection Hj as <-.
              apply float_ltb_irrefl.
        -- intros j y Hj Hlen. rewrite lookup_app_l in Hj by done.
           destruct (score y <=? score x) eqn:Hyx; [|done].
           rewrite <- (Hall j y Hj). symmetry. by eapply float_leb_ltb_trans.
      * left. split; [done|].
        intros j y [Hj|[_ Hj]]%lookup_app_Some; [by eapply Hall|].
        destruct (j - length l)%nat; [|done]. by injection Hj as <-.
    + destruct (score x <? score x0) eqn:Hx.
      * right. exists (length l), x. split; [by rewrite lookup_app_r, Nat.sub_diag|].
        split; [done|]. split; [by eapply float_ltb_trans|]. split.
        -- intros j y [Hj|[_ Hj]]%lookup_app_Some.
           ++ destruct (score y <? score x) eqn:Hyx; [|done].
              rewrite <- (Hmin j y Hj). symmetry. by eapply float_ltb_trans.
           ++ destruct (j - length l)%nat; [|done]. injection Hj as <-.
              apply float_ltb_irrefl.
        -- intros j y Hj Hlen. rewrite lookup_app_l in Hj by done.
           destruct (score y <=? score x) eqn:Hyx; [|done].
           rewrite <- (Hmin j y Hj). symmetry. by eapply float_leb_ltb_trans.
      * right. exists i, x0. split; [by apply lookup_app_l_Some|].
        split; [done|]. split; [done|]. split.
        -- intros j y [Hj|[_ Hj]]%lookup_app_Some; [by eapply Hmin|].
           destruct (j - length l)%nat; [|done]. by injection Hj as <-.
        -- intros j y Hj Hlt'. apply (Hfirst j y); [|done].
           apply lookup_lt_Some in Hi. by rewrite lookup_app_l in Hj by lia.
Qed.

(** [select_shard] on a well-indexed vector. *)
Lemma select_shard_well_indexed (shards_ : list ShardStats) :
  shards_ <> [] -> well_indexed shards_ ->
  (select_shard shards_ < length shards_)%nat
  /\ ((select_shard shards_ = 0%nat
       /\ forall j y, shards_ !! j = Some y -> (score y <? DBL_MAX) = false)
      \/ (exists best,
            shards_ !! select_shard shards_ = Some best
            /\ (score best <? DBL_MAX) = true
            /\ (forall j y, shards_ !! j = Some y -> (score y <? score best) = false)
            /\ (forall j y, shards_ !! j = Some y -> is_nan (score y) = false ->
                  (score best <=? score y) = true)
            /\ (forall j y, shards_ !! j = Some y -> (j < select_shard shards_)%nat ->
                  (score y <=? score best) = false))).
Proof.
  intros Hne Hwi. unfold select_shard.
  destruct (scan_first_minimum shards_ 0%nat DBL_MAX)
    as [[Hfold Hall]|(i & x & Hi & Hfold & Hlt & Hmin & Hfirst)]; rewrite Hfold; cbn [fst].
  - split; [destruct shards_; [done|cbn; lia]|]. by left.
  - rewrite (Hwi i x Hi). split; [by eapply lookup_lt_Some|].
    right. exists x. split; [done|]. split; [done|]. split; [done|]. split; [|done].
    intros j y Hj Hnan. apply float_ltb_total; [done| |by eapply Hmin].
    by eapply float_ltb_not_nan.
Qed.

End AdaptiveLoadBalancerFacts.

(** C6 (amended). A balancer with at least one shard, in any state reached
    from construction by calls of [record_request_start] and
    [record_request_end]. [select_shard] returns a valid shard index. If the
    score [active_requests + avg_latency_ms / 10] (in double arithmetic) of
    some shard is below the initial [best_score], [DBL_MAX], then no shard
    has a score below that of the shard returned, the score of the shard
    returned is at most every score that is a number, and no shard of lower
    index has a score at most that of the shard returned (the minimum, and
    the lowest index among ties); otherwise every score is [DBL_MAX], an
    infinity or NaN, and the result is [0]. A shard whose score is strictly
    the least is the one returned; so it is for shard 3 when
    [active_requests] is [3; 1; 2; 0] and all latencies are the [0.0] of a
    fresh balancer. *)
Theorem select_shard_first_minimum (num_shards : nat)
    (calls : list AdaptiveLoadBalancer.call)
    (shards_ : list AdaptiveLoadBalancer.ShardStats) :
  (1 <= num_shards)%nat ->
  AdaptiveLoadBalancer.run calls (AdaptiveLoadBalancer.new num_shards) = Some shards_ ->
  let r := AdaptiveLoadBalancer.select_shard shards_ in
  let score := AdaptiveLoadBalancer.score in
  (r < num_shards)%nat
  /\ ((r = 0%nat
       /\ forall j y, shards_ !! j = Some y ->
            (score y <? AdaptiveLoadBalancer.DBL_MAX)%float = false)
      \/ (exists best,
            shards_ !! r = Some best
            /\ (score best <? AdaptiveLoadBalancer.DBL_MAX)%float = true
            /\ (forall j y, shards_ !! j = Some y -> (score y <? score best)%float = false)
            /\ (forall j y, shards_ !! j = Some y -> is_nan (score y) = false ->
                  (score best <=? score y)%float = true)
            /\ (forall j y, shards_ !! j = Some y -> (j < r)%nat ->
                  (score y <=? score best)%float = false)))
  /\ (forall k, AdaptiveLoadBalancer.strictly_least shards_ k -> r = k)
  /\ (let fresh := [AdaptiveLoadBalancer.mkShardStats 0 3 3 0 0;
                    AdaptiveLoadBalancer.mkShardStats 1 1 1 0 0;
                    AdaptiveLoadBalancer.mkShardStats 2 2 2 0 0;
                    AdaptiveLoadBalancer.mkShardStats 3 0 0 0 0] in
      AdaptiveLoadBalancer.run
        [AdaptiveLoadBalancer.RequestStart 0; AdaptiveLoadBalancer.RequestStart 0;
         AdaptiveLoadBalancer.RequestStart 0; AdaptiveLoadBalancer.RequestStart 1;
         AdaptiveLoadBalancer.RequestStart 2; AdaptiveLoadBalancer.RequestStart 2]
        (AdaptiveLoadBalancer.new 4) = Some fresh
      /\ AdaptiveLoadBalancer.strictly_least fresh 3
      /\ AdaptiveLoadBalancer.select_shard fresh = 3%nat).
Proof.
  intros Hn Hrun r score. subst score.
  destruct (new_well_indexed num_shards) as [Hlen0 Hwi0].
  destruct (run_well_indexed calls _ _ Hwi0 Hrun) as [Hlen Hwi].
  rewrite Hlen0 in Hlen.
  assert (shards_ <> []) as Hne by (destruct shards_; [cbn in Hlen; lia|done]).
  destruct (select_shard_well_indexed shards_ Hne Hwi) as [Hr Hcases].
  fold r in Hr, Hcases. split; [lia|]. split; [exact Hcases|]. split.
  - intros k (s & Hk & Hs & Hleast).
    destruct Hcases as [[_ Hall]|(best & Hb & _ & Hmin & _)].
    + rewrite (Hall k s Hk) in Hs. done.
    + destruct (decide (r = k)) as [|Hrk]; [done|exfalso].
      specialize (Hleast r best Hb Hrk).
      rewrite (Hmin k s Hk) in Hleast. done.
  - cbv zeta. split; [by vm_compute|]. split; [|by vm_compute].
    eexists. split; [reflexivity|]. split; [by vm_compute|].
    intros [|[|[|[|j]]]] y Hj Hne'; try done; injection Hj as <-; by vm_compute.
Qed.

(** The fresh balancer of four shards after six requests have started. *)
Lemma select_shard_first_minimum_witness :
  let shards_ := [AdaptiveLoadBalancer.mkShardStats 0 3 3 0 0;
                  AdaptiveLoadBalancer.mkShardStats 1 1 1 0 0;
                  AdaptiveLoadBalancer.mkShardStats 2 2 2 0 0;
                  AdaptiveLoadBalancer.mkShardStats 3 0 0 0 0] in
  AdaptiveLoadBalancer.select_shard shards_ = 3%nat
  /\ (AdaptiveLoadBalancer.select_shard shards_ < 4)%nat.
Proof.
  intros shards_. split; [by vm_compute|].
  exact (proj1 (select_shard_first_minimum 4
    [AdaptiveLoadBalancer.RequestStart 0; AdaptiveLoadBalancer.RequestStart 0;
     AdaptiveLoadBalancer.RequestStart 0; AdaptiveLoadBalancer.RequestStart 1;
     AdaptiveLoadBalancer.RequestStart 2; AdaptiveLoadBalancer.RequestStart 2]
    shards_ ltac:(lia) ltac:(vm_compute; reflexivity))).
Defined.

(** C6 as stated fails for large equal latencies. Four shards, requests
    started and ended so that [active_requests] is [3; 1; 2; 0] and every
    request ended reported a latency of [2^1000] ms: however the averages
    are evaluated, the four averages are
    equal, the addition of [active_requests] to a tenth of the average is
    absorbed by rounding, the four scores are equal and the scan keeps
    shard 0, not shard 3. The general statement needs numbers as well: with
    an average that is NaN for shard 0 and infinite for shard 1 no score is
    below the initial [best_score], the scan keeps shard 0, and its score,
    NaN, is not at most the score of shard 1. *)
Lemma select_shard_equal_latencies_absorbed :
  (forall e0 e1 e2 e3 : AdaptiveLoadBalancer.evaluation,
   let calls :=
     [AdaptiveLoadBalancer.RequestStart 0; AdaptiveLoadBalancer.RequestStart 0;
      AdaptiveLoadBalancer.RequestStart 0; AdaptiveLoadBalancer.RequestStart 0;
      AdaptiveLoadBalancer.RequestStart 1; AdaptiveLoadBalancer.RequestStart 1;
      AdaptiveLoadBalancer.RequestStart 2; AdaptiveLoadBalancer.RequestStart 2;
      AdaptiveLoadBalancer.RequestStart 2; AdaptiveLoadBalancer.RequestStart 3;
      AdaptiveLoadBalancer.RequestEnd 0 0x1p+1000 true e0;
      AdaptiveLoadBalancer.RequestEnd 1 0x1p+1000 true e1;
      AdaptiveLoadBalancer.RequestEnd 2 0x1p+1000 true e2;
      AdaptiveLoadBalancer.RequestEnd 3 0x1p+1000 true e3] in
   exists shards_,
     AdaptiveLoadBalancer.run calls (AdaptiveLoadBalancer.new 4) = Some shards_
     /\ (AdaptiveLoadBalancer.active_requests <$> shards_) = [3; 1; 2; 0]
     /\ (AdaptiveLoadBalancer.avg_latency_ms <$> shards_) =
          [0x1.999999999999ap+996; 0x1.999999999999ap+996;
           0x1.999999999999ap+996; 0x1.999999999999ap+996]%float
     /\ AdaptiveLoadBalancer.select_shard shards_ = 0%nat
     /\ AdaptiveLoadBalancer.select_shard shards_ <> 3%nat)
  /\ (forall e0 e1 : AdaptiveLoadBalancer.evaluation,
      let calls :=
        [AdaptiveLoadBalancer.RequestStart 0; AdaptiveLoadBalancer.RequestStart 1;
         AdaptiveLoadBalancer.RequestEnd 0 nan true e0;
         AdaptiveLoadBalancer.RequestEnd 1 infinity true e1] in
      exists shards_,
        AdaptiveLoadBalancer.run calls (AdaptiveLoadBalancer.new 2) = Some shards_
        /\ (AdaptiveLoadBalancer.score <$> shards_) = [nan; infinity]
        /\ AdaptiveLoadBalancer.select_shard shards_ = 0%nat
        /\ (nan <=? infinity)%float = false).
Proof.
  split.
  - intros [] [] [] []; eexists; (split; [by vm_compute|]); (split; [by vm_compute|]);
      (split; [by vm_compute|]); (split; [by vm_compute|]); by vm_compute.
  - intros [] []; eexists; (split; [by vm_compute|]); (split; [by vm_compute|]);
      split; by vm_compute.
Qed.

(** ** The moving average under contraction *)

Section FusedMultiplyAddFacts.
Import FusedMultiplyAdd.

Lemma SFfma_comm (x y z : spec_float) : SFfma x y z = SFfma y x z.
Proof.
  destruct x as [sx|sx| |sx mx ex], y as [sy|sy| |sy my ey]; cbn;
    rewrite ?(xorb_comm sy sx), ?(Pos.mul_comm my mx), ?(Z.add_comm ey ex); reflexivity.
Qed.

Lemma fma_comm (x y z : float) : fma x y z = fma y x z.
Proof. unfold fma. by rewrite SFfma_comm. Qed.

End FusedMultiplyAddFacts.

(** C7. For a shard [i] of the vector, [record_request_end(i, latency_ms,
    success)] returns, changes no other shard, and leaves shard [i] with
    [avg_latency_ms = 0.9 * old + 0.1 * latency_ms] in double arithmetic
    ([0.9] and [0.1] the nearest doubles) as the code compiled for the call
    evaluates it: the two products and the sum each rounded, or one of the
    products fused into the addition; with [active_requests] one less
    (modulo [2^64]), [error_count] one more exactly when [success] is false,
    and [total_requests] and [shard_id] as they were. From an average of
    [10.0] a latency of [20.0] gives [11.0] under each evaluation. *)
Theorem record_request_end_update (e : AdaptiveLoadBalancer.evaluation)
    (shards_ : list AdaptiveLoadBalancer.ShardStats)
    (i : nat) (s : AdaptiveLoadBalancer.ShardStats) (latency_ms : float) (success : bool) :
  shards_ !! i = Some s ->
  exists shards' s',
    AdaptiveLoadBalancer.record_request_end e i latency_ms success shards_ = Some shards'
    /\ length shards' = length shards_
    /\ (forall j, j <> i -> shards' !! j = shards_ !! j)
    /\ shards' !! i = Some s'
    /\ AdaptiveLoadBalancer.avg_latency_ms s' =
         match e with
         | AdaptiveLoadBalancer.EachRounded =>
             (0x1.ccccccccccccdp-1 * AdaptiveLoadBalancer.avg_latency_ms s
              + 0x1.999999999999ap-4 * latency_ms)%float
         | AdaptiveLoadBalancer.FusedOldAvg =>
             FusedMultiplyAdd.fma 0x1.ccccccccccccdp-1
               (AdaptiveLoadBalancer.avg_latency_ms s)
               (0x1.999999999999ap-4 * latency_ms)%float
         | AdaptiveLoadBalancer.FusedLatency =>
             FusedMultiplyAdd.fma 0x1.999999999999ap-4 latency_ms
               (0x1.ccccccccccccdp-1 * AdaptiveLoadBalancer.avg_latency_ms s)%float
         end
    /\ AdaptiveLoadBalancer.active_requests s' =
         wrap64 (AdaptiveLoadBalancer.active_requests s - 1)
    /\ (0 < AdaptiveLoadBalancer.active_requests s < 2 ^ 64 ->
        AdaptiveLoadBalancer.active_requests s' = AdaptiveLoadBalancer.active_requests s - 1)
    /\ AdaptiveLoadBalancer.error_count s' =
         (if success then AdaptiveLoadBalancer.error_count s
          else wrap64 (AdaptiveLoadBalancer.error_count s + 1))
    /\ (0 <= AdaptiveLoadBalancer.error_count s < 2 ^ 64 - 1 -> success = false ->
        AdaptiveLoadBalancer.error_count s' = AdaptiveLoadBalancer.error_count s + 1)
    /\ AdaptiveLoadBalancer.total_requests s' = AdaptiveLoadBalancer.total_requests s
    /\ AdaptiveLoadBalancer.shard_id s' = AdaptiveLoadBalancer.shard_id s
    /\ (AdaptiveLoadBalancer.avg_latency_ms s = 10%float -> latency_ms = 20%float ->
        AdaptiveLoadBalancer.avg_latency_ms s' = 11%float).
Proof.
  intros Hi. unfold AdaptiveLoadBalancer.record_request_end. rewrite Hi.
  eexists _, _. split; [reflexivity|].
  split; [by rewrite length_insert|].
  split; [intros j Hj; by rewrite list_lookup_insert_ne|].
  split; [apply list_lookup_insert_eq; by eapply lookup_lt_Some|].
  cbn. split.
  { destruct e; cbn.
    - by rewrite (float_mul_comm 0x1.ccccccccccccdp-1), (float_mul_comm 0x1.999999999999ap-4).
    - by rewrite (fma_comm 0x1.ccccccccccccdp-1), (float_mul_comm 0x1.999999999999ap-4).
    - by rewrite (fma_comm 0x1.999999999999ap-4), (float_mul_comm 0x1.ccccccccccccdp-1). }
  split; [done|].
  split. { intros H. unfold wrap64. rewrite Z.mod_small; lia. }
  split; [done|].
  split. { intros H ->. unfold wrap64. rewrite Z.mod_small; lia. }
  split; [done|]. split; [done|].
  intros -> ->. destruct e; by vm_compute.
Qed.

(** One shard with an average of 10 ms and a request that ends after 20 ms,
    the old average fused into the addition. *)
Lemma record_request_end_update_witness :
  exists shards',
    AdaptiveLoadBalancer.record_request_end AdaptiveLoadBalancer.FusedOldAvg 0 20 true
      [AdaptiveLoadBalancer.mkShardStats 0 1 1 10 0] = Some shards'
    /\ AdaptiveLoadBalancer.avg_latency_ms <$> shards' = [11%float].
Proof.
  destruct (record_request_end_update AdaptiveLoadBalancer.FusedOldAvg
              [AdaptiveLoadBalancer.mkShardStats 0 1 1 10 0]
              0 (AdaptiveLoadBalancer.mkShardStats 0 1 1 10 0) 20 true eq_refl)
    as (shards' & s' & Hcall & _).
  exists shards'. split; [exact Hcall|].
  vm_compute in Hcall. injection Hcall as <-. reflexivity.
Defined.

(** ** ShardNode and DistributedIndex: what the write path reports *)

(** C9 (the code departs from the claim). The claim wants [ShardNode::add]
    and [ShardNode::add_batch] to return a failed result when the engine
    rejects the insertion. In the code both drop the engine's result and
    return [true], whatever the engine and its answer. The second part runs
    a shard whose engine is full: the engine refuses the vector, and the
    batch, and the shard returns [true] with its index unchanged. *)
Theorem shard_node_add_always_reports_success :
  (forall (E : Type) (engine : VectorIndexEngine E) k vector (node : ShardNode.t E),
     (ShardNode.add k vector node).2 = true)
  /\ (forall (E : Type) (engine : VectorIndexEngine E) keys vectors count
        (node : ShardNode.t E),
     (ShardNode.add_batch keys vectors count node).2 = true)
  /\ (let full := FlatEngine.mk 0 2 [] in
      let node := ShardNode.mk full 0 2 0 in
      engine_add 7 [1; 2]%float full = (full, false)
      /\ ShardNode.add 7 [1; 2]%float node = (node, true)
      /\ engine_add_batch [7; 8] [1; 2; 3; 4]%float 2 full = (full, false)
      /\ ShardNode.add_batch [7; 8] [1; 2; 3; 4]%float 2 node = (node, true)).
Proof.
  split; [done|]. split; [done|]. by vm_compute.
Qed.

(** C4 (the code departs from the claim). The claim wants
    [DistributedIndex::add_batch] to return failure when the dispatch of
    some group fails. In the code the value of every future is dropped and
    the method ends in [return true]: whenever it returns, it returns
    [true]. The second part runs an index of two shards, the engine of
    shard 0 full: the engine refuses the group of shard 0, the group of
    shard 1 is stored, and [add_batch] returns [true]. *)
Theorem add_batch_always_reports_success :
  (forall (E : Type) (engine : VectorIndexEngine E) std_hash items
          (idx : DistributedIndex.t E),
     match DistributedIndex.add_batch std_hash items idx with
     | Some (_, ok) => ok = true
     | None => True
     end)
  /\ (let full := FlatEngine.mk 0 2 [] in
      let idx := DistributedIndex.new (ShardingStrategy.HashSharding 2)
                   [full; FlatEngine.mk 10 2 []] 2 in
      let items := [(0, [1; 2]%float); (1, [3; 4]%float); (3, [5; 6]%float)] in
      engine_add_batch [0] [1; 2]%float 1 full = (full, false)
      /\ exists idx',
           DistributedIndex.add_batch (fun k => k) items idx = Some (idx', true)
           /\ ShardNode.size <$> DistributedIndex.shards_ idx' = [0; 2]%nat).
Proof.
  split.
  - intros E engine std_hash items idx. unfold DistributedIndex.add_batch.
    destruct (DistributedIndex.add_batch_tasks std_hash items idx) as [[idx' futures]|]; done.
  - cbv zeta. split; [by vm_compute|]. eexists. split; by vm_compute.
Qed.

(** ** DistributedIndex: the merge of [search] *)

Section MergeFacts.
Import DistributedIndex.

Lemma ascending_cons {A : Type} (comp : A -> A -> bool) (x : A) (l : list A) :
  ascending comp (x :: l) <-> Forall (fun y => comp y x = false) l /\ ascending comp l.
Proof.
  unfold ascending. split.
  - intros Hs. apply StronglySorted_inv in Hs as [Hl Hx]. by split.
  - intros [Hx Hl]. by constructor.
Qed.

Lemma by_key_false (a b : result_t) : by_key a b = false <-> key b <= key a.
Proof. unfold by_key. apply Z.ltb_ge. Qed.

Lemma same_key_true (a b : result_t) : same_key a b = true <-> key a = key b.
Proof. unfold same_key. apply Z.eqb_eq. Qed.

Lemma truncate_take (k : nat) (l : list result_t) : truncate k l = take k l.
Proof. unfold truncate. case_decide; [done|]. rewrite take_ge; [done|lia]. Qed.

(** Whatever [merge_top_k] yields has exactly [k] entries: the partial sort
    is defined only for [k] within the deduplicated list. *)
Lemma merge_top_k_length (all_results : list result_t) (k : nat) (out : list result_t) :
  merge_top_k all_results k out -> length out = k.
Proof.
  intros (sorted & partial & _ & _ & (Hk & Hperm & _) & ->).
  rewrite truncate_take, length_take. apply Permutation_length in Hperm. lia.
Qed.


(** The merge is defined only on as many deduplicated entries as asked. *)
Lemma merge_top_k_defined (all_results : list result_t) (k : nat) (out : list result_t) :
  merge_top_k all_results k out ->
  exists sorted, std_sort by_key all_results sorted
    /\ (k <= length (std_unique same_key sorted))%nat.
Proof.
  intros (sorted & partial & Hsort & _ & (Hk & _) & _). by exists sorted.
Qed.

End MergeFacts.

Section MergeExample.
Import DistributedIndex.

Variables k1 k2 k3 : Z.
Hypothesis H12 : k1 <> k2.
Hypothesis H13 : k1 <> k3.
Hypothesis H23 : k2 <> k3.






End MergeExample.

(** ** The run by merge sort is one of the results of the merge *)

Section MergeRun.
Import DistributedIndex.

#[local] Instance by_key_total : Total (not_after by_key).
Proof. intros x y. unfold not_after. rewrite !by_key_false. lia. Qed.

#[local] Instance by_key_transitive : Transitive (not_after by_key).
Proof. intros x y z. unfold not_after. rewrite !by_key_false. lia. Qed.

#[local] Instance by_distance_total : Total (not_after by_distance).
Proof.
  intros x y. unfold not_after, by_distance.
  destruct (distance y <? distance x)%float eqn:Hyx; [|by left].
  destruct (distance x <? distance y)%float eqn:Hxy; [|by right].
  pose proof (float_ltb_trans _ _ _ Hxy Hyx) as Hxx.
  by rewrite float_ltb_irrefl in Hxx.
Qed.

(** Among numbers, "not after" by distance is transitive. *)
Lemma by_distance_transitive (x y z : result_t) :
  is_nan (distance y) = false -> is_nan (distance z) = false ->
  not_after by_distance x y -> not_after by_distance y z -> not_after by_distance x z.
Proof.
  unfold not_after, by_distance. intros Hy Hz Hxy Hyz.
  destruct (distance z <? distance x)%float eqn:Hzx; [|done].
  pose proof (float_ltb_total _ _ Hz Hy Hyz) as Hle.
  pose proof (float_leb_ltb_trans _ _ _ Hle Hzx) as Hyx. congruence.
Qed.

(** A sorted list is strongly sorted as soon as the relation is transitive
    on its elements. *)
Lemma Sorted_StronglySorted_on {A : Type} (R : relation A) (l : list A) :
  (forall x y z, y ∈ l -> z ∈ l -> R x y -> R y z -> R x z) ->
  Sorted R l -> StronglySorted R l.
Proof.
  intros Htrans Hs. induction Hs as [|x l Hs IH Hhd]; [constructor|].
  assert (StronglySorted R l) as Hl.
  { apply IH. intros a b c Hb Hc. apply Htrans; by right. }
  constructor; [done|].
  destruct Hhd as [|y l' Hxy]; [constructor|].
  apply StronglySorted_inv in Hl as [_ Hy].
  constructor; [done|].
  apply Forall_forall. intros z Hz. apply (Htrans x y z).
  - right. by left.
  - right. by right.
  - done.
  - rewrite Forall_forall in Hy. by apply Hy.
Qed.

Lemma merge_sort_by_key (l : list result_t) :
  std_sort by_key l (merge_sort (not_after by_key) l).
Proof.
  split; [by rewrite merge_sort_Permutation|]. apply StronglySorted_merge_sort; apply _.
Qed.

Lemma merge_sort_by_distance (l : list result_t) (k : nat) :
  no_nan l -> (k <= length l)%nat ->
  std_partial_sort by_distance k l (merge_sort (not_after by_distance) l).
Proof.
  intros Hnan Hk.
  assert (StronglySorted (not_after by_distance) (merge_sort (not_after by_distance) l))
    as Hss.
  { apply Sorted_StronglySorted_on; [|apply Sorted_merge_sort; apply _].
    intros x y z Hy Hz. unfold no_nan in Hnan. rewrite Forall_forall in Hnan.
    apply by_distance_transitive; apply Hnan.
    - by rewrite <- (merge_sort_Permutation (not_after by_distance) l).
    - by rewrite <- (merge_sort_Permutation (not_after by_distance) l). }
  split; [done|]. split; [by rewrite merge_sort_Permutation|].
  rewrite <- (take_drop k (merge_sort _ l)) in Hss. split.
  - by apply StronglySorted_app_1_l in Hss.
  - intros x y Hx Hy. by apply (StronglySorted_app_1_elem_of _ _ _ x y) in Hss.
Qed.

Lemma merge_top_k_run_sound (all_results : list result_t) (k : nat) (out : list result_t) :
  merge_top_k_run all_results k = Some out -> merge_top_k all_results k out.
Proof.
  unfold merge_top_k_run. case_decide as Hd; [|done]. destruct Hd as [Hnan Hk].
  intros [= <-].
  exists (merge_sort (not_after by_key) all_results),
         (merge_sort (not_after by_distance)
            (std_unique same_key (merge_sort (not_after by_key) all_results))).
  split; [apply merge_sort_by_key|]. split; [done|].
  split; [by apply merge_sort_by_distance|done].
Qed.

End MergeRun.

(** ** The deduplicated list has one entry per key *)

Section Deduplication.
Import DistributedIndex.

Lemma unique_after_sorted (kept : result_t) (l : list result_t) :
  ascending by_key l -> Forall (fun y => key kept <= key y) l ->
  StronglySorted (fun a b => key a < key b) (unique_after same_key kept l)
  /\ Forall (fun y => key kept < key y) (unique_after same_key kept l)
  /\ (forall y, y ∈ unique_after same_key kept l -> y ∈ l)
  /\ (forall y, y ∈ l ->
        key y = key kept \/
        exists y', y' ∈ unique_after same_key kept l /\ key y' = key y).
Proof.
  revert kept. induction l as [|x rest IH]; intros kept Hasc Hge.
  - cbn. split; [constructor|]. split; [constructor|].
    split; [done|]. intros y Hy. by apply elem_of_nil in Hy.
  - apply ascending_cons in Hasc as [Hx Hrest].
    apply Forall_cons in Hge as [Hkx Hge].
    cbn [unique_after]. destruct (same_key kept x) eqn:Hsame.
    + apply same_key_true in Hsame.
      destruct (IH kept Hrest Hge) as (Hs & Hgt & Hsub & Hcov).
      split; [done|]. split; [done|]. split.
      * intros y Hy. right. by apply Hsub.
      * intros y [->|Hy]%elem_of_cons; [by left|by apply Hcov].
    + assert (key kept < key x) as Hlt.
      { unfold same_key in Hsame. apply Z.eqb_neq in Hsame. lia. }
      assert (Forall (fun y => key x <= key y) rest) as Hxge.
      { eapply Forall_impl; [exact Hx|]. intros y Hy. by apply by_key_false. }
      destruct (IH x Hrest Hxge) as (Hs & Hgt & Hsub & Hcov).
      split; [by constructor|]. split.
      * constructor; [done|]. eapply Forall_impl; [exact Hgt|]. cbn. lia.
      * split.
        -- intros y [->|Hy]%elem_of_cons; [by left|right; by apply Hsub].
        -- intros y [->|Hy]%elem_of_cons.
           ++ right. exists x. split; [by left|done].
           ++ destruct (Hcov y Hy) as [Heq|(y' & Hy' & Heq)].
              ** right. exists x. split; [by left|done].
              ** right. exists y'. split; [by right|done].
Qed.

Lemma increasing_keys_NoDup (l : list result_t) :
  StronglySorted (fun a b => key a < key b) l -> NoDup (key <$> l).
Proof.
  induction 1 as [|x l Hs IH Hx]; cbn; [constructor|].
  constructor; [|done].
  intros (y & Heq & Hy)%list_elem_of_fmap.
  rewrite Forall_forall in Hx. specialize (Hx y Hy). lia.
Qed.

(** After sorting by key in whatever order of equal keys, [std_unique]
    leaves as many entries as there are different keys. *)
Lemma std_unique_distinct_keys (all_results sorted : list result_t) :
  std_sort by_key all_results sorted ->
  length (std_unique same_key sorted) = distinct_keys all_results.
Proof.
  intros [Hperm Hasc]. unfold distinct_keys.
  rewrite <- (length_fmap key (std_unique same_key sorted)).
  apply Permutation_length, NoDup_Permutation.
  - destruct sorted as [|x rest]; cbn [std_unique]; [constructor|].
    apply ascending_cons in Hasc as [Hx Hrest].
    assert (Forall (fun y => key x <= key y) rest) as Hxge.
    { eapply Forall_impl; [exact Hx|]. intros y Hy. by apply by_key_false. }
    destruct (unique_after_sorted x rest Hrest Hxge) as (Hs & Hgt & _).
    apply increasing_keys_NoDup. by constructor.
  - apply NoDup_remove_dups.
  - intros z. rewrite elem_of_remove_dups, Hperm, !list_elem_of_fmap.
    destruct sorted as [|x rest]; cbn [std_unique]; [done|].
    apply ascending_cons in Hasc as [Hx Hrest].
    assert (Forall (fun y => key x <= key y) rest) as Hxge.
    { eapply Forall_impl; [exact Hx|]. intros y Hy. by apply by_key_false. }
    destruct (unique_after_sorted x rest Hrest Hxge) as (_ & _ & Hsub & Hcov).
    split.
    + intros (y & -> & [->|Hy]%elem_of_cons).
      * exists x. split; [done|by left].
      * exists y. split; [done|]. right. by apply Hsub.
    + intros (y & -> & [->|Hy]%elem_of_cons).
      * exists x. split; [done|by left].
      * destruct (Hcov y Hy) as [Heq|(y' & Hy' & Heq)].
        -- exists x. split; [done|by left].
        -- exists y'. split; [done|by right].
Qed.

End Deduplication.

Section MergeTotality.
Import DistributedIndex.

Lemma merge_top_k_perm (all_results all_results' : list result_t) (k : nat)
    (out : list result_t) :
  all_results ≡ₚ all_results' ->
  merge_top_k all_results k out -> merge_top_k all_results' k out.
Proof.
  intros Hperm (sorted & partial & [Hp Hasc] & Hrest).
  exists sorted, partial. split; [|done]. split; [by rewrite <- Hperm|done].
Qed.

Lemma std_unique_subset (l : list result_t) (y : result_t) :
  y ∈ std_unique same_key l -> y ∈ l.
Proof.
  destruct l as [|x rest]; [done|]. cbn [std_unique].
  intros [->|Hy]%elem_of_cons; [by left|]. right.
  revert x Hy. induction rest as [|z rest IH]; intros x Hy; [done|].
  cbn [unique_after] in Hy. destruct (same_key x z).
  - right. by eapply IH.
  - apply elem_of_cons in Hy as [->|Hy]; [by left|]. right. by eapply IH.
Qed.


Lemma merge_top_k_bound (all_results : list result_t) (k : nat) (out : list result_t) :
  merge_top_k all_results k out ->
  (k <= distinct_keys all_results)%nat /\ length out = k.
Proof.
  intros Hm. split; [|by eapply merge_top_k_length].
  destruct (merge_top_k_defined _ _ _ Hm) as (sorted & Hsort & Hk).
  by rewrite (std_unique_distinct_keys _ _ Hsort) in Hk.
Qed.


(** A run of [search] is one of its outcomes. *)
Lemma search_run_sound {E : Type} `{VectorIndexEngine E} (query : list float)
    (k n_probe : nat) (idx idx' : DistributedIndex.t E) (out : list result_t) :
  search_run query k n_probe idx = Some (idx', out) -> search query k n_probe idx idx' out.
Proof.
  unfold search_run, search.
  destruct (fan_out _ query k _ (shards_ idx)) as [[shards' results]|] eqn:Hfan; [|done].
  cbn. destruct (merge_top_k_run (gather results) k) as [out'|] eqn:Hrun; [|done]. cbn.
  intros [= <- <-]. exists (fun _ => InTime), shards', results.
  split; [done|]. split; [done|]. by apply merge_top_k_run_sound.
Qed.

End MergeTotality.

(** The example of the specification run on two shards: the engine of
    shard 0 holds the keys 1 and 2, that of shard 1 the keys 2 and 3, at
    distances 1, 0.5 and 2 from the query. *)
Example search_example_run :
  let idx := DistributedIndex.new (ShardingStrategy.HashSharding 2)
               [FlatEngine.mk 10 2 [(1, [1; 0]%float); (2, [0.5; 0.5]%float)];
                FlatEngine.mk 10 2 [(2, [0.5; 0.5]%float); (3, [1; 1]%float)]] 2 in
  exists idx',
    DistributedIndex.search_run [0; 0]%float 2 0 idx
      = Some (idx', [mkResult 2 0.5; mkResult 1 1])
    /\ DistributedIndex.search [0; 0]%float 2 0 idx idx' [mkResult 2 0.5; mkResult 1 1].
Proof.
  cbv zeta. eexists. split; [by vm_compute|].
  apply search_run_sound. by vm_compute.
Qed.



(** C3 (the code departs from the claim). The claim wants [search] to
    return as many results as the deduplicated union holds when that is
    fewer than [k]. In the code [std::partial_sort] is called with the
    middle iterator [begin() + k] whatever the size of the deduplicated
    list, and the call is defined only if [k] is at most that size: every
    result of the merge, and so of [search], has exactly [k] entries, and
    with fewer than [k] different keys there is no defined result. The last
    part runs an index of one shard holding one vector: a search for
    [k = 2] has no defined result, a search for [k = 1] returns the one
    entry. *)
Theorem search_undefined_below_k :
  (forall all_results k out,
     DistributedIndex.merge_top_k all_results k out ->
     (k <= DistributedIndex.distinct_keys all_results)%nat /\ length out = k)
  /\ (forall all_results k,
        (DistributedIndex.distinct_keys all_results < k)%nat ->
        DistributedIndex.merge_top_k_run all_results k = None
        /\ forall out, ~ DistributedIndex.merge_top_k all_results k out)
  /\ (forall (E : Type) (engine : VectorIndexEngine E) query k n_probe
             (idx idx' : DistributedIndex.t E) out,
        DistributedIndex.search query k n_probe idx idx' out -> length out = k)
  /\ (let idx := DistributedIndex.new (ShardingStrategy.HashSharding 1)
                   [FlatEngine.mk 10 2 [(7, [1; 2]%float)]] 2 in
      DistributedIndex.search_run [1; 2]%float 2 0 idx = None
      /\ (forall idx' out, ~ DistributedIndex.search [1; 2]%float 2 0 idx idx' out)
      /\ snd <$> DistributedIndex.search_run [1; 2]%float 1 0 idx = Some [mkResult 7 0]).
Proof.
  split; [apply merge_top_k_bound|]. split; [|split].
  - intros all_results k Hlt. split.
    + destruct (DistributedIndex.merge_top_k_run all_results k) as [out|] eqn:Hrun; [|done].
      apply merge_top_k_run_sound, merge_top_k_bound in Hrun. lia.
    + intros out Hm. apply merge_top_k_bound in Hm. lia.
  - intros E engine query k n_probe idx idx' out (reads & shards' & results & _ & _ & Hm).
    by eapply merge_top_k_length.
  - cbv zeta. split; [by vm_compute|]. split; [|by vm_compute].
    intros idx' out (reads & shards' & results & Hfan & _ & Hm).
    vm_compute in Hfan. destruct (reads 0%nat); [|done]. injection Hfan as _ <-.
    apply merge_top_k_bound in Hm as [Hk _]. vm_compute in Hk. lia.
Qed.

(** ** The merge: what every result looks like *)

Section MergeShape.
Import DistributedIndex.

Lemma std_unique_keys_NoDup (sorted : list result_t) :
  ascending by_key sorted -> NoDup (key <$> std_unique same_key sorted).
Proof.
  intros Hasc. destruct sorted as [|x rest]; cbn [std_unique]; [constructor|].
  apply ascending_cons in Hasc as [Hx Hrest].
  assert (Forall (fun y => key x <= key y) rest) as Hxge.
  { eapply Forall_impl; [exact Hx|]. intros y Hy. by apply by_key_false. }
  destruct (unique_after_sorted x rest Hrest Hxge) as (Hs & Hgt & _).
  apply increasing_keys_NoDup. by constructor.
Qed.

(** Every key of the sorted list keeps an entry. *)
Lemma std_unique_covers (sorted : list result_t) (r : result_t) :
  ascending by_key sorted -> r ∈ sorted ->
  exists e, e ∈ std_unique same_key sorted /\ key e = key r.
Proof.
  intros Hasc Hr. destruct sorted as [|x rest]; [by apply elem_of_nil in Hr|].
  cbn [std_unique].
  apply ascending_cons in Hasc as [Hx Hrest].
  assert (Forall (fun y => key x <= key y) rest) as Hxge.
  { eapply Forall_impl; [exact Hx|]. intros y Hy. by apply by_key_false. }
  destruct (unique_after_sorted x rest Hrest Hxge) as (_ & _ & _ & Hcov).
  apply elem_of_cons in Hr as [->|Hr].
  - exists x. split; [by left|done].
  - destruct (Hcov r Hr) as [Heq|(e & He & Heq)].
    + exists x. split; [by left|done].
    + exists e. split; [by right|done].
Qed.

End MergeShape.

(** X1. Whatever the merge of [search] returns: no key occurs twice in it,
    every entry is one of the entries the shards returned, the entries are
    in ascending order of distance, and every entry returned by a shard
    either has its key in the result or shares its key with an entry that
    no entry of the result has a greater distance than. *)
Theorem merge_result_shape (all_results : list result_t) (k : nat) (out : list result_t) :
  DistributedIndex.merge_top_k all_results k out ->
  NoDup (key <$> out)
  /\ (forall r, r ∈ out -> r ∈ all_results)
  /\ ascending DistributedIndex.by_distance out
  /\ (forall r, r ∈ all_results ->
        (exists o, o ∈ out /\ key o = key r)
        \/ (exists e, e ∈ all_results /\ key e = key r
              /\ forall o, o ∈ out -> DistributedIndex.by_distance e o = false)).
Proof.
  intros (sorted & partial & [Hperm Hasc] & _ & (Hk & Hperm' & Hasc' & Hrest) & ->).
  rewrite truncate_take.
  split; [|split; [|split]].
  - assert (NoDup (key <$> partial)) as Hnd.
    { rewrite <- Hperm'. by apply std_unique_keys_NoDup. }
    rewrite <- (take_drop k partial), fmap_app in Hnd.
    by apply NoDup_app in Hnd as [Hnd _].
  - intros r Hr. rewrite Hperm. apply std_unique_subset. rewrite Hperm'.
    apply elem_of_take in Hr as (i & Hi & _). by eapply list_elem_of_lookup_2.
  - done.
  - intros r Hr. rewrite Hperm in Hr.
    destruct (std_unique_covers sorted r Hasc Hr) as (e & He & Heq).
    rewrite Hperm', <- (take_drop k partial) in He.
    apply elem_of_app in He as [He|He].
    + left. by exists e.
    + right. exists e. split; [|split; [done|]].
      * rewrite Hperm. apply std_unique_subset. rewrite Hperm'.
        apply list_elem_of_lookup in He as [i Hi]. rewrite lookup_drop in Hi.
        by eapply list_elem_of_lookup_2.
      * intros o Ho. by apply Hrest.
Qed.

(** Two shards, one result each for key 1 and a third result for key 2. *)
Lemma merge_result_shape_witness :
  let all_results := [mkResult 1 1; mkResult 2 0.5; mkResult 2 0.5; mkResult 3 2] in
  NoDup (key <$> [mkResult 2 0.5; mkResult 1 1])
  /\ forall r, r ∈ [mkResult 2 0.5; mkResult 1 1] -> r ∈ all_results.
Proof.
  intros all_results.
  assert (DistributedIndex.merge_top_k all_results 2 [mkResult 2 0.5; mkResult 1 1]) as Hm.
  { apply merge_top_k_run_sound. vm_compute. reflexivity. }
  destruct (merge_result_shape all_results 2 _ Hm) as (H1 & H2 & _).
  split; [exact H1|exact H2].
Defined.

Section MergeChoice.
Import DistributedIndex.
Local Open Scope float_scope.

Lemma SFltb_not_nan_r (a b : spec_float) : SFltb a b = true -> SFeqb b b = true.
Proof.
  unfold SFltb, SFeqb. destruct b as [sb|sb| |sb mb eb]; cbn.
  - done.
  - by destruct sb.
  - by destruct a.
  - intros _. destruct sb; rewrite Z.compare_refl;
      change (Pos.compare_cont Eq mb mb) with (Pos.compare mb mb);
      by rewrite Pos.compare_refl.
Qed.

Lemma float_ltb_not_nan_r (x y : float) : (x <? y) = true -> is_nan y = false.
Proof.
  unfold is_nan. rewrite FloatAxioms.ltb_spec, FloatAxioms.eqb_spec.
  intros H. apply negb_false_iff. by eapply SFltb_not_nan_r.
Qed.

Lemma float_ltb_asym (x y : float) : (x <? y) = true -> (y <? x) = false.
Proof.
  intros Hxy. destruct (y <? x) eqn:Hyx; [|done].
  pose proof (float_ltb_trans _ _ _ Hxy Hyx) as Hxx.
  by rewrite float_ltb_irrefl in Hxx.
Qed.

Variables ka kb : Z.
Variables d1 d d2 : float.
Hypothesis Hkeys : ka <> kb.
Hypothesis Hd1 : (d1 <? d) = true.
Hypothesis Hd2 : (d <? d2) = true.

Let near := mkResult ka d1.
Let far := mkResult ka d2.
Let other := mkResult kb d.

Ltac solve_perm := apply permutations_Permutation; cbn; repeat constructor.

Lemma choice_outcome (first second : result_t) :
  key first = ka -> key second = ka ->
  [first; second; other] ≡ₚ [far; near; other] ->
  is_nan (distance first) = false ->
  by_distance other first = false \/ by_distance first other = false ->
  exists out,
    merge_top_k [far; near; other] 1 out
    /\ out = (if by_distance other first then [other] else [first]).
Proof.
  intros Hf Hs Hperm Hnan Hord.
  assert (is_nan d = false) as Hdn by (by eapply float_ltb_not_nan).
  assert (exists sorted, std_sort by_key [far; near; other] sorted
            /\ std_unique same_key sorted ≡ₚ [first; other]) as (sorted & Hsort & Hd).
  { destruct (Z.lt_total ka kb) as [Hlt|[Heq|Hlt]]; [|done|].
    - exists [first; second; other]. split.
      + split; [done|]. unfold ascending.
        repeat constructor; apply by_key_false; cbn; lia.
      + cbn. unfold same_key. cbn. rewrite Hf, Hs, Z.eqb_refl.
        by rewrite (proj2 (Z.eqb_neq ka kb) Hkeys).
    - exists [other; first; second]. split.
      + split; [rewrite <- Hperm; solve_perm|]. unfold ascending.
        repeat constructor; apply by_key_false; cbn; lia.
      + cbn. unfold same_key. cbn. rewrite Hf, Hs, Z.eqb_refl.
        rewrite (proj2 (Z.eqb_neq kb ka)) by done. solve_perm. }
  destruct (by_distance other first) eqn:Hof.
  - exists [other]. split; [|done].
    exists sorted, [other; first]. split; [done|]. split; [|split].
    + unfold no_nan. rewrite Hd. by repeat constructor.
    + split; [apply Permutation_length in Hd; cbn in Hd; lia|].
      split; [rewrite Hd; solve_perm|]. split.
      * cbn. unfold ascending. by repeat constructor.
      * cbn. intros x y ->%list_elem_of_singleton ->%list_elem_of_singleton.
        destruct Hord as [Hord|Hord]; [congruence|done].
    + done.
  - exists [first]. split; [|done].
    exists sorted, [first; other]. split; [done|]. split; [|split].
    + unfold no_nan. rewrite Hd. by repeat constructor.
    + split; [apply Permutation_length in Hd; cbn in Hd; lia|].
      split; [by rewrite Hd|]. split.
      * cbn. unfold ascending. by repeat constructor.
      * cbn. by intros x y ->%list_elem_of_singleton ->%list_elem_of_singleton.
    + done.
Qed.

End MergeChoice.

(** X2. Which of several entries of one key survives the deduplication is
    not fixed by the code: [std::sort] by key may leave the entries of a key
    in any order and [std::unique] keeps the first. With key [ka] reported
    at the distances [d1 < d < d2] and key [kb] at [d], a search for
    [k = 1] may return [(ka, d1)] and may as well return [(kb, d)], the
    nearer report of [ka] having been dropped. *)
Theorem merge_duplicate_choice (ka kb : Z) (d1 d d2 : float) (all_results : list result_t) :
  ka <> kb -> (d1 <? d)%float = true -> (d <? d2)%float = true ->
  all_results ≡ₚ [mkResult ka d2; mkResult ka d1; mkResult kb d] ->
  DistributedIndex.merge_top_k all_results 1 [mkResult ka d1]
  /\ DistributedIndex.merge_top_k all_results 1 [mkResult kb d].
Proof.
  intros Hk H1 H2 Hperm. split.
  - destruct (choice_outcome ka kb d1 d d2 Hk H2 (mkResult ka d1) (mkResult ka d2))
      as (out & Hm & Hout); try done.
    + apply permutations_Permutation; cbn; repeat constructor.
    + by eapply float_ltb_not_nan.
    + left. unfold DistributedIndex.by_distance. cbn. by apply float_ltb_asym.
    + unfold DistributedIndex.by_distance in Hout. cbn in Hout.
      rewrite (float_ltb_asym _ _ H1) in Hout. subst out.
      by apply (merge_top_k_perm _ _ _ _ (symmetry Hperm)).
  - destruct (choice_outcome ka kb d1 d d2 Hk H2 (mkResult ka d2) (mkResult ka d1))
      as (out & Hm & Hout); try done.
    + by eapply float_ltb_not_nan_r.
    + right. unfold DistributedIndex.by_distance. cbn. by apply float_ltb_asym.
    + unfold DistributedIndex.by_distance in Hout. cbn in Hout.
      rewrite H2 in Hout. subst out.
      by apply (merge_top_k_perm _ _ _ _ (symmetry Hperm)).
Qed.

Lemma merge_duplicate_choice_witness :
  let all_results := [mkResult 1 5; mkResult 1 0.5; mkResult 2 1] in
  DistributedIndex.merge_top_k all_results 1 [mkResult 1 0.5]
  /\ DistributedIndex.merge_top_k all_results 1 [mkResult 2 1].
Proof.
  apply (merge_duplicate_choice 1 2 0.5 1 5); [lia|reflexivity|reflexivity|reflexivity].
Defined.

(** ** Routing stays within the shards *)

Section RoutingFacts.
Import Routing.

Lemma shard_id_in_range (std_hash : Z -> Z) (strategy : ShardingStrategy.t) (k : Z) :
  constructed strategy -> (1 <= shard_count strategy)%nat -> 0 <= k < 2 ^ 64 ->
  exists strategy' i,
    ShardingStrategy.shard_id std_hash strategy k = Some (strategy', i)
    /\ (i < shard_count strategy)%nat
    /\ shard_count strategy' = shard_count strategy
    /\ constructed strategy'.
Proof.
  intros Hc Hn Hk. destruct strategy as [n|n counter|ranges_]; cbn in *.
  - rewrite decide_False by lia. eexists _, _. split; [done|]. split; [|done].
    pose proof (Z.mod_pos_bound (std_hash k) (Z.of_nat n) ltac:(lia)). lia.
  - rewrite decide_False by lia. eexists _, _. split; [done|]. split; [|done].
    pose proof (Z.mod_pos_bound counter (Z.of_nat n) ltac:(lia)). lia.
  - destruct Hc as (N & M & HN & HN64 & HM & Hnew).
    destruct (range_partition_main N M HN HN64 HM)
      as (rs & Hnew' & Hlen & _ & _ & _ & _ & Hin & Hout).
    rewrite Hnew in Hnew'. injection Hnew' as <-.
    destruct (decide (k < M)) as [Hlt|Hge].
    + destruct (Hin k ltac:(lia)) as (i & Hi & HiN & _).
      exists (ShardingStrategy.RangeSharding ranges_), i. rewrite Hi. cbn.
      split; [done|]. split; [lia|]. split; [done|]. by exists N, M.
    + exists (ShardingStrategy.RangeSharding ranges_), (N - 1)%nat.
      rewrite (Hout k ltac:(lia)). cbn.
      split; [done|]. split; [lia|]. split; [done|]. by exists N, M.
Qed.

Section Writes.
Context {E : Type} `{VectorIndexEngine E}.
Import DistributedIndex.

(** The grouping loop never indexes past [groups] when the strategy was
    built for as many shards as there are groups. *)
Lemma group_by_shard_defined (std_hash : Z -> Z) (strategy : ShardingStrategy.t)
    (items : list (Z * list float)) (groups : list (list (Z * list float))) :
  constructed strategy -> (1 <= shard_count strategy)%nat ->
  shard_count strategy = length groups -> u64_keys items ->
  exists strategy' groups',
    group_by_shard std_hash strategy items groups = Some (strategy', groups')
    /\ length groups' = length groups
    /\ shard_count strategy' = shard_count strategy
    /\ constructed strategy'.
Proof.
  revert strategy groups.
  induction items as [|[k vector] items IH]; intros strategy groups Hc Hn Hlen Hkeys.
  - exists strategy, groups. done.
  - apply Forall_cons in Hkeys as [Hk Hkeys]. cbn in Hk.
    destruct (shard_id_in_range std_hash strategy k Hc Hn Hk)
      as (strategy1 & i & Hid & Hi & Hcount & Hc1).
    cbn [group_by_shard]. rewrite Hid. cbn.
    destruct (lookup_lt_is_Some_2 groups i ltac:(lia)) as [group Hgroup].
    rewrite Hgroup. cbn.
    destruct (IH strategy1 (<[i := group ++ [(k, vector)]]> groups) Hc1)
      as (strategy' & groups' & Hrun & Hlen' & Hcount' & Hc');
      [lia|by rewrite length_insert; lia|done|].
    exists strategy', groups'. rewrite Hrun.
    split; [done|]. split; [by rewrite Hlen', length_insert|].
    split; [lia|done].
Qed.

(** The group of shard [i] under a strategy that routes by a pure function:
    what was there, then the items routed to [i], in the order given. *)
Lemma group_by_shard_pure (std_hash : Z -> Z) (strategy : ShardingStrategy.t)
    (route : Z -> nat) (items : list (Z * list float))
    (groups : list (list (Z * list float))) :
  (forall k, ShardingStrategy.shard_id std_hash strategy k = Some (strategy, route k)) ->
  (forall k, (route k < length groups)%nat) ->
  group_by_shard std_hash strategy items groups =
  Some (strategy,
        imap (fun i group => group ++ filter (fun item => route item.1 = i) items) groups).
Proof.
  intros Hroute Hbound. revert groups Hbound.
  induction items as [|[k vector] items IH]; intros groups Hbound.
  - cbn. f_equal. f_equal. apply list_eq. intros i.
    rewrite list_lookup_imap. destruct (groups !! i) as [g|]; cbn; [|done].
    by rewrite app_nil_r.
  - cbn [group_by_shard]. rewrite Hroute. cbn.
    destruct (lookup_lt_is_Some_2 groups (route k) (Hbound k)) as [group Hgroup].
    rewrite Hgroup. cbn. rewrite IH by (intros k'; rewrite length_insert; apply Hbound).
    f_equal. f_equal. apply list_eq. intros i. rewrite !list_lookup_imap.
    destruct (decide (route k = i)) as [<-|Hne].
    + rewrite list_lookup_insert_eq by (by eapply lookup_lt_Some).
      rewrite Hgroup. cbn. by rewrite <- app_assoc.
    + rewrite list_lookup_insert_ne by done.
      by destruct (groups !! i).
Qed.

Lemma dispatch_node (node : ShardNode.t E) (group : list (Z * list float)) :
  (dispatch node group).1 =
  match group with
  | [] => node
  | _ :: _ =>
      ShardNode.with_index node
        (engine_add_batch group.*1 (concat group.*2) (length group)
           (ShardNode.index_ node)).1
  end.
Proof. destruct group as [|item group]; [done|]. cbn. by rewrite length_fmap. Qed.

Lemma add_batch_defined (std_hash : Z -> Z) (items : list (Z * list float)) (idx : t E) :
  fits idx -> u64_keys items ->
  exists idx', add_batch std_hash items idx = Some (idx', true) /\ fits idx'.
Proof.
  intros (Hc & Hcount & Hn) Hkeys. unfold add_batch, add_batch_tasks.
  destruct (group_by_shard_defined std_hash (strategy_ idx) items
              (replicate (length (shards_ idx)) []) Hc ltac:(lia)
              ltac:(by rewrite length_replicate) Hkeys)
    as (strategy' & groups' & Hrun & Hlen & Hcount' & Hc').
  rewrite Hrun. cbn. eexists. split; [reflexivity|].
  rewrite length_replicate in Hlen.
  assert (length (zip_with dispatch (shards_ idx) groups').*1 = length (shards_ idx)) as Hl.
  { rewrite length_fmap, length_zip_with. lia. }
  split; [done|]. cbn. rewrite Hl. split; [lia|done].
Qed.

Lemma add_defined (std_hash : Z -> Z) (k : Z) (vector : list float) (idx : t E) :
  fits idx -> 0 <= k < 2 ^ 64 ->
  exists idx', add std_hash k vector idx = Some (idx', true) /\ fits idx'.
Proof.
  intros (Hc & Hcount & Hn) Hk. unfold add.
  destruct (shard_id_in_range std_hash (strategy_ idx) k Hc ltac:(lia) Hk)
    as (strategy' & i & Hid & Hi & Hcount' & Hc').
  rewrite Hid. cbn.
  destruct (lookup_lt_is_Some_2 (shards_ idx) i ltac:(lia)) as [node Hnode].
  rewrite Hnode. cbn. eexists. split; [reflexivity|].
  split; [done|]. cbn. rewrite length_insert. split; [lia|done].
Qed.

End Writes.

End RoutingFacts.

(** X3. On an index whose strategy was built for as many shards as the
    index has (at least one), [add_batch] with keys below [2^64] and [add]
    with such a key are defined, that is every shard index the strategy
    returns is within [shards_]; they return [true], and the index fits
    again afterwards. *)
Theorem writes_stay_in_bounds (E : Type) (engine : VectorIndexEngine E)
    (std_hash : Z -> Z) (idx : DistributedIndex.t E) :
  Routing.fits idx ->
  (forall items, Routing.u64_keys items ->
     exists idx', DistributedIndex.add_batch std_hash items idx = Some (idx', true)
                  /\ Routing.fits idx')
  /\ (forall k vector, 0 <= k < 2 ^ 64 ->
        exists idx', DistributedIndex.add std_hash k vector idx = Some (idx', true)
                     /\ Routing.fits idx').
Proof.
  intros Hfits. split.
  - intros items Hkeys. by apply add_batch_defined.
  - intros k vector Hk. by apply add_defined.
Qed.

Lemma writes_stay_in_bounds_witness :
  let idx := DistributedIndex.new (ShardingStrategy.RoundRobinSharding 2 0)
               [FlatEngine.mk 10 2 []; FlatEngine.mk 10 2 []] 2 in
  exists idx',
    DistributedIndex.add_batch (fun k => k) [(7, [1; 2]%float); (7, [1; 2]%float)] idx
      = Some (idx', true)
    /\ Routing.fits idx'.
Proof.
  intros idx.
  apply (writes_stay_in_bounds FlatEngine.t flat_engine (fun k => k) idx).
  - split; [exact I|]. split; [reflexivity|]. cbn. lia.
  - repeat constructor; cbn; lia.
Defined.

(** X4. [add_batch] under hash sharding on [n >= 1] shards: shard [i]
    receives, in one call of the engine's batch insertion, exactly the items
    whose key hashes to [i] modulo [n], in the order of the input; a shard
    to which no key hashes is left as it was. The strategy, the dimensions
    and the query counter do not change. *)
Theorem add_batch_by_hash (E : Type) (engine : VectorIndexEngine E)
    (std_hash : Z -> Z) (items : list (Z * list float)) (idx : DistributedIndex.t E)
    (n : nat) :
  DistributedIndex.strategy_ idx = ShardingStrategy.HashSharding n ->
  length (DistributedIndex.shards_ idx) = n -> (1 <= n)%nat ->
  exists idx',
    DistributedIndex.add_batch std_hash items idx = Some (idx', true)
    /\ DistributedIndex.strategy_ idx' = ShardingStrategy.HashSharding n
    /\ DistributedIndex.dimensions_ idx' = DistributedIndex.dimensions_ idx
    /\ DistributedIndex.total_queries_ idx' = DistributedIndex.total_queries_ idx
    /\ length (DistributedIndex.shards_ idx') = n
    /\ forall i node,
         DistributedIndex.shards_ idx !! i = Some node ->
         let group :=
           filter (fun item => Z.to_nat (std_hash item.1 mod Z.of_nat n) = i) items in
         DistributedIndex.shards_ idx' !! i =
         Some match group with
              | [] => node
              | _ :: _ =>
                  ShardNode.with_index node
                    (engine_add_batch group.*1 (concat group.*2) (length group)
                       (ShardNode.index_ node)).1
              end.
Proof.
  intros Hs Hlen Hn.
  unfold DistributedIndex.add_batch, DistributedIndex.add_batch_tasks. rewrite Hs, Hlen.
  rewrite (group_by_shard_pure std_hash (ShardingStrategy.HashSharding n)
             (fun k => Z.to_nat (std_hash k mod Z.of_nat n))).
  - cbn. eexists. split; [reflexivity|]. cbn.
    split; [done|]. split; [done|]. split; [done|]. split.
    + rewrite length_fmap, length_zip_with, length_imap, length_replicate. lia.
    + intros i node Hnode. rewrite list_lookup_fmap, lookup_zip_with, Hnode. cbn.
      rewrite list_lookup_imap, lookup_replicate_2 by (apply lookup_lt_Some in Hnode; lia).
      cbn. by rewrite dispatch_node.
  - intros k. cbn. by rewrite decide_False by lia.
  - intros k. rewrite length_replicate.
    pose proof (Z.mod_pos_bound (std_hash k) (Z.of_nat n) ltac:(lia)). lia.
Qed.

Lemma add_batch_by_hash_witness :
  let idx := DistributedIndex.new (ShardingStrategy.HashSharding 2)
               [FlatEngine.mk 10 2 []; FlatEngine.mk 10 2 []] 2 in
  exists idx',
    DistributedIndex.add_batch (fun k => k)
      [(0, [1; 2]%float); (1, [3; 4]%float); (3, [5; 6]%float)] idx = Some (idx', true)
    /\ DistributedIndex.strategy_ idx' = ShardingStrategy.HashSharding 2.
Proof.
  intros idx.
  destruct (add_batch_by_hash FlatEngine.t flat_engine (fun k => k)
              [(0, [1; 2]%float); (1, [3; 4]%float); (3, [5; 6]%float)] idx 2
              eq_refl eq_refl ltac:(lia)) as (idx' & Hrun & Hs & _).
  exists idx'. split; [exact Hrun|exact Hs].
Defined.

(** ** RangeSharding: the shard of a key in closed form *)

(** X5. The shard of a key under range sharding over [N >= 1] shards and
    [M] keys, in closed form: with [M < N] the ranges of all shards but the
    last are empty and every key goes to the last shard, [N - 1];
    otherwise the key [key] goes to shard [key / (M / N)], cut off at
    [N - 1]. *)
Theorem range_shard_id_closed_form (N : nat) (M : Z) (ranges_ : list RangeSharding.Range)
    (key : Z) :
  (1 <= N)%nat -> Z.of_nat N < 2 ^ 64 -> 0 <= M < 2 ^ 64 ->
  RangeSharding.new N M = Some ranges_ -> 0 <= key ->
  RangeSharding.shard_id ranges_ key =
  Some (if decide (M < Z.of_nat N) then (N - 1)%nat
        else Nat.min (Z.to_nat (key / (M / Z.of_nat N))) (N - 1)).
Proof.
  intros HN HN64 HM Hnew Hkey.
  destruct (range_partition_main N M HN HN64 HM)
    as (rs & Hnew' & _ & _ & _ & _ & _ & Hinside & Houtside).
  rewrite Hnew in Hnew'. injection Hnew' as <-.
  assert (ranges_ = map (RangeSharding.make_range N M) (seq 0 N)) as Hranges.
  { unfold RangeSharding.new in Hnew. destruct N; [lia|]. by injection Hnew as <-. }
  pose proof (kps_bounds N M HN HM) as [Hk HNk].
  set (kps := M / Z.of_nat N) in *.
  assert (M < Z.of_nat N <-> kps = 0) as Hsmall.
  { unfold kps. split.
    - intros Hlt. apply Z.div_small. lia.
    - intros H0. apply Z.div_small_iff in H0; lia. }
  destruct (decide (M <= key)) as [Hout|Hin].
  - rewrite (Houtside key Hout). f_equal.
    destruct (decide (M < Z.of_nat N)) as [Hc|Hc]; [done|].
    assert (1 <= kps) as Hk1 by (rewrite Hsmall in Hc; lia).
    assert (Z.of_nat N - 1 <= key / kps) as Hq.
    { apply Z.div_le_lower_bound; [lia|]. nia. }
    lia.
  - destruct (Hinside key ltac:(lia)) as (i & -> & Hi & Hiff). f_equal.
    assert (ranges_ !! i = Some (RangeSharding.make_range N M i)) as Hl
      by (rewrite Hranges; by apply lookup_ranges).
    pose proof (proj2 (Hiff i _ Hl) eq_refl) as Hhold.
    apply (in_range_make N M HN HM key i Hi) in Hhold as [Hlo Hhi]. fold kps in Hlo, Hhi.
    destruct (decide (M < Z.of_nat N)) as [Hc|Hc];
      destruct (decide (i = (N - 1)%nat)) as [Hlast|Hlast]; try done.
    + apply Hsmall in Hc. rewrite Hc in *. lia.
    + assert (1 <= kps) as Hk1 by (rewrite Hsmall in Hc; lia).
      assert (Z.of_nat N - 1 <= key / kps) as Hq.
      { apply Z.div_le_lower_bound; [lia|]. subst i. nia. }
      lia.
    + assert (1 <= kps) as Hk1 by (rewrite Hsmall in Hc; lia).
      assert (key / kps = Z.of_nat i) as Hq.
      { symmetry. apply (Z.div_unique key kps (Z.of_nat i) (key - Z.of_nat i * kps)); lia. }
      rewrite Hq. lia.
Qed.

Lemma range_shard_id_closed_form_witness :
  exists ranges_,
    RangeSharding.new 4 3 = Some ranges_
    /\ RangeSharding.shard_id ranges_ 0 = Some 3%nat.
Proof.
  eexists. split; [reflexivity|].
  exact (range_shard_id_closed_form 4 3 _ 0 ltac:(lia) ltac:(by vm_compute)
           ltac:(lia) eq_refl ltac:(lia)).
Defined.

(** ** Round-robin routing, and the fan-out of a search *)

Section RoundRobinFacts.

Lemma wrap64_succ (c : Z) : wrap64 (wrap64 c + 1) = wrap64 (c + 1).
Proof. unfold wrap64. by rewrite Zplus_mod_idemp_l. Qed.

Lemma round_robin_shard_ids (std_hash : Z -> Z) (n : nat) (keys : list Z) (c : Z) :
  (1 <= n)%nat ->
  Routing.shard_ids std_hash (ShardingStrategy.RoundRobinSharding n (wrap64 c)) keys =
  Some (ShardingStrategy.RoundRobinSharding n (wrap64 (c + Z.of_nat (length keys))),
        (fun j => Z.to_nat (wrap64 (c + Z.of_nat j) mod Z.of_nat n)) <$> seq 0 (length keys)).
Proof.
  intros Hn. revert c. induction keys as [|k keys IH]; intros c.
  - cbn. by rewrite Z.add_0_r.
  - cbn [Routing.shard_ids ShardingStrategy.shard_id]. rewrite decide_False by lia.
    cbn. rewrite wrap64_succ, IH. cbn. rewrite Z.add_0_r. f_equal. f_equal.
    + f_equal. f_equal. lia.
    + f_equal. rewrite <- fmap_S_seq, <- list_fmap_compose.
      apply list_fmap_ext. intros _ j _. cbn. do 3 f_equal. lia.
Qed.

Lemma residues_permutation (n : nat) (c : Z) :
  0 <= c ->
  (fun j => Z.to_nat ((c + Z.of_nat j) mod Z.of_nat n)) <$> seq 0 n ≡ₚ seq 0 n.
Proof.
  intros Hc. destruct (decide (n = 0%nat)) as [->|Hn]; [done|].
  apply submseteq_length_Permutation; [|by rewrite length_fmap].
  apply NoDup_submseteq.
  - apply NoDup_fmap_2_strong; [|apply NoDup_seq].
    intros i j Hi%elem_of_seq Hj%elem_of_seq Heq.
    apply Z2Nat.inj in Heq; try (apply Z.mod_pos_bound; lia).
    assert ((Z.of_nat i - Z.of_nat j) mod Z.of_nat n = 0) as Hdiv.
    { replace (Z.of_nat i - Z.of_nat j) with ((c + Z.of_nat i) - (c + Z.of_nat j)) by lia.
      rewrite Zminus_mod, Heq, Z.sub_diag. by apply Z.mod_0_l; lia. }
    apply Z.mod_divide in Hdiv as [q Hq]; [|lia].
    assert (q = 0) as -> by nia. lia.
  - intros i (j & -> & Hj%elem_of_seq)%list_elem_of_fmap. apply elem_of_seq.
    pose proof (Z.mod_pos_bound (c + Z.of_nat j) (Z.of_nat n) ltac:(lia)). lia.
Qed.

End RoundRobinFacts.

(** X6. Round-robin sharding on [n >= 1] shards ignores the keys: call
    number [j] (from [0]) of [shard_id] on a counter that stood at [c]
    returns [(c + j) mod 2^64 mod n] and the counter advances by one per
    call. As long as the counter does not wrap, [n] consecutive calls name
    every shard exactly once. *)
Theorem round_robin_cycle (std_hash : Z -> Z) (n : nat) (keys : list Z) (c : Z) :
  (1 <= n)%nat -> 0 <= c < 2 ^ 64 ->
  exists ids,
    Routing.shard_ids std_hash (ShardingStrategy.RoundRobinSharding n c) keys =
    Some (ShardingStrategy.RoundRobinSharding n (wrap64 (c + Z.of_nat (length keys))), ids)
    /\ ids = (fun j => Z.to_nat (wrap64 (c + Z.of_nat j) mod Z.of_nat n)) <$> seq 0 (length keys)
    /\ (length keys = n -> c + Z.of_nat n <= 2 ^ 64 -> ids ≡ₚ seq 0 n).
Proof.
  intros Hn Hc. eexists. split; [|split; [reflexivity|]].
  - rewrite <- (Z.mod_small c (2 ^ 64)) at 1 by lia. by apply round_robin_shard_ids.
  - intros <- Hwrap.
    etransitivity; [|apply (residues_permutation (length keys) c); lia].
    apply eq_subrelation; [apply _|].
    apply list_fmap_ext. intros i j Hj%lookup_seq.
    unfold wrap64. by rewrite (Z.mod_small (c + Z.of_nat j) (2 ^ 64)) by lia.
Qed.

Lemma round_robin_cycle_witness :
  Routing.shard_ids (fun k => k) (ShardingStrategy.RoundRobinSharding 3 2) [10; 10; 10] =
  Some (ShardingStrategy.RoundRobinSharding 3 5, [2; 0; 1]%nat).
Proof.
  destruct (round_robin_cycle (fun k => k) 3 [10; 10; 10] 2 ltac:(lia) ltac:(lia))
    as (ids & Hrun & -> & _).
  exact Hrun.
Defined.

Section FanOutFacts.
Context {E : Type} `{VectorIndexEngine E}.
Import DistributedIndex.

(** A task that reads its shard too late leaves the fan-out undefined. *)
Lemma fan_out_too_late (reads : nat -> capture_read) (query : list float) (k : nat)
    (targets : list nat) (shards : list (ShardNode.t E)) (i : nat) :
  (i < length targets)%nat -> reads i = TooLate ->
  fan_out reads query k targets shards = None.
Proof.
  revert reads shards i.
  induction targets as [|shard_id rest IH]; intros reads shards i Hi Hlate; cbn in Hi; [lia|].
  cbn [fan_out]. destruct i as [|i].
  - by rewrite Hlate.
  - destruct (reads 0%nat); [|done].
    destruct (shards !! shard_id) as [node|]; [|done]. cbn.
    by rewrite (IH (fun j => reads (S j)) _ i) by (done || lia).
Qed.

(** With every read in time the reads do not matter. *)
Lemma fan_out_in_time (reads : nat -> capture_read) (query : list float) (k : nat)
    (targets : list nat) (shards : list (ShardNode.t E)) :
  (forall i, (i < length targets)%nat -> reads i = InTime) ->
  fan_out reads query k targets shards = fan_out (fun _ => InTime) query k targets shards.
Proof.
  revert reads shards.
  induction targets as [|shard_id rest IH]; intros reads shards Hreads; [done|].
  cbn [fan_out]. rewrite (Hreads 0%nat) by (cbn; lia).
  destruct (shards !! shard_id) as [node|]; [|done]. cbn.
  rewrite (IH (fun j => reads (S j))); [done|].
  intros i Hi. apply Hreads. cbn. lia.
Qed.

Lemma fan_out_defined (reads : nat -> capture_read) (query : list float) (k : nat)
    (targets : list nat) (shards : list (ShardNode.t E))
    (r : list (ShardNode.t E) * list (list result_t)) :
  fan_out reads query k targets shards = Some r ->
  (forall i, (i < length targets)%nat -> reads i = InTime)
  /\ fan_out (fun _ => InTime) query k targets shards = Some r.
Proof.
  intros Hfan.
  assert (forall i, (i < length targets)%nat -> reads i = InTime) as Hreads.
  { intros i Hi. destruct (reads i) eqn:Hread; [done|].
    by rewrite (fan_out_too_late reads query k targets shards i Hi Hread) in Hfan. }
  split; [done|]. by rewrite <- (fan_out_in_time reads).
Qed.

Lemma fan_out_seq (query : list float) (k : nat) (m a : nat) (shards : list (ShardNode.t E)) :
  (a + m <= length shards)%nat ->
  fan_out (fun _ => InTime) query k (seq a m) shards =
  Some (imap (fun i node => if decide (a <= i < a + m)%nat
                            then (ShardNode.search query k node).1 else node) shards,
        (fun node => engine_search query k (ShardNode.index_ node)) <$> take m (drop a shards)).
Proof.
  revert a shards. induction m as [|m IH]; intros a shards Hlen.
  - cbn. f_equal. f_equal. apply list_eq. intros i. rewrite list_lookup_imap.
    destruct (shards !! i); [|done]. cbn. by rewrite decide_False by lia.
  - cbn [seq fan_out].
    destruct (lookup_lt_is_Some_2 shards a ltac:(lia)) as [node Hnode].
    rewrite Hnode. cbn. rewrite IH by (rewrite length_insert; lia). cbn.
    f_equal. f_equal.
    + apply list_eq. intros i. rewrite !list_lookup_imap.
      destruct (decide (i = a)) as [->|Hi].
      * rewrite list_lookup_insert_eq by lia. rewrite Hnode. cbn.
        rewrite decide_False, decide_True by lia. done.
      * rewrite list_lookup_insert_ne by done.
        destruct (shards !! i); [|done]. cbn.
        repeat case_decide; done || lia.
    + rewrite (drop_S _ _ _ Hnode). cbn. f_equal.
      by rewrite drop_insert_lt by lia.
Qed.

Lemma target_shards_seq (n_probe : nat) (idx : t E) :
  ShardingStrategy.target_shards (strategy_ idx)
    (clamp_probe n_probe (length (shards_ idx)))
  = seq 0 (Nat.min (clamp_probe n_probe (length (shards_ idx)))
             (Routing.shard_count (strategy_ idx))).
Proof. by destruct (strategy_ idx). Qed.

Lemma fan_out_targets (query : list float) (k n_probe : nat) (idx : t E) :
  let m := Nat.min (clamp_probe n_probe (length (shards_ idx)))
             (Routing.shard_count (strategy_ idx)) in
  fan_out (fun _ => InTime) query k
    (ShardingStrategy.target_shards (strategy_ idx)
       (clamp_probe n_probe (length (shards_ idx))))
    (shards_ idx) =
  Some (imap (fun i node =>
                if decide (i < m)%nat
                then ShardNode.mk (ShardNode.index_ node) (ShardNode.shard_id_ node)
                       (ShardNode.dimensions_ node)
                       (wrap64 (ShardNode.query_count_ node + 1))
                else node) (shards_ idx),
        (fun node => engine_search query k (ShardNode.index_ node)) <$> take m (shards_ idx)).
Proof.
  intros m. rewrite target_shards_seq. fold m.
  assert (m <= length (shards_ idx))%nat as Hm.
  { unfold m, clamp_probe. case_decide; lia. }
  rewrite fan_out_seq by (cbn; lia). rewrite drop_0. do 2 f_equal.
  apply imap_ext. intros i node _. cbn. repeat case_decide; done || lia.
Qed.

End FanOutFacts.

(** X18. The fan-out of [search]. The tasks are launched by a lambda that
    captures the loop variable [shard_id] by reference: an execution in
    which the task of some target reads the variable after its iteration
    has ended is undefined. In the executions in which every task reads it
    in time, [search] asks the first [m] shards and no other, whatever the
    query and the strategy, where [m] is [n_probe] (replaced by the number
    of shards if it is [0] or greater than it) cut off at the number of
    shards the strategy was built for: each of these shards counts one
    query, the other shards and all engines are unchanged, [total_queries_]
    advances by one, and the result is a merge of what the engines of the
    first [m] shards return. *)
Theorem search_defined_when_tasks_read_in_time (E : Type) (engine : VectorIndexEngine E)
    (query : list float) (k n_probe : nat) (idx : DistributedIndex.t E) :
  let targets :=
    ShardingStrategy.target_shards (DistributedIndex.strategy_ idx)
      (DistributedIndex.clamp_probe n_probe (length (DistributedIndex.shards_ idx))) in
  let m := Nat.min (DistributedIndex.clamp_probe n_probe (length (DistributedIndex.shards_ idx)))
             (Routing.shard_count (DistributedIndex.strategy_ idx)) in
  let asked :=
    imap (fun i node =>
            if decide (i < m)%nat
            then ShardNode.mk (ShardNode.index_ node) (ShardNode.shard_id_ node)
                   (ShardNode.dimensions_ node)
                   (wrap64 (ShardNode.query_count_ node + 1))
            else node) (DistributedIndex.shards_ idx) in
  let answers :=
    (fun node => engine_search query k (ShardNode.index_ node))
      <$> take m (DistributedIndex.shards_ idx) in
  targets = seq 0 m
  /\ (forall reads i, (i < m)%nat -> reads i = DistributedIndex.TooLate ->
        DistributedIndex.fan_out reads query k targets (DistributedIndex.shards_ idx) = None)
  /\ (forall reads, (forall i, (i < m)%nat -> reads i = DistributedIndex.InTime) ->
        DistributedIndex.fan_out reads query k targets (DistributedIndex.shards_ idx)
        = Some (asked, answers))
  /\ (forall idx' out,
        DistributedIndex.search query k n_probe idx idx' out <->
        idx' = DistributedIndex.mk asked (DistributedIndex.strategy_ idx)
                 (DistributedIndex.dimensions_ idx)
                 (wrap64 (DistributedIndex.total_queries_ idx + 1))
        /\ DistributedIndex.merge_top_k (DistributedIndex.gather answers) k out).
Proof.
  intros targets m asked answers.
  assert (targets = seq 0 m) as Htargets by apply target_shards_seq.
  assert (length targets = m) as Hlen by (by rewrite Htargets, length_seq).
  assert (DistributedIndex.fan_out (fun _ => DistributedIndex.InTime) query k targets
            (DistributedIndex.shards_ idx) = Some (asked, answers)) as Hrun
    by apply fan_out_targets.
  split; [done|]. split; [|split].
  - intros reads i Hi Hlate. apply (fan_out_too_late reads query k targets _ i); [lia|done].
  - intros reads Hreads. rewrite fan_out_in_time; [done|].
    intros i Hi. apply Hreads. lia.
  - intros idx' out. split.
    + intros (reads & shards' & results & Hfan & -> & Hmerge).
      apply fan_out_defined in Hfan as [_ Hfan]. fold targets in Hfan.
      rewrite Hrun in Hfan. by injection Hfan as <- <-.
    + intros [-> Hmerge]. by exists (fun _ => DistributedIndex.InTime), asked, answers.
Qed.

(** ** Saving and loading the shards *)

Section PersistenceFacts.
Context {E store : Type} `{VectorIndexEngine E} `{EngineFiles E store}.
Import Persistence.

Lemma shard_path_inj (base_path : string) (a b : ShardNode.t E) :
  shard_path base_path a = shard_path base_path b ->
  ShardNode.shard_id_ a = ShardNode.shard_id_ b.
Proof.
  unfold shard_path. intros Heq.
  apply String.app_inj in Heq. apply String.app_inj in Heq.
  apply string_app_inj_r in Heq. by apply pretty_nat_inj in Heq.
Qed.

Lemma numbered_paths (base_path : string) (shards : list (ShardNode.t E)) :
  numbered shards -> NoDup (shard_path base_path <$> shards).
Proof.
  intros Hnum. apply NoDup_alt. intros i j p Hi Hj.
  rewrite list_lookup_fmap in Hi, Hj.
  destruct (shards !! i) as [a|] eqn:Ha; [|done].
  destruct (shards !! j) as [b|] eqn:Hb; [|done].
  cbn in Hi, Hj. injection Hi as <-. injection Hj as Hj.
  apply shard_path_inj in Hj.
  by rewrite <- (Hnum i a Ha), <- (Hnum j b Hb).
Qed.

Lemma numbered_same_ids (shards shards' : list (ShardNode.t E)) :
  ShardNode.shard_id_ <$> shards' = ShardNode.shard_id_ <$> shards ->
  numbered shards -> numbered shards'.
Proof.
  intros Hids Hnum i node Hnode.
  assert ((ShardNode.shard_id_ <$> shards) !! i = Some (ShardNode.shard_id_ node)) as Hi.
  { by rewrite <- Hids, list_lookup_fmap, Hnode. }
  rewrite list_lookup_fmap in Hi.
  destruct (shards !! i) as [node0|] eqn:Hnode0; [|done].
  injection Hi as <-. by apply Hnum.
Qed.

Lemma new_numbered (strategy : ShardingStrategy.t) (engines : list E) (dimensions : nat) :
  numbered (DistributedIndex.shards_ (DistributedIndex.new strategy engines dimensions)).
Proof.
  intros i node. cbn. rewrite list_lookup_imap.
  destruct (engines !! i); [|done]. cbn. by intros [= <-].
Qed.

Lemma add_same_ids (std_hash : Z -> Z) (k : Z) (vector : list float)
    (idx idx' : DistributedIndex.t E) (ok : bool) :
  DistributedIndex.add std_hash k vector idx = Some (idx', ok) ->
  ShardNode.shard_id_ <$> DistributedIndex.shards_ idx'
  = ShardNode.shard_id_ <$> DistributedIndex.shards_ idx.
Proof.
  unfold DistributedIndex.add. intros Hadd.
  destruct (ShardingStrategy.shard_id std_hash (DistributedIndex.strategy_ idx) k)
    as [[strategy' i]|]; [|done].
  cbn in Hadd. destruct (DistributedIndex.shards_ idx !! i) as [node|] eqn:Hnode; [|done].
  cbn in Hadd. injection Hadd as <- _. cbn.
  rewrite list_fmap_insert. cbn. apply list_insert_id.
  by rewrite list_lookup_fmap, Hnode.
Qed.

Lemma dispatch_same_id (node : ShardNode.t E) (group : list (Z * list float)) :
  ShardNode.shard_id_ (DistributedIndex.dispatch node group).1 = ShardNode.shard_id_ node.
Proof. by destruct group. Qed.

Lemma group_by_shard_length (std_hash : Z -> Z) (items : list (Z * list float))
    (strategy strategy' : ShardingStrategy.t) (groups groups' : list (list (Z * list float))) :
  DistributedIndex.group_by_shard std_hash strategy items groups = Some (strategy', groups') ->
  length groups' = length groups.
Proof.
  revert strategy groups. induction items as [|[k vector] items IH]; intros strategy groups.
  - cbn. by intros [= _ <-].
  - cbn. destruct (ShardingStrategy.shard_id std_hash strategy k) as [[strategy1 i]|]; [|done].
    cbn. destruct (groups !! i) as [group|]; [|done]. cbn.
    intros Hrest%IH. by rewrite length_insert in Hrest.
Qed.

Lemma zip_dispatch_same_ids (shards : list (ShardNode.t E))
    (groups : list (list (Z * list float))) :
  length groups = length shards ->
  ShardNode.shard_id_ <$> (zip_with DistributedIndex.dispatch shards groups).*1
  = ShardNode.shard_id_ <$> shards.
Proof.
  revert groups. induction shards as [|node shards IH]; intros [|group groups] Hlen;
    try done.
  cbn. rewrite dispatch_same_id. f_equal. apply IH. cbn in Hlen. lia.
Qed.

Lemma add_batch_same_ids (std_hash : Z -> Z) (items : list (Z * list float))
    (idx idx' : DistributedIndex.t E) (ok : bool) :
  DistributedIndex.add_batch std_hash items idx = Some (idx', ok) ->
  ShardNode.shard_id_ <$> DistributedIndex.shards_ idx'
  = ShardNode.shard_id_ <$> DistributedIndex.shards_ idx.
Proof.
  unfold DistributedIndex.add_batch, DistributedIndex.add_batch_tasks. intros Hadd.
  destruct (DistributedIndex.group_by_shard std_hash (DistributedIndex.strategy_ idx) items
              (replicate (length (DistributedIndex.shards_ idx)) []))
    as [[strategy' groups']|] eqn:Hgroups; [|done].
  cbn in Hadd. injection Hadd as <- _. cbn.
  apply zip_dispatch_same_ids.
  apply group_by_shard_length in Hgroups. by rewrite length_replicate in Hgroups.
Qed.

Lemma search_same_ids (query : list float) (k n_probe : nat)
    (idx idx' : DistributedIndex.t E) (out : list result_t) :
  DistributedIndex.search query k n_probe idx idx' out ->
  ShardNode.shard_id_ <$> DistributedIndex.shards_ idx'
  = ShardNode.shard_id_ <$> DistributedIndex.shards_ idx.
Proof.
  intros (reads & shards' & results & Hfan & -> & _).
  apply fan_out_defined in Hfan as [_ Hfan]. rewrite fan_out_targets in Hfan.
  injection Hfan as <- _. cbn.
  apply list_eq. intros i. rewrite !list_lookup_fmap, list_lookup_imap.
  destruct (DistributedIndex.shards_ idx !! i); [|done]. cbn. by case_decide.
Qed.

Lemma load_shards_same_ids (base_path : string) (files : store)
    (shards : list (ShardNode.t E)) :
  ShardNode.shard_id_ <$> (load_shards base_path files shards).1
  = ShardNode.shard_id_ <$> shards.
Proof.
  induction shards as [|node shards IH]; [done|].
  cbn. unfold load.
  destruct (engine_load (shard_path base_path node) files (ShardNode.index_ node))
    as [index [|]]; [|done].
  destruct (load_shards base_path files shards) as [rest' ok']. cbn in *. by rewrite IH.
Qed.

Lemma reachable_numbered (std_hash : Z -> Z) (idx : DistributedIndex.t E) :
  reachable std_hash idx -> numbered (DistributedIndex.shards_ idx).
Proof.
  induction 1 as [strategy engines dimensions
                 |idx k vector idx' ok _ IH Hadd
                 |idx items idx' ok _ IH Hadd
                 |idx query k n_probe idx' out _ IH Hsearch
                 |idx base_path files idx' ok _ IH Hload].
  - apply new_numbered.
  - eapply numbered_same_ids; [|exact IH]. by eapply add_same_ids.
  - eapply numbered_same_ids; [|exact IH]. by eapply add_batch_same_ids.
  - eapply numbered_same_ids; [|exact IH]. by eapply search_same_ids.
  - eapply numbered_same_ids; [|exact IH].
    unfold load_all in Hload.
    pose proof (load_shards_same_ids base_path files (DistributedIndex.shards_ idx)) as Hids.
    destruct (load_shards base_path files (DistributedIndex.shards_ idx)) as [shards' ok'].
    by injection Hload as <- _.
Qed.

(** The saves of [save_shards] leave a file that none of them names. *)
Lemma save_shards_elsewhere (base_path : string) (shards : list (ShardNode.t E))
    (files : store) (other : string) :
  save_elsewhere -> other ∉ shard_path base_path <$> shards ->
  forall e0, engine_load other (save_shards base_path shards files).1 e0
             = engine_load other files e0.
Proof.
  intros Hframe. revert files. induction shards as [|node shards IH]; intros files Hother e0;
    [done|].
  cbn in Hother. apply not_elem_of_cons in Hother as [Hne Hother].
  cbn. unfold save.
  destruct (engine_save (shard_path base_path node) (ShardNode.index_ node) files)
    as [files1 ok] eqn:Hsave.
  assert (engine_load other files1 e0 = engine_load other files e0) as Hstep
    by (by eapply Hframe).
  destruct ok; [|done]. by rewrite IH.
Qed.

Lemma save_shards_loadable (base_path : string) (shards : list (ShardNode.t E))
    (files files' : store) :
  save_then_load -> save_elsewhere ->
  NoDup (shard_path base_path <$> shards) ->
  save_shards base_path shards files = (files', true) ->
  forall node, node ∈ shards ->
    forall e0, engine_load (shard_path base_path node) files' e0 = (ShardNode.index_ node, true).
Proof.
  intros Hload Hframe. revert files.
  induction shards as [|first shards IH]; intros files Hnodup Hsave node Hnode e0.
  - by apply elem_of_nil in Hnode.
  - cbn in Hnodup. apply NoDup_cons in Hnodup as [Hfresh Hnodup].
    cbn in Hsave. unfold save in Hsave.
    destruct (engine_save (shard_path base_path first) (ShardNode.index_ first) files)
      as [files1 [|]] eqn:Hfirst; [|done].
    apply elem_of_cons in Hnode as [->|Hnode].
    + pose proof (save_shards_elsewhere base_path shards files1 _ Hframe Hfresh e0) as Hkeep.
      rewrite Hsave in Hkeep. cbn in Hkeep. rewrite Hkeep. by eapply Hload.
    + by eapply IH.
Qed.

Lemma load_shards_saved (base_path : string) (files : store)
    (shards0 shards : list (ShardNode.t E)) :
  Forall2 (fun node0 node =>
             ShardNode.shard_id_ node0 = ShardNode.shard_id_ node
             /\ forall e0, engine_load (shard_path base_path node) files e0
                           = (ShardNode.index_ node, true)) shards0 shards ->
  load_shards base_path files shards0 =
  (zip_with (fun node0 node => ShardNode.with_index node0 (ShardNode.index_ node))
     shards0 shards, true).
Proof.
  induction 1 as [|node0 node shards0 shards [Hid Hload] _ IH]; [done|].
  cbn. unfold load.
  assert (shard_path base_path node0 = shard_path base_path node) as ->
    by (unfold shard_path; by rewrite Hid).
  rewrite Hload. by rewrite IH.
Qed.

Lemma load_shards_false (base_path : string) (files : store)
    (shards shards' : list (ShardNode.t E)) :
  load_shards base_path files shards = (shards', false) ->
  exists i node,
    shards !! i = Some node
    /\ (load (shard_path base_path node) files node).2 = false
    /\ shards' = ((fun n => (load (shard_path base_path n) files n).1) <$> take (S i) shards)
                 ++ drop (S i) shards
    /\ forall j n, (j < i)%nat -> shards !! j = Some n ->
         (load (shard_path base_path n) files n).2 = true.
Proof.
  revert shards'. induction shards as [|first shards IH]; intros shards'; [done|].
  cbn [load_shards].
  destruct (load (shard_path base_path first) files first) as [first' ok] eqn:Hfirst.
  destruct ok.
  - destruct (load_shards base_path files shards) as [rest' ok'] eqn:Hrest.
    intros [= <- ->].
    destruct (IH rest' eq_refl) as (i & node & Hi & Hfail & Heq & Hbefore).
    exists (S i), node. split; [done|]. split; [done|]. split.
    + cbn [take drop fmap list_fmap app]. rewrite Hfirst. cbn. by rewrite Heq.
    + intros [|j] n Hj Hn.
      * cbn in Hn. injection Hn as <-. by rewrite Hfirst.
      * cbn in Hn. apply (Hbefore j n); [lia|done].
  - intros [= <-]. exists 0%nat, first. split; [done|]. split; [by rewrite Hfirst|].
    split; [|intros j n Hj; lia].
    cbn. rewrite Hfirst. cbn. by rewrite drop_0.
Qed.

End PersistenceFacts.

(** X7. In every index reached from the constructor by [add], [add_batch],
    [search] and [load_all], the shard at position [i] carries the id [i];
    so the file names that [save_all] and [load_all] build for the shards
    are pairwise different. *)
Theorem shard_files_distinct (E store : Type) (engine : VectorIndexEngine E)
    (engine_files : EngineFiles E store) (std_hash : Z -> Z) (base_path : string)
    (idx : DistributedIndex.t E) :
  Persistence.reachable std_hash idx ->
  (forall i node, DistributedIndex.shards_ idx !! i = Some node ->
                  ShardNode.shard_id_ node = i)
  /\ NoDup (Persistence.shard_path base_path <$> DistributedIndex.shards_ idx).
Proof.
  intros Hreach. apply reachable_numbered in Hreach.
  split; [exact Hreach|by apply numbered_paths].
Qed.

Lemma shard_files_distinct_witness :
  let idx := DistributedIndex.new (ShardingStrategy.HashSharding 2)
               [FlatEngine.mk 10 2 []; FlatEngine.mk 10 2 []] 2 in
  NoDup (Persistence.shard_path "idx" <$> DistributedIndex.shards_ idx).
Proof.
  intros idx.
  apply (shard_files_distinct FlatEngine.t FlatFiles.t flat_engine flat_files
           (fun k => k) "idx" idx).
  apply Persistence.reach_new.
Defined.

(** X8. [save_all] returns [false] exactly when the save of some shard
    fails after the saves of all shards before it succeeded; the files are
    then as that failed save left them: no later shard was saved. *)
Theorem save_all_fails_fast (E store : Type) (engine_files : EngineFiles E store)
    (base_path : string) (idx : DistributedIndex.t E) (files files' : store) :
  Persistence.save_all base_path idx files = (files', false) <->
  exists i node files_i,
    DistributedIndex.shards_ idx !! i = Some node
    /\ Persistence.save_shards base_path (take i (DistributedIndex.shards_ idx)) files
       = (files_i, true)
    /\ Persistence.save (Persistence.shard_path base_path node) node files_i
       = (files', false).
Proof.
  unfold Persistence.save_all. generalize (DistributedIndex.shards_ idx). clear idx.
  intros shards. revert files. induction shards as [|first shards IH]; intros files.
  - split; [done|]. by intros (i & node & files_i & Hi & _).
  - cbn [Persistence.save_shards].
    destruct (Persistence.save (Persistence.shard_path base_path first) first files)
      as [files1 ok] eqn:Hfirst.
    destruct ok.
    + rewrite IH. split.
      * intros (i & node & files_i & Hi & Hbefore & Hfail).
        exists (S i), node, files_i. cbn. by rewrite Hfirst.
      * intros ([|i] & node & files_i & Hi & Hbefore & Hfail).
        -- cbn in Hi, Hbefore. injection Hi as <-. injection Hbefore as <-. congruence.
        -- cbn in Hi, Hbefore. rewrite Hfirst in Hbefore. by exists i, node, files_i.
    + split.
      * intros [= <-]. by exists 0%nat, first, files.
      * intros ([|i] & node & files_i & Hi & Hbefore & Hfail).
        -- cbn in Hi, Hbefore. injection Hi as <-. injection Hbefore as <-. congruence.
        -- cbn in Hbefore. by rewrite Hfirst in Hbefore.
Qed.

(** X9. If a load after a successful save to the same path yields the
    engine saved, and a save does not change what a load finds at another
    path, then after a successful [save_all] of an index whose shards carry
    their positions as ids, [load_all] with the same base path into an
    index of as many shards, numbered likewise, succeeds and gives every
    shard the engine of the shard saved at its position, leaving anything
    else unchanged. *)
Theorem save_all_load_all_round_trip (E store : Type) (engine_files : EngineFiles E store)
    (base_path : string) (idx idx0 : DistributedIndex.t E) (files files' : store) :
  Persistence.save_then_load -> Persistence.save_elsewhere ->
  Persistence.numbered (DistributedIndex.shards_ idx) ->
  Persistence.numbered (DistributedIndex.shards_ idx0) ->
  length (DistributedIndex.shards_ idx0) = length (DistributedIndex.shards_ idx) ->
  Persistence.save_all base_path idx files = (files', true) ->
  Persistence.load_all base_path files' idx0 =
  (DistributedIndex.mk
     (zip_with (fun node0 node => ShardNode.with_index node0 (ShardNode.index_ node))
        (DistributedIndex.shards_ idx0) (DistributedIndex.shards_ idx))
     (DistributedIndex.strategy_ idx0) (DistributedIndex.dimensions_ idx0)
     (DistributedIndex.total_queries_ idx0), true).
Proof.
  intros Hload Hframe Hnum Hnum0 Hlen Hsave. unfold Persistence.load_all.
  rewrite (load_shards_saved base_path files' _ (DistributedIndex.shards_ idx)); [done|].
  apply Forall2_same_length_lookup. split; [done|].
  intros i node0 node Hnode0 Hnode. split.
  - by rewrite (Hnum0 i node0 Hnode0), (Hnum i node Hnode).
  - intros e0. eapply save_shards_loadable; try done.
    + by apply numbered_paths.
    + by eapply list_elem_of_lookup_2.
Qed.

Lemma save_all_load_all_round_trip_witness :
  let idx := DistributedIndex.new (ShardingStrategy.HashSharding 2)
               [FlatEngine.mk 10 2 [(1, [1; 0]%float)]; FlatEngine.mk 10 2 [(2, [0; 1]%float)]] 2 in
  let idx0 := DistributedIndex.new (ShardingStrategy.HashSharding 2)
               [FlatEngine.mk 10 2 []; FlatEngine.mk 10 2 []] 2 in
  (Persistence.load_all "idx"
     (Persistence.save_all "idx" idx (FlatFiles.mk ∅ 5)).1 idx0).1 = idx.
Proof.
  intros idx idx0.
  rewrite (save_all_load_all_round_trip FlatEngine.t FlatFiles.t flat_files "idx" idx idx0
             (FlatFiles.mk ∅ 5) (Persistence.save_all "idx" idx (FlatFiles.mk ∅ 5)).1).
  - reflexivity.
  - intros path e files files' Hsave e0. unfold engine_save in Hsave. cbn in Hsave.
    unfold FlatFiles.save in Hsave. destruct (FlatFiles.space files); [done|].
    injection Hsave as <-. cbn. unfold FlatFiles.load. cbn. by rewrite lookup_insert_eq.
  - intros path other e files files' ok Hsave Hne e0. unfold engine_save in Hsave.
    cbn in Hsave. unfold FlatFiles.save in Hsave. destruct (FlatFiles.space files).
    + by injection Hsave as <- _.
    + injection Hsave as <- _. cbn. unfold FlatFiles.load. cbn.
      by rewrite lookup_insert_ne.
  - intros i node Hnode. destruct i as [|[|i]]; cbn in Hnode; by simplify_eq.
  - intros i node Hnode. destruct i as [|[|i]]; cbn in Hnode; by simplify_eq.
  - reflexivity.
  - by vm_compute.
Defined.

(** X10. When [load_all] returns [false], the load of some shard [i] failed
    and the loads of all shards before it succeeded: the shards up to [i]
    hold what their loads left in them and the shards after [i] are
    untouched. *)
Theorem load_all_stops_at_first_failure (E store : Type) (engine_files : EngineFiles E store)
    (base_path : string) (files : store) (idx idx' : DistributedIndex.t E) :
  Persistence.load_all base_path files idx = (idx', false) ->
  exists i node,
    DistributedIndex.shards_ idx !! i = Some node
    /\ (Persistence.load (Persistence.shard_path base_path node) files node).2 = false
    /\ (forall j n, (j < i)%nat -> DistributedIndex.shards_ idx !! j = Some n ->
          (Persistence.load (Persistence.shard_path base_path n) files n).2 = true)
    /\ DistributedIndex.shards_ idx' =
         ((fun n => (Persistence.load (Persistence.shard_path base_path n) files n).1)
            <$> take (S i) (DistributedIndex.shards_ idx))
         ++ drop (S i) (DistributedIndex.shards_ idx).
Proof.
  unfold Persistence.load_all. intros Hload.
  destruct (Persistence.load_shards base_path files (DistributedIndex.shards_ idx))
    as [shards' ok] eqn:Hshards.
  injection Hload as <- ->. cbn.
  destruct (load_shards_false base_path files _ _ Hshards)
    as (i & node & Hi & Hfail & Heq & Hbefore).
  by exists i, node.
Qed.

Lemma load_all_stops_at_first_failure_witness :
  let idx := DistributedIndex.new (ShardingStrategy.HashSharding 3)
               [FlatEngine.mk 10 2 []; FlatEngine.mk 10 2 []; FlatEngine.mk 10 2 []] 2 in
  let files := FlatFiles.mk {[ "idx_shard_0.usearch" := FlatEngine.mk 10 2 [(1, [1; 0]%float)];
                               "idx_shard_2.usearch" := FlatEngine.mk 10 2 [(2, [0; 1]%float)] ]} 5 in
  exists i node,
    DistributedIndex.shards_ idx !! i = Some node
    /\ (Persistence.load (Persistence.shard_path "idx" node) files node).2 = false.
Proof.
  intros idx files.
  destruct (load_all_stops_at_first_failure FlatEngine.t FlatFiles.t flat_files "idx" files idx
              (Persistence.load_all "idx" files idx).1 ltac:(by vm_compute))
    as (i & node & Hi & Hfail & _).
  by exists i, node.
Defined.

(** ** The checkpoint loop and the restore *)

Section CheckpointLoopFacts.
Import CheckpointManager CheckpointLoop.

Lemma checkpoint_loop_create_all (rounds : list round) (m : t) :
  checkpoint_loop rounds m =
  ((create_all (saved rounds) m).1,
   replicate (length (failed rounds)) "[Checkpoint] Error: Failed to create checkpoint").
Proof.
  revert m. induction rounds as [|[|[|] now size] rounds IH]; intros m.
  - done.
  - done.
  - cbn [checkpoint_loop create_all saved failed]. unfold create_checkpoint.
    destruct (cleanup_old _ _ _) as [cps files]. rewrite IH.
    by destruct (create_all (saved rounds) _).
  - cbn [checkpoint_loop create_checkpoint saved failed]. by rewrite IH.
Qed.

Lemma last_drop {A : Type} (l : list A) (n : nat) :
  (n < length l)%nat -> last (drop n l) = last l.
Proof.
  intros Hn. rewrite !last_lookup, lookup_drop, length_drop. f_equal. lia.
Qed.

End CheckpointLoopFacts.

(** X11. The background loop of the checkpoint manager with any pattern of
    failing saves, up to the pass that finds [running_] false, from a fresh
    manager with [max_checkpoints >= 1] and fewer than [2^64] successful
    saves [g]: a failed save leaves no trace but the line
    [[Checkpoint] Error: Failed to create checkpoint] on [std::cerr]; the
    retained checkpoints carry the ids of the last [min(g, max_checkpoints)]
    of [1 .. g], each with the path built from its id and its file on
    disk. *)
Theorem checkpoint_loop_skips_failed_saves (dir : string) (max_checkpoints : nat)
    (disk0 : gset string) (rounds : list CheckpointLoop.round) :
  let g := length (CheckpointLoop.saved rounds) in
  let m := (CheckpointLoop.checkpoint_loop rounds
              (CheckpointManager.new dir max_checkpoints disk0)).1 in
  let cerr := (CheckpointLoop.checkpoint_loop rounds
                 (CheckpointManager.new dir max_checkpoints disk0)).2 in
  Z.of_nat g < 2 ^ 64 -> (1 <= max_checkpoints)%nat ->
  (CheckpointManager.id <$> CheckpointManager.checkpoints_ m)
    = (fun i => Z.of_nat i + 1) <$> seq (g - max_checkpoints) (Nat.min g max_checkpoints)
  /\ (forall cp, cp ∈ CheckpointManager.checkpoints_ m ->
        CheckpointManager.path cp = CheckpointManager.checkpoint_path dir (CheckpointManager.id cp)
        /\ CheckpointManager.path cp ∈ CheckpointManager.disk m)
  /\ cerr = replicate (length (CheckpointLoop.failed rounds))
             "[Checkpoint] Error: Failed to create checkpoint".
Proof.
  intros g m cerr Hg Hmax. subst m cerr. rewrite checkpoint_loop_create_all. cbn [fst snd].
  destruct (create_all_history (CheckpointLoop.saved rounds)
              (CheckpointManager.new dir max_checkpoints disk0) []
              (new_history_inv dir max_checkpoints disk0) Hg)
    as (m' & created & Hall & Hlen & Hdir & Hmaxeq & Hinv).
  rewrite Hall. cbn [fst]. cbn in Hdir, Hmaxeq, Hinv.
  destruct Hinv as [Hret Hpath Hpres Hev Hnum]. rewrite Hmaxeq in *. rewrite Hdir in *.
  fold g in Hlen. split; [|split; [|done]].
  - rewrite Hret, Hlen. apply list_eq. intros i.
    rewrite !list_lookup_fmap, lookup_drop.
    destruct (decide (i < Nat.min g max_checkpoints)%nat) as [Hi|Hi].
    + rewrite lookup_seq_lt by done. cbn.
      destruct (lookup_lt_is_Some_2 created (g - max_checkpoints + i) ltac:(lia)) as [cp Hcp].
      rewrite Hcp. cbn. f_equal. by apply (Hnum Hmax).
    + rewrite lookup_seq_ge by lia. rewrite lookup_ge_None_2 by lia. done.
  - intros cp Hcp. split; [|by apply Hpres].
    apply Hpath. rewrite Hret in Hcp.
    apply list_elem_of_lookup in Hcp as [i Hi]. rewrite lookup_drop in Hi.
    by eapply list_elem_of_lookup_2.
Qed.

Lemma checkpoint_loop_skips_failed_saves_witness :
  let rounds := [CheckpointLoop.Due true 10 1000; CheckpointLoop.Due false 20 1000;
                 CheckpointLoop.Due true 30 2000; CheckpointLoop.Due true 40 2000;
                 CheckpointLoop.Stopped] in
  (CheckpointManager.id <$> CheckpointManager.checkpoints_
     (CheckpointLoop.checkpoint_loop rounds
        (CheckpointManager.new "/tmp/checkpoints" 2 ∅)).1) = [2; 3].
Proof.
  intros rounds.
  destruct (checkpoint_loop_skips_failed_saves "/tmp/checkpoints" 2 ∅ rounds
              ltac:(by vm_compute) ltac:(lia)) as (Hids & _).
  exact Hids.
Defined.

(** X12. [restore_latest] after [n < 2^64] successful checkpoints on a
    fresh manager: with [max_checkpoints = 0] or [n = 0] it returns [false]
    (nothing is retained); otherwise it returns what the shard's load
    of the file of checkpoint [n] returns, and that file is on disk. *)
Theorem restore_latest_loads_newest (dir : string) (max_checkpoints : nat)
    (disk0 : gset string) (inputs : list (Z * Z)) (load_ok : string -> bool) :
  Z.of_nat (length inputs) < 2 ^ 64 ->
  let m := (CheckpointManager.create_all inputs
              (CheckpointManager.new dir max_checkpoints disk0)).1 in
  let newest := CheckpointManager.checkpoint_path dir (Z.of_nat (length inputs)) in
  (max_checkpoints = 0%nat \/ inputs = [] ->
     CheckpointManager.restore_latest load_ok m = false)
  /\ ((1 <= max_checkpoints)%nat -> inputs <> [] ->
        CheckpointManager.restore_latest load_ok m = load_ok newest
        /\ newest ∈ CheckpointManager.disk m).
Proof.
  intros Hlen m newest. subst m newest.
  destruct (create_all_history inputs (CheckpointManager.new dir max_checkpoints disk0) []
              (new_history_inv dir max_checkpoints disk0) Hlen)
    as (m' & created & Hall & Hlen' & Hdir & Hmaxeq & Hinv).
  rewrite Hall. cbn [fst]. cbn in Hdir, Hmaxeq, Hinv.
  destruct Hinv as [Hret Hpath Hpres Hev Hnum]. rewrite Hmaxeq in *. rewrite Hdir in *.
  unfold CheckpointManager.restore_latest. split.
  - intros Hnone. rewrite Hret.
    assert (drop (length created - max_checkpoints) created = []) as ->; [|done].
    destruct Hnone as [->| ->].
    + rewrite Nat.sub_0_r. apply drop_all.
    + destruct created; [done|]. cbn in Hlen'. lia.
  - intros Hmax Hne.
    assert (1 <= length inputs)%nat as Hpos by (destruct inputs; [done|cbn; lia]).
    destruct (lookup_lt_is_Some_2 created (length created - 1) ltac:(lia)) as [cp Hcp].
    assert (last (CheckpointManager.checkpoints_ m') = Some cp) as Hlast.
    { rewrite Hret, last_drop by lia. rewrite last_lookup.
      by replace (pred (length created)) with (length created - 1)%nat by lia. }
    assert (CheckpointManager.path cp
            = CheckpointManager.checkpoint_path dir (Z.of_nat (length inputs))) as Hnewest.
    { rewrite (Hpath cp) by (by eapply list_elem_of_lookup_2).
      rewrite (Hnum Hmax _ _ Hcp). f_equal. lia. }
    rewrite Hlast, <- Hnewest. split; [done|].
    apply Hpres. rewrite last_lookup in Hlast. by eapply list_elem_of_lookup_2.
Qed.

Lemma restore_latest_loads_newest_witness :
  let m := (CheckpointManager.create_all [(10, 1000); (20, 2000); (30, 2000)]
              (CheckpointManager.new "/tmp/checkpoints" 2 ∅)).1 in
  CheckpointManager.restore_latest
    (fun p => bool_decide (p = "/tmp/checkpoints/checkpoint_3.usearch")) m = true.
Proof.
  intros m.
  destruct (restore_latest_loads_newest "/tmp/checkpoints" 2 ∅
              [(10, 1000); (20, 2000); (30, 2000)]
              (fun p => bool_decide (p = "/tmp/checkpoints/checkpoint_3.usearch"))
              ltac:(by vm_compute)) as [_ Hnewest].
  destruct (Hnewest ltac:(lia) ltac:(done)) as [Hrestore _].
  exact Hrestore.
Defined.

(** ** FailureDetector: the node table over a history *)

Section MembershipFacts.
Import FailureDetector Membership.

Lemma added_cons (e : event) (events : list event) :
  added (e :: events) = added [e] ∪ added events.
Proof.
  destruct e; unfold added; cbn; by rewrite ?union_empty_l_L, ?union_empty_r_L.
Qed.

Lemma step_dom (s : t * list string) (e : event) :
  dom (nodes_ (step s e).1) = dom (nodes_ s.1) ∪ added [e].
Proof.
  destruct s as [d log]. destruct e as [addr now|addr now| |clock]; cbn [step fst];
    unfold added.
  - cbn. rewrite dom_insert_L, union_empty_r_L. apply (comm_L (∪)).
  - unfold heartbeat.
    destruct (nodes_ d !! addr) as [status|] eqn:Hl; cbn; rewrite union_empty_r_L; [|done].
    rewrite dom_insert_L. apply subseteq_union_1_L, singleton_subseteq_l.
    by apply elem_of_dom_2 in Hl.
  - cbn. by rewrite union_empty_r_L.
  - change (dom (nodes_ (detect_tick clock d).1) = dom (nodes_ d) ∪ ∅).
    rewrite union_empty_r_L.
    apply set_eq. intros a. rewrite !elem_of_dom, detect_tick_lookup.
    by rewrite fmap_is_Some.
Qed.

Lemma step_keyed (s : t * list string) (e : event) :
  (forall a status, nodes_ s.1 !! a = Some status -> address status = a) ->
  forall a status, nodes_ (step s e).1 !! a = Some status -> address status = a.
Proof.
  destruct s as [d log]. cbn [fst]. intros Hkeyed a status.
  destruct e as [addr now|addr now| |clock]; cbn [step fst].
  - cbn. destruct (decide (addr = a)) as [->|Hne].
    + rewrite lookup_insert_eq. by intros [= <-].
    + rewrite lookup_insert_ne by done. apply Hkeyed.
  - unfold heartbeat. destruct (nodes_ d !! addr) as [old|] eqn:Hold; cbn; [|apply Hkeyed].
    destruct (decide (addr = a)) as [->|Hne].
    + rewrite lookup_insert_eq. intros [= <-]. cbn. by apply Hkeyed.
    + rewrite lookup_insert_ne by done. apply Hkeyed.
  - apply Hkeyed.
  - change (nodes_ (detect_tick clock d).1 !! a = Some status -> address status = a).
    rewrite detect_tick_lookup. destruct (nodes_ d !! a) as [old|] eqn:Hold; [|done].
    cbn. intros [= <-]. unfold detect_node.
    repeat case_match; cbn; by apply Hkeyed.
Qed.

Lemma step_timeout (s : t * list string) (e : event) :
  heartbeat_timeout_ (step s e).1 = heartbeat_timeout_ s.1.
Proof.
  destruct s as [d log]. destruct e as [addr now|addr now| |clock]; cbn [step fst]; try done.
  unfold heartbeat. by destruct (nodes_ d !! addr).
Qed.

Lemma fold_membership (events : list event) (s : t * list string) :
  (forall a status, nodes_ s.1 !! a = Some status -> address status = a) ->
  dom (nodes_ (fold_left step events s).1) = dom (nodes_ s.1) ∪ added events
  /\ (forall a status, nodes_ (fold_left step events s).1 !! a = Some status ->
        address status = a)
  /\ heartbeat_timeout_ (fold_left step events s).1 = heartbeat_timeout_ s.1.
Proof.
  revert s. induction events as [|e events IH]; intros s Hkeyed.
  - cbn. unfold added. cbn. by rewrite union_empty_r_L.
  - cbn [fold_left].
    destruct (IH (step s e) (step_keyed s e Hkeyed)) as (Hdom & Hk & Ht).
    rewrite Hdom, step_dom, Ht, step_timeout. split; [|done].
    by rewrite (added_cons e events), (assoc_L (∪)).
Qed.

Lemma fold_ticks (clocks : list (string -> Z)) (s : t * list string)
    (a : string) (status : NodeStatus) :
  nodes_ s.1 !! a = Some status ->
  nodes_ (fold_left step (EvTick <$> clocks) s).1 !! a =
  Some (if is_alive status
           && negb (within_timeout (heartbeat_timeout_ s.1) (last_heartbeat status) a clocks)
        then {| address := address status; last_heartbeat := last_heartbeat status;
                is_alive := false; failure_count := wrap64 (failure_count status + 1) |}
        else status).
Proof.
  revert s status. induction clocks as [|clock clocks IH]; intros [d log] status Hl.
  - cbn. cbn in Hl. rewrite Hl. by rewrite andb_false_r.
  - cbn [fmap list_fmap fold_left]. cbn [fst] in *.
    assert (nodes_ (step (d, log) (EvTick clock)).1 !! a
            = Some (detect_node d (clock a) status).1) as Hstep.
    { change (nodes_ (detect_tick clock d).1 !! a
              = Some (detect_node d (clock a) status).1).
      by rewrite detect_tick_lookup, Hl. }
    rewrite (IH _ _ Hstep), step_timeout. cbn [fst]. f_equal.
    unfold detect_node. cbn [within_timeout forallb].
    destruct (heartbeat_timeout_ d
              <? duration_cast_ms (clock a - last_heartbeat status)) eqn:Hlate; cbn.
    + destruct (is_alive status) eqn:Halive; cbn; [done|].
      by rewrite Halive.
    + done.
Qed.

End MembershipFacts.

(** X13. After any history of calls and detection passes on a fresh
    detector, the registered nodes are exactly the addresses given to
    [add_node]: a heartbeat of an unknown address registers nothing and no
    node is ever removed. Every record is stored under its own address and
    the time-out is the one given at construction. *)
Theorem registered_nodes_are_the_added_ones (timeout : Z)
    (events : list FailureDetector.event) :
  let d := (FailureDetector.run events (FailureDetector.new timeout)).1 in
  dom (FailureDetector.nodes_ d) = Membership.added events
  /\ (forall a status, FailureDetector.nodes_ d !! a = Some status ->
        FailureDetector.address status = a)
  /\ FailureDetector.heartbeat_timeout_ d = timeout.
Proof.
  intros d. subst d. unfold FailureDetector.run.
  destruct (fold_membership events (FailureDetector.new timeout, []))
    as (Hdom & Hkeyed & Htimeout).
  { intros a status. cbn. by rewrite lookup_empty. }
  split; [|done]. rewrite Hdom. cbn. by rewrite dom_empty_L, union_empty_l_L.
Qed.

(** X14. A node that is alive, over any number of detection passes with no
    heartbeat in between: if in every pass the time since its last
    heartbeat, truncated to milliseconds, is at most the time-out, its
    record is unchanged; otherwise it ends not alive with its failure count
    raised by one, however many passes saw it late. *)
Theorem silent_node_is_marked_once (d : FailureDetector.t) (a : string)
    (status : FailureDetector.NodeStatus) (clocks : list (string -> Z)) :
  FailureDetector.nodes_ d !! a = Some status ->
  FailureDetector.is_alive status = true ->
  FailureDetector.nodes_
    (FailureDetector.run (FailureDetector.EvTick <$> clocks) d).1 !! a =
  Some (if Membership.within_timeout (FailureDetector.heartbeat_timeout_ d)
             (FailureDetector.last_heartbeat status) a clocks
        then status
        else {| FailureDetector.address := FailureDetector.address status;
                FailureDetector.last_heartbeat := FailureDetector.last_heartbeat status;
                FailureDetector.is_alive := false;
                FailureDetector.failure_count :=
                  wrap64 (FailureDetector.failure_count status + 1) |}).
Proof.
  intros Hl Halive. unfold FailureDetector.run.
  rewrite (fold_ticks clocks (d, []) a status Hl). cbn [fst]. rewrite Halive. cbn.
  by destruct (Membership.within_timeout _ _ _ _).
Qed.

Lemma silent_node_is_marked_once_witness :
  let d := FailureDetector.add_node "node2:5000" 0 (FailureDetector.new 1000) in
  FailureDetector.is_alive <$>
    (FailureDetector.nodes_
       (FailureDetector.run
          (FailureDetector.EvTick <$> [fun _ => 1000999999; fun _ => 1001000000;
                                       fun _ => 500000000]) d).1 !! "node2:5000")
  = Some false.
Proof.
  intros d.
  rewrite (silent_node_is_marked_once d "node2:5000"
             {| FailureDetector.address := "node2:5000"; FailureDetector.last_heartbeat := 0;
                FailureDetector.is_alive := true; FailureDetector.failure_count := 0 |}).
  - reflexivity.
  - by vm_compute.
  - reflexivity.
Defined.

(** ** AdaptiveLoadBalancer: the counters over a history *)

Section AccountingFacts.
Import AdaptiveLoadBalancer Accounting.

Lemma wrap64_range (z : Z) : 0 <= wrap64 z < 2 ^ 64.
Proof. unfold wrap64. apply Z.mod_pos_bound. lia. Qed.

Lemma wrap64_small (z : Z) : 0 <= z < 2 ^ 64 -> wrap64 z = z.
Proof. unfold wrap64. apply Z.mod_small. Qed.

Lemma wrap64_add_l (a b c : Z) : a + b = c -> wrap64 (wrap64 a + b) = wrap64 c.
Proof. intros <-. unfold wrap64. by rewrite Zplus_mod_idemp_l. Qed.

Lemma wrap64_add_sub_l (a b c d : Z) :
  a + b - c = d -> wrap64 (wrap64 a + b - c) = wrap64 d.
Proof.
  intros <-. replace (wrap64 a + b - c) with (wrap64 a + (b - c)) by lia.
  apply wrap64_add_l. lia.
Qed.

Local Ltac range :=
  unfold in_range; cbn;
  repeat match goal with
  | |- context [wrap64 ?z] =>
      generalize (wrap64_range z); generalize (wrap64 z); intros ? ?
  end; lia.

Lemma apply_call_counts (c : call) (shards0 shards : list ShardStats) (i : nat)
    (s0 : ShardStats) :
  apply_call c shards0 = Some shards -> shards0 !! i = Some s0 -> in_range s0 ->
  exists s,
    shards !! i = Some s /\ in_range s
    /\ total_requests s = wrap64 (total_requests s0 + count (started i) [c])
    /\ active_requests s
       = wrap64 (active_requests s0 + count (started i) [c] - count (ended i) [c])
    /\ error_count s = wrap64 (error_count s0 + count (errored i) [c]).
Proof.
  intros Hcall Hi (Ha & Ht & He).
  destruct c as [j|j latency_ms success e]; cbn in Hcall;
    [unfold record_request_start in Hcall|unfold record_request_end in Hcall];
    destruct (shards0 !! j) as [sj|] eqn:Hj; try done; injection Hcall as <-;
    (destruct (decide (j = i)) as [->|Hne];
     [rewrite list_lookup_insert_eq by (by eapply lookup_lt_Some);
      rewrite Hi in Hj; injection Hj as <-
     |rewrite list_lookup_insert_ne by done]);
    eexists; (split; [done|]); cbn;
    rewrite ?bool_decide_eq_true_2, ?bool_decide_eq_false_2 by done; cbn.
  - split; [range|].
    split; [f_equal; lia|]. split; [f_equal; lia|]. rewrite wrap64_small; lia.
  - split; [done|]. rewrite !wrap64_small; lia.
  - split; [destruct success; range|].
    split; [rewrite wrap64_small; lia|]. split; [f_equal; lia|].
    destruct success; cbn; [rewrite wrap64_small; lia|f_equal; lia].
  - split; [done|]. rewrite !wrap64_small; lia.
Qed.

Lemma run_counts (calls : list call) (shards0 shards : list ShardStats) (i : nat)
    (s0 : ShardStats) :
  run calls shards0 = Some shards -> shards0 !! i = Some s0 -> in_range s0 ->
  exists s,
    shards !! i = Some s /\ in_range s
    /\ total_requests s = wrap64 (total_requests s0 + count (started i) calls)
    /\ active_requests s
       = wrap64 (active_requests s0 + count (started i) calls - count (ended i) calls)
    /\ error_count s = wrap64 (error_count s0 + count (errored i) calls).
Proof.
  revert shards0 s0. induction calls as [|c calls IH]; intros shards0 s0 Hrun Hi Hr.
  - cbn in Hrun. injection Hrun as <-. exists s0. destruct Hr as (Ha & Ht & He).
    cbn. rewrite !wrap64_small by lia. unfold in_range. repeat split; (done || lia).
  - cbn [run] in Hrun. destruct (apply_call c shards0) as [mid|] eqn:Hc; [|done].
    destruct (apply_call_counts c shards0 mid i s0 Hc Hi Hr)
      as (s1 & Hi1 & Hr1 & Ht1 & Ha1 & He1).
    destruct (IH mid s1 Hrun Hi1 Hr1) as (s & Hs & Hrs & Ht & Ha & He).
    exists s. split; [done|]. split; [done|].
    rewrite Ht, Ha, He, Ht1, Ha1, He1. cbn [count].
    split; [apply wrap64_add_l; lia|].
    split; [apply wrap64_add_sub_l; lia|apply wrap64_add_l; lia].
Qed.

Lemma run_defined (calls : list call) (shards0 : list ShardStats) :
  is_Some (run calls shards0) <->
  Forall (fun c => (shard_of c < length shards0)%nat) calls.
Proof.
  revert shards0. induction calls as [|c calls IH]; intros shards0.
  - cbn. split; [by constructor|by eauto].
  - cbn [run]. rewrite Forall_cons.
    destruct (apply_call c shards0) as [mid|] eqn:Hc.
    + assert (length mid = length shards0 /\ (shard_of c < length shards0)%nat) as [Hlen Hlt].
      { destruct c as [j|j latency_ms success e]; cbn in Hc;
          [unfold record_request_start in Hc|unfold record_request_end in Hc];
          destruct (shards0 !! j) eqn:Hj; try done; injection Hc as <-;
          (split; [by rewrite length_insert|by eapply lookup_lt_Some]). }
      rewrite IH, Hlen. tauto.
    + split; [by intros [? ?]|]. intros [Hlt _]. exfalso.
      destruct (lookup_lt_is_Some_2 shards0 (shard_of c) Hlt) as [s Hs].
      destruct c as [j|j latency_ms success e]; cbn in Hc, Hs;
        [unfold record_request_start in Hc|unfold record_request_end in Hc];
        by rewrite Hs in Hc.
Qed.

End AccountingFacts.

(** X15. A sequence of calls of [record_request_start] and
    [record_request_end] on a fresh balancer of [num_shards] shards is
    defined exactly when every call names a shard below [num_shards]. Then
    for every shard, modulo [2^64], [total_requests] is the number of
    starts, [active_requests] the number of starts less the number of ends
    (an end without a start wraps it around to [2^64 - 1]), and
    [error_count] the number of ends with [success = false]. *)
Theorem counters_follow_history (num_shards : nat)
    (calls : list AdaptiveLoadBalancer.call) :
  (is_Some (AdaptiveLoadBalancer.run calls (AdaptiveLoadBalancer.new num_shards)) <->
   Forall (fun c => (Accounting.shard_of c < num_shards)%nat) calls)
  /\ forall shards_ i s,
       AdaptiveLoadBalancer.run calls (AdaptiveLoadBalancer.new num_shards) = Some shards_ ->
       shards_ !! i = Some s ->
       AdaptiveLoadBalancer.shard_id s = i
       /\ AdaptiveLoadBalancer.total_requests s
          = wrap64 (Accounting.count (Accounting.started i) calls)
       /\ AdaptiveLoadBalancer.active_requests s
          = wrap64 (Accounting.count (Accounting.started i) calls
                    - Accounting.count (Accounting.ended i) calls)
       /\ AdaptiveLoadBalancer.error_count s
          = wrap64 (Accounting.count (Accounting.errored i) calls).
Proof.
  destruct (new_well_indexed num_shards) as [Hlen Hwi]. split.
  - by rewrite run_defined, Hlen.
  - intros shards_ i s Hrun Hs.
    destruct (run_well_indexed _ _ _ Hwi Hrun) as [Hlen' Hwi'].
    split; [by apply Hwi'|].
    destruct (lookup_lt_is_Some_2 (AdaptiveLoadBalancer.new num_shards) i) as [s0 Hs0].
    { rewrite <- Hlen'. by eapply lookup_lt_Some. }
    assert (AdaptiveLoadBalancer.active_requests s0 = 0
            /\ AdaptiveLoadBalancer.total_requests s0 = 0
            /\ AdaptiveLoadBalancer.error_count s0 = 0) as (Ha0 & Ht0 & He0).
    { unfold AdaptiveLoadBalancer.new in Hs0.
      change (map ?f ?l) with (f <$> l) in Hs0. rewrite list_lookup_fmap in Hs0.
      destruct (seq 0 num_shards !! i); [|done]. by injection Hs0 as <-. }
    destruct (run_counts calls _ shards_ i s0 Hrun Hs0) as (s' & Hs' & _ & Ht & Ha & He).
    { unfold Accounting.in_range. lia. }
    rewrite Hs in Hs'. injection Hs' as <-.
    rewrite Ht, Ha, He, Ha0, Ht0, He0. done.
Qed.

Lemma counters_follow_history_witness :
  exists shards_ s,
    AdaptiveLoadBalancer.run
      [AdaptiveLoadBalancer.RequestEnd 1 5 false AdaptiveLoadBalancer.FusedLatency]
      (AdaptiveLoadBalancer.new 2) = Some shards_
    /\ shards_ !! 1%nat = Some s
    /\ AdaptiveLoadBalancer.active_requests s = 2 ^ 64 - 1.
Proof.
  eexists _, _. split; [reflexivity|]. split; [reflexivity|].
  exact (proj1 (proj2 (proj2 (proj2 (counters_follow_history 2
           [AdaptiveLoadBalancer.RequestEnd 1 5 false AdaptiveLoadBalancer.FusedLatency])
           _ 1%nat _ eq_refl eq_refl)))).
Defined.

(** ** AdaptiveLoadBalancer: a latency that is not a number *)

Section NanFacts.
Import AdaptiveLoadBalancer.
Local Open Scope float_scope.

Lemma is_nan_spec (x : float) : is_nan x = true <-> Prim2SF x = S754_nan.
Proof.
  unfold is_nan. rewrite FloatAxioms.eqb_spec, negb_true_iff. unfold SFeqb, SFcompare.
  destruct (Prim2SF x) as [s|s| |s m e]; cbn.
  - by destruct s.
  - by destruct s.
  - done.
  - destruct s; rewrite Z.compare_refl;
      change (Pos.compare_cont Eq m m) with (Pos.compare m m);
      by rewrite Pos.compare_refl.
Qed.

Lemma is_nan_mul_l (x y : float) : is_nan x = true -> is_nan (x * y) = true.
Proof.
  rewrite !is_nan_spec, FloatAxioms.mul_spec. intros ->. unfold SF64mul, SFmul.
  by destruct (Prim2SF y).
Qed.

Lemma is_nan_div_l (x y : float) : is_nan x = true -> is_nan (x / y) = true.
Proof.
  rewrite !is_nan_spec, FloatAxioms.div_spec. intros ->. unfold SF64div, SFdiv.
  by destruct (Prim2SF y).
Qed.

Lemma is_nan_add_l (x y : float) : is_nan x = true -> is_nan (x + y) = true.
Proof.
  rewrite !is_nan_spec, FloatAxioms.add_spec. intros ->. unfold SF64add, SFadd.
  by destruct (Prim2SF y).
Qed.

Lemma is_nan_add_r (x y : float) : is_nan y = true -> is_nan (x + y) = true.
Proof.
  rewrite !is_nan_spec, FloatAxioms.add_spec. intros ->. unfold SF64add, SFadd.
  by destruct (Prim2SF x) as [[|]|[|]| |].
Qed.

Lemma is_nan_fma_l (x y z : float) :
  is_nan x = true -> is_nan (FusedMultiplyAdd.fma x y z) = true.
Proof.
  rewrite is_nan_spec. intros Hx. unfold FusedMultiplyAdd.fma. by rewrite Hx.
Qed.

Lemma is_nan_fma_r (x y z : float) :
  is_nan z = true -> is_nan (FusedMultiplyAdd.fma x y z) = true.
Proof.
  rewrite is_nan_spec. intros Hz. unfold FusedMultiplyAdd.fma. rewrite Hz.
  by destruct (Prim2SF x), (Prim2SF y).
Qed.

Lemma moving_average_nan (e : evaluation) (old_avg latency_ms : float) :
  is_nan latency_ms = true \/ is_nan old_avg = true ->
  is_nan (moving_average e old_avg latency_ms) = true.
Proof.
  intros [Hnan|Hnan]; destruct e; cbn.
  - by apply is_nan_add_r, is_nan_mul_l.
  - by apply is_nan_fma_r, is_nan_mul_l.
  - by apply is_nan_fma_l.
  - by apply is_nan_add_l, is_nan_mul_l.
  - by apply is_nan_fma_l.
  - by apply is_nan_fma_r, is_nan_mul_l.
Qed.

Lemma score_nan (s : ShardStats) : is_nan (avg_latency_ms s) = true -> is_nan (score s) = true.
Proof. intros Hnan. unfold score. by apply is_nan_add_r, is_nan_div_l. Qed.

End NanFacts.

(** X16. [record_request_end] with a latency that is not a number, or on a
    shard whose average latency is not a number already, leaves the average
    latency not a number; and [select_shard] never returns such a shard,
    unless it is shard [0], the initial value of [best_shard]. *)
Theorem nan_latency_poisons_shard (e : AdaptiveLoadBalancer.evaluation)
    (i : nat) (latency_ms : float) (success : bool)
    (shards_ shards' : list AdaptiveLoadBalancer.ShardStats)
    (s : AdaptiveLoadBalancer.ShardStats) :
  AdaptiveLoadBalancer.record_request_end e i latency_ms success shards_ = Some shards' ->
  shards_ !! i = Some s ->
  is_nan latency_ms = true \/ is_nan (AdaptiveLoadBalancer.avg_latency_ms s) = true ->
  exists s',
    shards' !! i = Some s'
    /\ is_nan (AdaptiveLoadBalancer.avg_latency_ms s') = true
    /\ (AdaptiveLoadBalancer.well_indexed shards_ -> i <> 0%nat ->
        AdaptiveLoadBalancer.select_shard shards' <> i).
Proof.
  intros Hend Hs Hnan. unfold AdaptiveLoadBalancer.record_request_end in Hend.
  rewrite Hs in Hend. injection Hend as <-.
  eexists. split; [apply list_lookup_insert_eq; by eapply lookup_lt_Some|].
  cbn [AdaptiveLoadBalancer.avg_latency_ms].
  assert (is_nan (AdaptiveLoadBalancer.moving_average e
                    (AdaptiveLoadBalancer.avg_latency_ms s) latency_ms) = true) as Hpoison
    by (by apply moving_average_nan).
  split; [done|]. intros Hwi Hi Hsel.
  set (s' := AdaptiveLoadBalancer.mkShardStats _ _ _ _ _) in *.
  assert (AdaptiveLoadBalancer.well_indexed (<[i := s']> shards_)) as Hwi'
    by (by eapply insert_well_indexed).
  destruct (select_shard_well_indexed (<[i := s']> shards_)) as [_ [[H0 _]|Hbest]];
    [|done|congruence|].
  { intros Hnil. apply (f_equal length) in Hnil. rewrite length_insert in Hnil.
    apply lookup_lt_Some in Hs. cbn in Hnil. lia. }
  destruct Hbest as (best & Hbest & Hlt & _). rewrite Hsel in Hbest.
  rewrite list_lookup_insert_eq in Hbest by (by eapply lookup_lt_Some).
  injection Hbest as <-. apply float_ltb_not_nan in Hlt.
  rewrite score_nan in Hlt; done.
Qed.

Lemma nan_latency_poisons_shard_witness :
  exists shards' s',
    AdaptiveLoadBalancer.record_request_end AdaptiveLoadBalancer.EachRounded 1 nan true
      (AdaptiveLoadBalancer.new 2) = Some shards'
    /\ shards' !! 1%nat = Some s'
    /\ is_nan (AdaptiveLoadBalancer.avg_latency_ms s') = true.
Proof.
  destruct (nan_latency_poisons_shard AdaptiveLoadBalancer.EachRounded 1 nan true
              (AdaptiveLoadBalancer.new 2) _ _
              eq_refl eq_refl (or_introl eq_refl)) as (s' & Hs' & Hnan & _).
  by eexists _, s'.
Defined.

(** ** Tracer: the ids of the spans *)

Section TracerFacts.
Import Tracer.

Lemma start_spans_cons (name_ parent : string) (now : Z)
    (calls : list (string * string * Z)) (tr : t) :
  start_spans ((name_, parent, now) :: calls) tr =
  ((start_spans calls (start_span name_ parent now tr).1).1,
   (start_span name_ parent now tr).2
   :: (start_spans calls (start_span name_ parent now tr).1).2).
Proof. cbn. by destruct (start_spans calls _). Qed.

Lemma start_spans_from (calls : list (string * string * Z)) (tr : t) :
  0 <= id_counter_ tr ->
  id_counter_ tr + Z.of_nat (length calls) <= 2 ^ 64 ->
  (start_spans calls tr).2
    = (fun j => "span_" +:+ pretty (id_counter_ tr + Z.of_nat j)) <$> seq 0 (length calls)
  /\ spans_ (start_spans calls tr).1
     = spans_ tr ++ ((fun c => mkSpan c.1.1 None c.2 c.1.2 ∅) <$> calls).
Proof.
  revert tr. induction calls as [|[[name_ parent] now] calls IH]; intros tr Hlo Hhi.
  - cbn. by rewrite app_nil_r.
  - cbn [length] in Hhi. rewrite start_spans_cons. cbn [fst snd].
    destruct (decide (calls = [])) as [->|Hne].
    { cbn. by rewrite Z.add_0_r. }
    assert (1 <= length calls)%nat as Hpos by (destruct calls; [done|cbn; lia]).
    set (tr1 := (start_span name_ parent now tr).1).
    assert (id_counter_ tr1 = id_counter_ tr + 1) as Hid.
    { cbn. unfold wrap64. apply Z.mod_small. lia. }
    assert (spans_ tr1 = spans_ tr ++ [mkSpan name_ None now parent ∅]) as Hsp1 by done.
    clearbody tr1.
    destruct (IH tr1) as (Hids & Hspans); [lia|lia|].
    split.
    + cbn [length seq fmap list_fmap]. rewrite Z.add_0_r. f_equal.
      rewrite Hids, <- fmap_S_seq, <- list_fmap_compose.
      apply list_fmap_ext. intros i j _. cbn. rewrite Hid. do 2 f_equal. lia.
    + rewrite Hspans, Hsp1. by rewrite <- app_assoc.
Qed.

End TracerFacts.

(** X17. Up to [2^64] calls of [start_span] on a fresh tracer return
    [span_0], [span_1], ... in call order, pairwise different ids; the
    tracer records one span per call, in call order, with the name, the
    parent id and the start time given, no duration and no tags (the id is
    not stored in the span). *)
Theorem span_ids_are_distinct (calls : list (string * string * Z)) :
  Z.of_nat (length calls) <= 2 ^ 64 ->
  let ids := (Tracer.start_spans calls Tracer.new).2 in
  let spans := Tracer.spans_ (Tracer.start_spans calls Tracer.new).1 in
  ids = (fun j => "span_" +:+ pretty (Z.of_nat j)) <$> seq 0 (length calls)
  /\ NoDup ids
  /\ spans = (fun c => Tracer.mkSpan c.1.1 None c.2 c.1.2 ∅) <$> calls.
Proof.
  intros Hlen ids spans. subst ids spans.
  destruct (start_spans_from calls Tracer.new) as (Hids & Hspans); [done|cbn; lia|].
  rewrite Hids, Hspans. cbn. split; [done|]. split; [|done].
  apply NoDup_fmap_2; [|apply NoDup_seq].
  intros i j Heq. apply String.app_inj in Heq. apply pretty_Z_inj in Heq. lia.
Qed.

Lemma span_ids_are_distinct_witness :
  (Tracer.start_spans [("search_request", "", 0); ("query_shard_0", "span_0", 5)]
     Tracer.new).2 = ["span_0"; "span_1"].
Proof.
  exact (proj1 (span_ids_are_distinct
                  [("search_request", "", 0); ("query_shard_0", "span_0", 5)]
                  ltac:(by vm_compute))).
Defined.
